(** * Audit log service: sequencing, buffering and live fan-out

    A shallow embedding of [server/services/auditService.ts].

    The service keeps a process-wide registry [activeAudits] of
    [ActiveAudit] objects, a table [clientConnections] of WebSocket
    clients, and writes through to two database tables.  Every exported
    function is [async]: it runs synchronously up to its next [await]
    and is resumed later by the event loop.  The embedding keeps that
    structure: each synchronous segment of the source is one computation
    in a state-and-exception monad, an awaited call that is resumed at
    once is the composition of its segments, and a scheduler with a pool
    of suspended calls interleaves segments of different calls. *)

From Stdlib Require Import ZArith String List Lia Bool.
From stdpp Require Import base option list sorting gmap.

Open Scope Z_scope.

(** ** Data model *)

(** Object identities: a WebSocket connection object, an [ActiveAudit]
    object.  JavaScript numbers that the service only counts with or
    compares are integers, embedded as [Z]. *)
Abbreviation WebSocket := nat (only parsing).
Abbreviation Ref := nat (only parsing).

(** [AuditEventType], the closed enumeration of [@shared/schema]. *)
Inductive AuditEventType :=
| job_started | db_query | db_insert | db_update | llm_call
| chunk_processed | skeleton_extracted | stitch_pass | error | job_completed.

#[global] Instance AuditEventType_eq_dec : EqDecision AuditEventType.
Proof. solve_decision. Defined.

(** Values typed [any] in the source. *)
#[local] Unset Elimination Schemes.
Inductive JsValue :=
| JsNull
| JsBool (b : bool)
| JsNumber (n : Z)
| JsString (s : string)
| JsArray (l : list JsValue)
| JsObject (l : list (string * JsValue)).
#[local] Set Elimination Schemes.

Inductive SqlOperation := SELECT | INSERT | UPDATE | DELETE.

(** [AuditEventData[T]]: one payload shape per event type.  An optional
    field ([x?: T]) is an [option]. *)
Inductive AuditEventData :=
| DataJobStarted (jobType : string) (targetWords inputWords : option Z)
| DataDbQuery (sql : string) (params : option (list JsValue)) (table : string)
    (operation : SqlOperation) (rowsReturned durationMs : Z)
| DataDbInsert (table : string) (rowId : Z) (keyFields : list (string * JsValue))
    (durationMs : Z)
| DataDbUpdate (table : string) (rowId : Z) (fieldsUpdated : list string)
    (newValues : list (string * JsValue)) (durationMs : Z)
| DataLlmCall (model purpose : string) (chunkIndex : option Z)
    (inputTokens outputTokens : Z) (promptPreview responsePreview : string)
    (durationMs : Z)
| DataChunkProcessed (chunkIndex inputWords outputWords targetWords : Z)
    (withinTolerance : bool) (claimsAddressed violations : option (list string))
| DataSkeletonExtracted (claimsCount termsCount structuralRequirements
    totalTargetWords : Z)
| DataStitchPass (coherenceScore : string) (claimsCovered claimsMissing
    topicViolations repairsNeeded : Z)
| DataError (errorType message context : string) (chunkIndex : option Z)
    (willRetry : bool)
| DataJobCompleted (jobType : string) (targetWords actualWords : option Z)
    (success : bool).

(** [interface AuditLogEntry]; the timestamp is the clock reading in
    milliseconds. *)
Record AuditLogEntry := {
  sequenceNum : Z;
  timestamp : Z;
  eventType : AuditEventType;
  eventData : AuditEventData
}.

(** [interface ActiveAudit].  A JavaScript [Set] iterates in insertion
    order, so [subscribers] is a duplicate-free list in that order. *)
Record ActiveAudit := {
  auditLogId : Z;
  userId : Z;
  jobType : string;
  jobId : option Z;
  sequenceCounter : Z;
  subscribers : list WebSocket;
  entries : list AuditLogEntry
}.

Definition set_sequenceCounter (n : Z) (a : ActiveAudit) : ActiveAudit :=
  {| auditLogId := auditLogId a; userId := userId a; jobType := jobType a;
     jobId := jobId a; sequenceCounter := n;
     subscribers := subscribers a; entries := entries a |}.

Definition set_subscribers (l : list WebSocket) (a : ActiveAudit) : ActiveAudit :=
  {| auditLogId := auditLogId a; userId := userId a; jobType := jobType a;
     jobId := jobId a; sequenceCounter := sequenceCounter a;
     subscribers := l; entries := entries a |}.

Definition set_entries (l : list AuditLogEntry) (a : ActiveAudit) : ActiveAudit :=
  {| auditLogId := auditLogId a; userId := userId a; jobType := jobType a;
     jobId := jobId a; sequenceCounter := sequenceCounter a;
     subscribers := subscribers a; entries := l |}.

(** [Set.prototype.add] and [Set.prototype.delete]. *)
Definition Set_add (ws : WebSocket) (l : list WebSocket) : list WebSocket :=
  if bool_decide (ws ∈ l) then l else l ++ [ws].

Definition Set_delete (ws : WebSocket) (l : list WebSocket) : list WebSocket :=
  filter (λ x, x ≠ ws) l.

(** *** The database tables

    Rows of [auditLogs] and [auditLogEntries] with the columns the
    service reads and writes. *)
Inductive AuditStatus := running | completed | failed.

Record AuditLogRow := {
  log_id : Z;
  log_userId : Z;
  log_jobType : string;
  log_jobId : option Z;
  log_startedAt : Z;
  log_completedAt : option Z;
  log_status : AuditStatus;
  log_finalOutputPreview : option string
}.

(** [InsertAuditLogEntry], which is also the row that a select returns. *)
Record AuditLogEntryRow := {
  row_auditLogId : Z;
  row_sequenceNum : Z;
  row_timestamp : Z;
  row_eventType : AuditEventType;
  row_eventData : AuditEventData
}.

(** The tables in insertion order, and the next value of the serial
    primary key of [auditLogs]. *)
Record Db := {
  auditLogs : list AuditLogRow;
  auditLogEntries : list AuditLogEntryRow;
  nextAuditLogId : Z
}.

(** *** The live channel *)

(** The messages the server sends, before [JSON.stringify]. *)
Inductive ServerMessage :=
| MsgEntry (auditLogId : Z) (entry : AuditLogEntry)
| MsgSubscribed (auditLogId : Z)
| MsgHistory (auditLogId : Z) (entries : list AuditLogEntryRow)
| MsgCompleted (auditLogId : Z) (success : bool) (totalEntries : Z).

(** What [JSON.parse] yields of a client message, as far as the handler
    looks at it: its [type] and its [auditLogId], a number as the
    registry's keys are.  [COther] stands for every other message: another
    type, no [auditLogId], or text that does not parse, which the handler's
    [catch] absorbs. *)
Inductive ClientMessage :=
| CSubscribe (auditLogId : Z)
| CGetHistory (auditLogId : Z)
| COther.

(** [readyState] of a WebSocket, and the messages handed to it so far. *)
Inductive ReadyState := CONNECTING | OPEN | CLOSING | CLOSED.

Record Socket := {
  readyState : ReadyState;
  outbox : list ServerMessage
}.

(** ** Program state *)

(** Stores of objects by identity. *)
Definition upd {A : Type} (f : nat → A) (k : nat) (v : A) : nat → A :=
  λ k', if Nat.eqb k' k then v else f k'.

Lemma upd_eq {A} (f : nat → A) k v : upd f k v k = v.
Proof. unfold upd. by rewrite Nat.eqb_refl. Qed.

Lemma upd_ne {A} (f : nat → A) k k' v : k' ≠ k → upd f k v k' = f k'.
Proof. intros H. unfold upd. by apply Nat.eqb_neq in H as ->. Qed.

(** The module-level [activeAudits] and [clientConnections] maps, the
    [ActiveAudit] objects they and suspended calls refer to, the sockets
    and the database. *)
Record State := {
  activeAudits : gmap Z Ref;
  clientConnections : gmap WebSocket (option Z);
  heap : Ref → ActiveAudit;
  nextRef : Ref;
  sockets : WebSocket → Socket;
  db : Db
}.

Definition set_activeAudits (m : gmap Z Ref) (s : State) : State :=
  {| activeAudits := m; clientConnections := clientConnections s;
     heap := heap s; nextRef := nextRef s; sockets := sockets s; db := db s |}.

Definition set_clientConnections (m : gmap WebSocket (option Z)) (s : State) : State :=
  {| activeAudits := activeAudits s; clientConnections := m;
     heap := heap s; nextRef := nextRef s; sockets := sockets s; db := db s |}.

Definition set_heap (h : Ref → ActiveAudit) (s : State) : State :=
  {| activeAudits := activeAudits s; clientConnections := clientConnections s;
     heap := h; nextRef := nextRef s; sockets := sockets s; db := db s |}.

Definition set_nextRef (n : Ref) (s : State) : State :=
  {| activeAudits := activeAudits s; clientConnections := clientConnections s;
     heap := heap s; nextRef := n; sockets := sockets s; db := db s |}.

Definition set_sockets (k : WebSocket → Socket) (s : State) : State :=
  {| activeAudits := activeAudits s; clientConnections := clientConnections s;
     heap := heap s; nextRef := nextRef s; sockets := k; db := db s |}.

Definition set_db (d : Db) (s : State) : State :=
  {| activeAudits := activeAudits s; clientConnections := clientConnections s;
     heap := heap s; nextRef := nextRef s; sockets := sockets s; db := d |}.

(** ** Computations: state and exceptions

    A thrown exception keeps the effects made before it. *)
Inductive Res (A : Type) :=
| Ok (a : A)
| Throw.
Arguments Ok {A} a.
Arguments Throw {A}.

Definition M (A : Type) : Type := State → Res A * State.

Definition ret {A} (a : A) : M A := λ s, (Ok a, s).

Definition bind {A B} (m : M A) (f : A → M B) : M B :=
  λ s, match m s with
       | (Ok a, s') => f a s'
       | (Throw, s') => (Throw, s')
       end.

Definition throw {A} : M A := λ s, (Throw, s).

(** [try { m } catch (error) { h }] *)
Definition try_catch {A} (m : M A) (h : M A) : M A :=
  λ s, match m s with
       | (Ok a, s') => (Ok a, s')
       | (Throw, s') => h s'
       end.

Definition gets {A} (f : State → A) : M A := λ s, (Ok (f s), s).
Definition modify (f : State → State) : M unit := λ s, (Ok tt, f s).

Notation "'let*' x := m 'in' k" := (bind m (λ x, k))
  (at level 10, x name, m at level 200, k at level 200).
Notation "m ;; k" := (bind m (λ _, k))
  (at level 100, k at level 200, right associativity).

(** [Array.prototype.forEach] and [for ... of] over a snapshot. *)
Fixpoint forEach {A} (l : list A) (f : A → M unit) : M unit :=
  match l with
  | [] => ret tt
  | x :: l' => f x;; forEach l' f
  end.

(** [console.log] and [console.error] have no effect on the state. *)
Definition console : M unit := ret tt.

Definition exec {A} (m : M A) (s : State) : State := snd (m s).
Definition result {A} (m : M A) (s : State) : Res A := fst (m s).

(** ** The external collaborators *)

(** [ws.send(data)] of the [ws] library, called without a callback: it
    throws while the socket is still connecting, hands the message to an
    open socket, and drops it after the closing handshake has begun. *)
Definition ws_send (ws : WebSocket) (msg : ServerMessage) : M unit :=
  λ s, let sk := sockets s ws in
       match readyState sk with
       | CONNECTING => (Throw, s)
       | OPEN =>
           (Ok tt, set_sockets (upd (sockets s) ws
                      {| readyState := OPEN; outbox := outbox sk ++ [msg] |}) s)
       | CLOSING | CLOSED => (Ok tt, s)
       end.

(** [db.insert(auditLogs).values(insertData).returning({ id })], once
    settled: [ok] tells whether the statement succeeded.  The row gets
    the next serial id, no completion time and no preview.  A failed
    statement is taken to leave the key where it was; a database may
    consume a value of the key for it, so what is stated of a failed
    insert is stated of the rows, and what is stated of the next id
    asks only that the key is above the ids in use. *)
Definition db_insert_auditLog (userId : Z) (jobType : string) (jobId : option Z)
    (startedAt : Z) (ok : bool) : M Z :=
  if ok then
    let* d := gets db in
    let id := nextAuditLogId d in
    modify (set_db {| auditLogs := auditLogs d ++
                        [{| log_id := id; log_userId := userId; log_jobType := jobType;
                            log_jobId := jobId; log_startedAt := startedAt;
                            log_completedAt := None; log_status := running;
                            log_finalOutputPreview := None |}];
                      auditLogEntries := auditLogEntries d;
                      nextAuditLogId := id + 1 |});;
    ret id
  else throw.

(** [db.insert(auditLogEntries).values(insertData)], once settled. *)
Definition db_insert_auditLogEntry (insertData : AuditLogEntryRow) (ok : bool) : M unit :=
  if ok then
    let* d := gets db in
    modify (set_db {| auditLogs := auditLogs d;
                      auditLogEntries := auditLogEntries d ++ [insertData];
                      nextAuditLogId := nextAuditLogId d |})
  else throw.

(** [db.update(auditLogs).set({ completedAt, status, finalOutputPreview })
    .where(eq(auditLogs.id, auditLogId))], once settled.  A column whose
    value is [undefined] is left as it is. *)
Definition update_row (id : Z) (completedAt : Z) (status : AuditStatus)
    (preview : option string) (r : AuditLogRow) : AuditLogRow :=
  if bool_decide (log_id r = id) then
    {| log_id := log_id r; log_userId := log_userId r; log_jobType := log_jobType r;
       log_jobId := log_jobId r; log_startedAt := log_startedAt r;
       log_completedAt := Some completedAt; log_status := status;
       log_finalOutputPreview :=
         match preview with Some p => Some p | None => log_finalOutputPreview r end |}
  else r.

Definition db_update_auditLog (id : Z) (completedAt : Z) (status : AuditStatus)
    (preview : option string) (ok : bool) : M unit :=
  if ok then
    let* d := gets db in
    modify (set_db {| auditLogs := map (update_row id completedAt status preview) (auditLogs d);
                      auditLogEntries := auditLogEntries d;
                      nextAuditLogId := nextAuditLogId d |})
  else throw.

(** [ORDER BY sequenceNum ASC]: an insertion sort on the sequence number,
    which keeps rows of equal number in table order. *)
Fixpoint insert_by_seq (r : AuditLogEntryRow) (l : list AuditLogEntryRow) :=
  match l with
  | [] => [r]
  | x :: l' => if row_sequenceNum r <? row_sequenceNum x
               then r :: x :: l' else x :: insert_by_seq r l'
  end.

Definition order_by_seq (l : list AuditLogEntryRow) : list AuditLogEntryRow :=
  fold_left (λ acc r, insert_by_seq r acc) l [].

(** The query of [getAuditEntries] on a database snapshot. *)
Definition select_entries (id : Z) (d : Db) : list AuditLogEntryRow :=
  order_by_seq (filter (λ r, row_auditLogId r = id) (auditLogEntries d)).

(** The query of [getAuditLog]: the first row with that id. *)
Definition select_log (id : Z) (d : Db) : option AuditLogRow :=
  head (filter (λ r, log_id r = id) (auditLogs d)).

(** [String.prototype.substring(start, end)] on non-negative integer
    arguments: both are clamped to the length and swapped when
    [start > end].  A character of a [string] stands for one UTF-16 code
    unit. *)
Definition js_substring (s : string) (start end_ : nat) : string :=
  let len := String.length s in
  let a := Nat.min start len in
  let b := Nat.min end_ len in
  String.substring (Nat.min a b) (Nat.max a b - Nat.min a b) s.

(** ** The service *)

(** Reading and updating an [ActiveAudit] object through a reference,
    and [new]. *)
Definition deref (r : Ref) : M ActiveAudit := gets (λ s, heap s r).

Definition assign (r : Ref) (f : ActiveAudit → ActiveAudit) : M unit :=
  modify (λ s, set_heap (upd (heap s) r (f (heap s r))) s).

Definition new_ActiveAudit (a : ActiveAudit) : M Ref :=
  λ s, (Ok (nextRef s),
        set_nextRef (S (nextRef s)) (set_heap (upd (heap s) (nextRef s) a) s)).

Definition activeAudits_get (id : Z) : M (option Ref) :=
  gets (λ s, activeAudits s !! id).

(** [broadcastEntry] *)
Definition broadcastEntry (auditLogId : Z) (entry : AuditLogEntry) : M unit :=
  let* audit := activeAudits_get auditLogId in
  match audit with
  | None => ret tt
  | Some r =>
      let message := MsgEntry auditLogId entry in
      let* a := deref r in
      forEach (subscribers a) (λ ws,
        let* sk := gets (λ s, sockets s ws) in
        match readyState sk with
        | OPEN => ws_send ws message
        | _ => ret tt
        end)
  end.

(** *** [logEvent]

    The locals of a call that is suspended at [await db.insert(...)]. *)
Record LogEventFrame := {
  fr_auditLogId : Z;
  fr_audit : option Ref;
  fr_entry : AuditLogEntry;
  fr_insertData : AuditLogEntryRow
}.

(** [logEvent] from its call to the [await]: the sequence number is
    taken here. *)
Definition logEvent_begin (auditLogId : Z) (eventType : AuditEventType)
    (eventData : AuditEventData) (now : Z) : M LogEventFrame :=
  let* audit := activeAudits_get auditLogId in
  let* sequenceNum :=
    match audit with
    | Some r =>
        assign r (λ a, set_sequenceCounter (sequenceCounter a + 1) a);;
        let* a := deref r in
        ret (sequenceCounter a)
    | None => ret 1
    end in
  let timestamp := now in
  let entry := {| sequenceNum := sequenceNum; timestamp := timestamp;
                  eventType := eventType; eventData := eventData |} in
  let insertData := {| row_auditLogId := auditLogId; row_sequenceNum := sequenceNum;
                       row_timestamp := timestamp; row_eventType := eventType;
                       row_eventData := eventData |} in
  ret {| fr_auditLogId := auditLogId; fr_audit := audit;
         fr_entry := entry; fr_insertData := insertData |}.

(** [logEvent] from the settled insert to its end; [db_ok] is the
    outcome of the insert. *)
Definition logEvent_resume (fr : LogEventFrame) (db_ok : bool) : M unit :=
  try_catch (db_insert_auditLogEntry (fr_insertData fr) db_ok) console;;
  match fr_audit fr with
  | Some r =>
      assign r (λ a, set_entries (entries a ++ [fr_entry fr]) a);;
      broadcastEntry (fr_auditLogId fr) (fr_entry fr)
  | None => ret tt
  end.

(** A call of [logEvent] that is awaited and resumed before anything
    else runs. *)
Definition logEvent (auditLogId : Z) (eventType : AuditEventType)
    (eventData : AuditEventData) (now : Z) (db_ok : bool) : M unit :=
  let* fr := logEvent_begin auditLogId eventType eventData now in
  logEvent_resume fr db_ok.

(** *** [startAudit] *)

(** From the settled insert of the [auditLogs] row ([db_ok] is its
    outcome) to the [await] inside the call of [logEvent]. *)
Definition startAudit_register (userId : Z) (jobType : string) (jobId : option Z)
    (startedAt : Z) (db_ok : bool) (now : Z) : M (Z * LogEventFrame) :=
  let* auditLogId := db_insert_auditLog userId jobType jobId startedAt db_ok in
  let* audit := new_ActiveAudit
    {| auditLogId := auditLogId; userId := userId; jobType := jobType;
       jobId := jobId; sequenceCounter := 0; subscribers := []; entries := [] |} in
  modify (λ s, set_activeAudits (<[auditLogId := audit]> (activeAudits s)) s);;
  let* fr := logEvent_begin auditLogId job_started (DataJobStarted jobType None None) now in
  ret (auditLogId, fr).

(** [startAudit] with every [await] resumed at once. *)
Definition startAudit (userId : Z) (jobType : string) (jobId : option Z)
    (startedAt now : Z) (db_ok1 db_ok2 : bool) : M Z :=
  let* p := startAudit_register userId jobType jobId startedAt db_ok1 now in
  logEvent_resume (snd p) db_ok2;;
  console;;
  ret (fst p).

(** *** The typed helpers *)

Definition logDbQuery (auditLogId : Z) (sql table : string) (operation : SqlOperation)
    (rowsReturned durationMs : Z) (params : option (list JsValue))
    (now : Z) (db_ok : bool) : M unit :=
  logEvent auditLogId db_query
    (DataDbQuery (js_substring sql 0 500) params table operation rowsReturned durationMs)
    now db_ok.

Definition logDbInsert (auditLogId : Z) (table : string) (rowId : Z)
    (keyFields : list (string * JsValue)) (durationMs : Z)
    (now : Z) (db_ok : bool) : M unit :=
  logEvent auditLogId db_insert (DataDbInsert table rowId keyFields durationMs) now db_ok.

Definition logDbUpdate (auditLogId : Z) (table : string) (rowId : Z)
    (fieldsUpdated : list string) (newValues : list (string * JsValue)) (durationMs : Z)
    (now : Z) (db_ok : bool) : M unit :=
  logEvent auditLogId db_update
    (DataDbUpdate table rowId fieldsUpdated newValues durationMs) now db_ok.

Definition logLlmCall (auditLogId : Z) (model purpose : string)
    (inputTokens outputTokens : Z) (promptPreview responsePreview : string)
    (durationMs : Z) (chunkIndex : option Z) (now : Z) (db_ok : bool) : M unit :=
  logEvent auditLogId llm_call
    (DataLlmCall model purpose chunkIndex inputTokens outputTokens
       (js_substring promptPreview 0 200) (js_substring responsePreview 0 200)
       durationMs)
    now db_ok.

Definition logChunkProcessed (auditLogId : Z)
    (chunkIndex inputWords outputWords targetWords : Z) (withinTolerance : bool)
    (claimsAddressed violations : option (list string))
    (now : Z) (db_ok : bool) : M unit :=
  logEvent auditLogId chunk_processed
    (DataChunkProcessed chunkIndex inputWords outputWords targetWords withinTolerance
       claimsAddressed violations) now db_ok.

Definition logSkeletonExtracted (auditLogId : Z)
    (claimsCount termsCount structuralRequirements totalTargetWords : Z)
    (now : Z) (db_ok : bool) : M unit :=
  logEvent auditLogId skeleton_extracted
    (DataSkeletonExtracted claimsCount termsCount structuralRequirements totalTargetWords)
    now db_ok.

Definition logStitchPass (auditLogId : Z) (coherenceScore : string)
    (claimsCovered claimsMissing topicViolations repairsNeeded : Z)
    (now : Z) (db_ok : bool) : M unit :=
  logEvent auditLogId stitch_pass
    (DataStitchPass coherenceScore claimsCovered claimsMissing topicViolations repairsNeeded)
    now db_ok.

Definition logError (auditLogId : Z) (errorType message context : string)
    (willRetry : bool) (chunkIndex : option Z) (now : Z) (db_ok : bool) : M unit :=
  logEvent auditLogId error (DataError errorType message context chunkIndex willRetry)
    now db_ok.

(** *** [completeAudit] *)

(** From the call to the [await] inside [logEvent]: the arguments of
    [logEvent] are evaluated first.  [x || 'unknown'] also replaces the
    empty string. *)
Definition completeAudit_begin (auditLogId : Z) (success : bool)
    (actualWords targetWords : option Z) (now : Z) : M LogEventFrame :=
  let* audit := activeAudits_get auditLogId in
  let* jt := match audit with
             | Some r => let* a := deref r in
                         ret (if bool_decide (jobType a = ""%string)
                              then "unknown"%string else jobType a)
             | None => ret "unknown"%string
             end in
  logEvent_begin auditLogId job_completed
    (DataJobCompleted jt targetWords actualWords success) now.

(** From the settled update of the [auditLogs] row ([db_ok] is its
    outcome) to the end. *)
Definition completeAudit_finish (auditLogId : Z) (success : bool)
    (finalOutputPreview : option string) (completedAt : Z) (db_ok : bool) : M unit :=
  try_catch
    (db_update_auditLog auditLogId completedAt (if success then completed else failed)
       (option_map (λ p, js_substring p 0 500) finalOutputPreview) db_ok)
    console;;
  let* audit := activeAudits_get auditLogId in
  match audit with
  | Some r =>
      let* a := deref r in
      forEach (subscribers a) (λ ws,
        let* a' := deref r in
        ws_send ws (MsgCompleted auditLogId success (Z.of_nat (length (entries a')))))
  | None => ret tt
  end;;
  modify (λ s, set_activeAudits (delete auditLogId (activeAudits s)) s);;
  console.

(** [completeAudit] with every [await] resumed at once. *)
Definition completeAudit (auditLogId : Z) (success : bool)
    (finalOutputPreview : option string) (actualWords targetWords : option Z)
    (now completedAt : Z) (db_ok1 db_ok2 : bool) : M unit :=
  let* fr := completeAudit_begin auditLogId success actualWords targetWords now in
  logEvent_resume fr db_ok1;;
  completeAudit_finish auditLogId success finalOutputPreview completedAt db_ok2.

(** *** The WebSocket handlers of [initAuditWebSocket] *)

(** [wss.on('connection')]: a new socket object, open and with nothing
    sent yet, enters [clientConnections]. *)
Definition on_connection (ws : WebSocket) : M unit :=
  modify (λ s, set_sockets (upd (sockets s) ws {| readyState := OPEN; outbox := [] |}) s);;
  console;;
  modify (λ s, set_clientConnections (<[ws := None]> (clientConnections s)) s).

(** A number is truthy unless it is zero. *)
Definition truthy (n : Z) : bool := negb (n =? 0).

(** The body of the [subscribe] branch. *)
Definition on_subscribe (ws : WebSocket) (auditLogId : Z) : M unit :=
  modify (λ s, set_clientConnections (<[ws := Some auditLogId]> (clientConnections s)) s);;
  let* audit := activeAudits_get auditLogId in
  match audit with
  | Some r =>
      assign r (λ a, set_subscribers (Set_add ws (subscribers a)) a);;
      let* a := deref r in
      forEach (entries a) (λ entry, ws_send ws (MsgEntry auditLogId entry))
  | None => ret tt
  end;;
  ws_send ws (MsgSubscribed auditLogId).

(** [ws.on('message')] up to its first [await]: the result is the
    session whose history has been requested, if any. *)
Definition on_message (ws : WebSocket) (message : ClientMessage) : M (option Z) :=
  try_catch
    match message with
    | CSubscribe auditLogId =>
        if truthy auditLogId then (on_subscribe ws auditLogId;; ret None) else ret None
    | CGetHistory auditLogId =>
        if truthy auditLogId then ret (Some auditLogId) else ret None
    | COther => ret None
    end
    (console;; ret None).

(** The [get_history] branch from the settled query to its end. *)
Definition on_message_history (ws : WebSocket) (auditLogId : Z) (db_ok : bool) : M unit :=
  try_catch
    (if db_ok then
       let* d := gets db in
       ws_send ws (MsgHistory auditLogId (select_entries auditLogId d))
     else throw)
    console.

(** [ws.on('close')] *)
Definition on_close (ws : WebSocket) : M unit :=
  let* c := gets (λ s, clientConnections s !! ws) in
  match c with
  | Some (Some auditLogId) =>
      let* audit := activeAudits_get auditLogId in
      match audit with
      | Some r => assign r (λ a, set_subscribers (Set_delete ws (subscribers a)) a)
      | None => ret tt
      end
  | _ => ret tt
  end;;
  modify (λ s, set_clientConnections (delete ws (clientConnections s)) s).

(** *** The query surface *)

Definition getAuditLog (auditLogId : Z) (db_ok : bool) : M (option AuditLogRow) :=
  if db_ok then gets (λ s, select_log auditLogId (db s)) else throw.

Definition getAuditEntries (auditLogId : Z) (db_ok : bool) : M (list AuditLogEntryRow) :=
  if db_ok then gets (λ s, select_entries auditLogId (db s)) else throw.

Record AuditSummary := {
  totalEvents : Z;
  dbQueries : Z;
  dbInserts : Z;
  dbUpdates : Z;
  llmCalls : Z;
  chunksProcessed : Z;
  errors : Z
}.

(** The object [{ ...log, entries, summary }]. *)
Record AuditReport := {
  rep_log : AuditLogRow;
  rep_entries : list AuditLogEntryRow;
  rep_summary : AuditSummary
}.

Definition count_type (t : AuditEventType) (entries : list AuditLogEntryRow) : Z :=
  Z.of_nat (length (filter (λ e, row_eventType e = t) entries)).

Definition getFullAuditReport (auditLogId : Z) (db_ok1 db_ok2 : bool)
  : M (option AuditReport) :=
  let* log := getAuditLog auditLogId db_ok1 in
  match log with
  | None => ret None
  | Some log =>
      let* entries := getAuditEntries auditLogId db_ok2 in
      ret (Some {| rep_log := log;
                   rep_entries := entries;
                   rep_summary :=
                     {| totalEvents := Z.of_nat (length entries);
                        dbQueries := count_type db_query entries;
                        dbInserts := count_type db_insert entries;
                        dbUpdates := count_type db_update entries;
                        llmCalls := count_type llm_call entries;
                        chunksProcessed := count_type chunk_processed entries;
                        errors := count_type error entries |} |})
  end.

(** ** The event loop

    A suspended call waits for the database; the event loop resumes
    suspended calls in any order, between handler invocations and new
    calls. *)

(** What the caller of [logEvent] does once [logEvent] has returned. *)
Inductive Caller :=
| FromStartAudit (auditLogId : Z)
| FromCompleteAudit (auditLogId : Z) (success : bool) (finalOutputPreview : option string)
| FromOutside.

(** The suspended calls, one constructor per [await] of the source. *)
Inductive Task :=
| AwaitInsertLog (userId : Z) (jobType : string) (jobId : option Z) (startedAt : Z)
| AwaitInsertEntry (fr : LogEventFrame) (k : Caller)
| AwaitUpdateLog (auditLogId : Z) (success : bool) (finalOutputPreview : option string)
    (completedAt : Z)
| AwaitSelectEntries (ws : WebSocket) (auditLogId : Z).

Record Sys := {
  st : State;
  pool : list Task
}.

(** What can happen next: a socket event, a move of a socket's transport
    to another [readyState], a call of an exported function, or the
    resumption of the [i]-th suspended call, whose database statement
    has succeeded or failed and which reads the clock as [now]. *)
Inductive Op :=
| Connection (ws : WebSocket)
| Message (ws : WebSocket) (message : ClientMessage)
| Close (ws : WebSocket)
| Transport (ws : WebSocket) (rs : ReadyState)
| CallStartAudit (userId : Z) (jobType : string) (jobId : option Z) (startedAt : Z)
| CallLogEvent (auditLogId : Z) (eventType : AuditEventType) (eventData : AuditEventData)
    (now : Z)
| CallCompleteAudit (auditLogId : Z) (success : bool) (finalOutputPreview : option string)
    (actualWords targetWords : option Z) (now : Z)
| Resume (i : nat) (db_ok : bool) (now : Z).

Definition set_readyState (ws : WebSocket) (rs : ReadyState) : M unit :=
  modify (λ s, set_sockets (upd (sockets s) ws
            {| readyState := rs; outbox := outbox (sockets s ws) |}) s).

(** Resuming a suspended call: it runs to its next [await] or to its
    end. *)
Definition resume (t : Task) (db_ok : bool) (now : Z) (s : State) : State * list Task :=
  match t with
  | AwaitInsertLog userId jobType jobId startedAt =>
      match startAudit_register userId jobType jobId startedAt db_ok now s with
      | (Ok p, s') => (s', [AwaitInsertEntry (snd p) (FromStartAudit (fst p))])
      | (Throw, s') => (s', [])
      end
  | AwaitInsertEntry fr k =>
      match logEvent_resume fr db_ok s with
      | (Ok _, s') =>
          match k with
          | FromCompleteAudit auditLogId success finalOutputPreview =>
              (s', [AwaitUpdateLog auditLogId success finalOutputPreview now])
          | FromStartAudit _ | FromOutside => (s', [])
          end
      | (Throw, s') => (s', [])
      end
  | AwaitUpdateLog auditLogId success finalOutputPreview completedAt =>
      (exec (completeAudit_finish auditLogId success finalOutputPreview completedAt db_ok) s,
       [])
  | AwaitSelectEntries ws auditLogId =>
      (exec (on_message_history ws auditLogId db_ok) s, [])
  end.

Definition step (o : Op) (y : Sys) : Sys :=
  match o with
  | Connection ws => {| st := exec (on_connection ws) (st y); pool := pool y |}
  | Message ws message =>
      match on_message ws message (st y) with
      | (Ok (Some auditLogId), s') =>
          {| st := s'; pool := pool y ++ [AwaitSelectEntries ws auditLogId] |}
      | (_, s') => {| st := s'; pool := pool y |}
      end
  | Close ws =>
      {| st := exec (set_readyState ws CLOSED;; on_close ws) (st y); pool := pool y |}
  | Transport ws rs => {| st := exec (set_readyState ws rs) (st y); pool := pool y |}
  | CallStartAudit userId jobType jobId startedAt =>
      {| st := st y; pool := pool y ++ [AwaitInsertLog userId jobType jobId startedAt] |}
  | CallLogEvent auditLogId eventType eventData now =>
      match logEvent_begin auditLogId eventType eventData now (st y) with
      | (Ok fr, s') => {| st := s'; pool := pool y ++ [AwaitInsertEntry fr FromOutside] |}
      | (Throw, s') => {| st := s'; pool := pool y |}
      end
  | CallCompleteAudit auditLogId success finalOutputPreview actualWords targetWords now =>
      match completeAudit_begin auditLogId success actualWords targetWords now (st y) with
      | (Ok fr, s') =>
          {| st := s';
             pool := pool y ++
               [AwaitInsertEntry fr (FromCompleteAudit auditLogId success finalOutputPreview)] |}
      | (Throw, s') => {| st := s'; pool := pool y |}
      end
  | Resume i db_ok now =>
      match pool y !! i with
      | Some t =>
          let '(s', ts) := resume t db_ok now (st y) in
          {| st := s'; pool := delete i (pool y) ++ ts |}
      | None => y
      end
  end.

Definition run (ops : list Op) (y : Sys) : Sys := fold_left (λ y o, step o y) ops y.

(** The service at its first start, on a fresh database: empty maps,
    empty tables, the serial key at 1.  The tables outlive the process;
    what is stated of their contents is stated from any state. *)
Definition no_audit : ActiveAudit :=
  {| auditLogId := 0; userId := 0; jobType := ""%string; jobId := None;
     sequenceCounter := 0; subscribers := []; entries := [] |}.

Definition init_state : State :=
  {| activeAudits := ∅; clientConnections := ∅;
     heap := λ _, no_audit; nextRef := 0%nat;
     sockets := λ _, {| readyState := CLOSED; outbox := [] |};
     db := {| auditLogs := []; auditLogEntries := []; nextAuditLogId := 1 |} |}.

Definition init : Sys := {| st := init_state; pool := [] |}.

(** ** Awaited use

    A client that awaits every call, one call at a time: each exported
    function and each handler runs to its end before the next one
    starts. *)
Inductive AwaitedOp :=
| AConnection (ws : WebSocket)
| AMessage (ws : WebSocket) (message : ClientMessage) (db_ok : bool)
| AClose (ws : WebSocket)
| ATransport (ws : WebSocket) (rs : ReadyState)
| AStartAudit (userId : Z) (jobType : string) (jobId : option Z) (startedAt now : Z)
    (db_ok1 db_ok2 : bool)
| ALogEvent (auditLogId : Z) (eventType : AuditEventType) (eventData : AuditEventData)
    (now : Z) (db_ok : bool)
| ACompleteAudit (auditLogId : Z) (success : bool) (finalOutputPreview : option string)
    (actualWords targetWords : option Z) (now completedAt : Z) (db_ok1 db_ok2 : bool).

Definition awaited (o : AwaitedOp) (s : State) : State :=
  match o with
  | AConnection ws => exec (on_connection ws) s
  | AMessage ws message db_ok =>
      exec (let* h := on_message ws message in
            match h with
            | Some auditLogId => on_message_history ws auditLogId db_ok
            | None => ret tt
            end) s
  | AClose ws => exec (set_readyState ws CLOSED;; on_close ws) s
  | ATransport ws rs => exec (set_readyState ws rs) s
  | AStartAudit userId jobType jobId startedAt now db_ok1 db_ok2 =>
      exec (startAudit userId jobType jobId startedAt now db_ok1 db_ok2) s
  | ALogEvent auditLogId eventType eventData now db_ok =>
      exec (logEvent auditLogId eventType eventData now db_ok) s
  | ACompleteAudit auditLogId success finalOutputPreview actualWords targetWords
      now completedAt db_ok1 db_ok2 =>
      exec (completeAudit auditLogId success finalOutputPreview actualWords targetWords
              now completedAt db_ok1 db_ok2) s
  end.

Definition run_awaited (ops : list AwaitedOp) (s : State) : State :=
  fold_left (λ s o, awaited o s) ops s.

(** ** The listing queries *)

(** [ORDER BY startedAt DESC]: an insertion sort on the start time, the
    latest first, which keeps rows of equal start time in table order. *)
Fixpoint insert_by_startedAt (r : AuditLogRow) (l : list AuditLogRow) : list AuditLogRow :=
  match l with
  | [] => [r]
  | x :: l' => if log_startedAt x <? log_startedAt r
               then r :: x :: l' else x :: insert_by_startedAt r l'
  end.

Definition order_by_startedAt_desc (l : list AuditLogRow) : list AuditLogRow :=
  fold_left (λ acc r, insert_by_startedAt r acc) l [].

(** The query of [getUserAuditLogs] on a database snapshot.  [LIMIT]
    takes a row count; with any other number the statement fails. *)
Definition select_user_logs (userId : Z) (limit : nat) (d : Db) : list AuditLogRow :=
  take limit (order_by_startedAt_desc (filter (λ r, log_userId r = userId) (auditLogs d))).

(** [getUserAuditLogs(userId, limit = 50)] *)
Definition getUserAuditLogs (userId : Z) (limit : option nat) (db_ok : bool)
  : M (list AuditLogRow) :=
  if db_ok then gets (λ s, select_user_logs userId (default 50%nat limit) (db s))
  else throw.

(** [getActiveAuditForJob]: the first session of the listing whose
    [jobId] is the job.  [Array.from(activeAudits.entries())] lists the
    registry in the order in which the sessions were registered, which
    the state does not record: [listing] is that array, of session ids
    and the objects registered for them. *)
Fixpoint first_for_job (job : Z) (entries : list (Z * ActiveAudit)) : option Z :=
  match entries with
  | [] => None
  | (auditLogId, audit) :: entries' =>
      if bool_decide (jobId audit = Some job) then Some auditLogId
      else first_for_job job entries'
  end.

Definition getActiveAuditForJob (listing : list (Z * Ref)) (job : Z) : M (option Z) :=
  gets (λ s, first_for_job job (map (λ p, (p.1, heap s p.2)) listing)).

(** ** The job history page

    [formatMode] of [JobHistoryPage], the one function of the page that
    computes on data: [mode.replace(/-/g, ' ')] and then
    [.replace(/\b\w/g, c => c.toUpperCase())]. *)

From Stdlib Require Import Ascii.

(** [\w]: an ASCII letter, a digit or the underscore. *)
Definition is_word (c : ascii) : bool :=
  let n := nat_of_ascii c in
  ((48 <=? n)%nat && (n <=? 57)%nat) || ((65 <=? n)%nat && (n <=? 90)%nat)
  || (n =? 95)%nat || ((97 <=? n)%nat && (n <=? 122)%nat).

(** [c.toUpperCase()] on a character that [\w] matches. *)
Definition to_upper (c : ascii) : ascii :=
  let n := nat_of_ascii c in
  if (97 <=? n)%nat && (n <=? 122)%nat then ascii_of_nat (n - 32) else c.

(** [replace(/-/g, ' ')] *)
Fixpoint replace_hyphens (s : string) : string :=
  match s with
  | EmptyString => EmptyString
  | String c s' =>
      String (if Ascii.eqb c "-" then " "%char else c) (replace_hyphens s')
  end.

(** [replace(/\b\w/g, c => c.toUpperCase())]: [\b\w] matches a word
    character at the start of the string or after a character that is
    not a word character; [boundary] tells whether the scan is at such a
    place. *)
Fixpoint capitalize_words (boundary : bool) (s : string) : string :=
  match s with
  | EmptyString => EmptyString
  | String c s' =>
      String (if boundary && is_word c then to_upper c else c)
             (capitalize_words (negb (is_word c)) s')
  end.

Definition formatMode (mode : string) : string :=
  capitalize_words true (replace_hyphens mode).

(** * Vocabulary of the properties *)

(** The effect of one guarded send on the socket store. *)
Definition deliver1 (msg : ServerMessage) (k : WebSocket → Socket) (ws : WebSocket)
  : WebSocket → Socket :=
  match readyState (k ws) with
  | OPEN => upd k ws {| readyState := OPEN; outbox := outbox (k ws) ++ [msg] |}
  | _ => k
  end.

(** The effect of a fan-out of [msg] to [subs]. *)
Fixpoint deliver (msg : ServerMessage) (subs : list WebSocket) (k : WebSocket → Socket)
  : WebSocket → Socket :=
  match subs with
  | [] => k
  | ws :: subs' => deliver msg subs' (deliver1 msg k ws)
  end.

(** The durable insert of [logEvent], with its [try]/[catch]. *)
Definition persist (row : AuditLogEntryRow) (db_ok : bool) (s : State) : State :=
  if db_ok then
    set_db {| auditLogs := auditLogs (db s);
              auditLogEntries := auditLogEntries (db s) ++ [row];
              nextAuditLogId := nextAuditLogId (db s) |} s
  else s.

(** [audit.entries.push(entry)] *)
Definition push (r : Ref) (entry : AuditLogEntry) (s : State) : State :=
  set_heap (upd (heap s) r (set_entries (entries (heap s r) ++ [entry]) (heap s r))) s.

(** The fan-out of [broadcastEntry]. *)
Definition publish (auditLogId : Z) (entry : AuditLogEntry) (s : State) : State :=
  match activeAudits s !! auditLogId with
  | Some r => set_sockets (deliver (MsgEntry auditLogId entry)
                             (subscribers (heap s r)) (sockets s)) s
  | None => s
  end.

(** [++audit.sequenceCounter] *)
Definition stamp (r : Ref) (s : State) : State :=
  set_heap (upd (heap s) r
              (set_sequenceCounter (sequenceCounter (heap s r) + 1) (heap s r))) s.

Definition frame_of (auditLogId : Z) (audit : option Ref) (n : Z)
    (eventType : AuditEventType) (eventData : AuditEventData) (now : Z) : LogEventFrame :=
  {| fr_auditLogId := auditLogId; fr_audit := audit;
     fr_entry := {| sequenceNum := n; timestamp := now;
                    eventType := eventType; eventData := eventData |};
     fr_insertData := {| row_auditLogId := auditLogId; row_sequenceNum := n;
                         row_timestamp := now; row_eventType := eventType;
                         row_eventData := eventData |} |}.

(** A running session with one subscriber: session 1 has been started
    for a reconstruction job, and socket 5 has connected and subscribed. *)
Definition demo_session : Sys :=
  run [CallStartAudit 7 "reconstruction" None 100; Resume 0 true 101; Resume 0 true 102;
       Connection 5; Message 5 (CSubscribe 1)] init.

(** Rows in ascending order of sequence number. *)
Definition seq_le (x y : AuditLogEntryRow) : Prop :=
  row_sequenceNum x ≤ row_sequenceNum y.

Definition ascending (l : list AuditLogEntryRow) : Prop := StronglySorted seq_le l.

(** The rows of the [auditLogEntries] table that belong to a session, in
    table order, and how many of them have a given type. *)
Definition rows_of (id : Z) (d : Db) : list AuditLogEntryRow :=
  filter (λ r, row_auditLogId r = id) (auditLogEntries d).

Definition events_of_type (id : Z) (t : AuditEventType) (d : Db) : Z :=
  Z.of_nat (length (filter (λ r, row_eventType r = t) (rows_of id d))).

(** The effect of sending the messages of [l], each to its socket, one
    after the other with [ws_send]: the socket store afterwards, and
    whether every send returned. *)
Fixpoint send_all (l : list (WebSocket * ServerMessage)) (k : WebSocket → Socket)
  : bool * (WebSocket → Socket) :=
  match l with
  | [] => (true, k)
  | (ws, msg) :: l' =>
      match readyState (k ws) with
      | CONNECTING => (false, k)
      | OPEN => send_all l' (upd k ws {| readyState := OPEN;
                                         outbox := outbox (k ws) ++ [msg] |})
      | CLOSING | CLOSED => send_all l' k
      end
  end.

Definition Res_of_bool (b : bool) : Res unit := if b then Ok tt else Throw.

(** The entries of the [entry] messages for session [id] in a list of
    messages, in order, and those a socket has been sent. *)
Definition entries_for (id : Z) (l : list ServerMessage) : list AuditLogEntry :=
  omap (λ m, match m with
             | MsgEntry i e => if bool_decide (i = id) then Some e else None
             | _ => None
             end) l.

Definition received (id : Z) (ws : WebSocket) (s : State) : list AuditLogEntry :=
  entries_for id (outbox (sockets s ws)).

(** The messages of the [subscribe] branch. *)
Definition replay (ws : WebSocket) (id : Z) (s : State) : list (WebSocket * ServerMessage) :=
  match activeAudits s !! id with
  | Some r => map (λ e, (ws, MsgEntry id e)) (entries (heap s r))
  | None => []
  end ++ [(ws, MsgSubscribed id)].

(** The registration of the [subscribe] branch. *)
Definition subscribed (ws : WebSocket) (id : Z) (s : State) : State :=
  let s1 := set_clientConnections (<[ws := Some id]> (clientConnections s)) s in
  match activeAudits s !! id with
  | Some r => set_heap (upd (heap s) r
                (set_subscribers (Set_add ws (subscribers (heap s r))) (heap s r))) s1
  | None => s1
  end.

(** The removal of the [close] handler. *)
Definition unsubscribed (ws : WebSocket) (s : State) : State :=
  match clientConnections s !! ws with
  | Some (Some id) =>
      match activeAudits s !! id with
      | Some r => set_heap (upd (heap s) r
                    (set_subscribers (Set_delete ws (subscribers (heap s r))) (heap s r))) s
      | None => s
      end
  | _ => s
  end.

(** The terminal notifications of [completeAudit]. *)
Definition notifications (id : Z) (success : bool) (s : State)
  : list (WebSocket * ServerMessage) :=
  match activeAudits s !! id with
  | Some r => map (λ ws, (ws, MsgCompleted id success
                                (Z.of_nat (length (entries (heap s r))))))
                (subscribers (heap s r))
  | None => []
  end.

(** The durable status update of [completeAudit], with its
    [try]/[catch]. *)
Definition persist_status (id : Z) (success : bool) (preview : option string)
    (completedAt : Z) (db_ok : bool) (s : State) : State :=
  if db_ok then
    set_db {| auditLogs := map (update_row id completedAt
                                  (if success then completed else failed)
                                  (option_map (λ p, js_substring p 0 500) preview))
                             (auditLogs (db s));
              auditLogEntries := auditLogEntries (db s);
              nextAuditLogId := nextAuditLogId (db s) |} s
  else s.

(** The registration of [startAudit]: the new row, the new object and
    its entry in the registry. *)
Definition registered (userId : Z) (jobType : string) (jobId : option Z)
    (startedAt : Z) (s : State) : State :=
  let id := nextAuditLogId (db s) in
  set_activeAudits (<[id := nextRef s]> (activeAudits s))
    (set_nextRef (S (nextRef s))
       (set_heap (upd (heap s) (nextRef s)
                    {| auditLogId := id; userId := userId; jobType := jobType;
                       jobId := jobId; sequenceCounter := 0;
                       subscribers := []; entries := [] |})
          (set_db {| auditLogs := auditLogs (db s) ++
                       [{| log_id := id; log_userId := userId; log_jobType := jobType;
                           log_jobId := jobId; log_startedAt := startedAt;
                           log_completedAt := None; log_status := running;
                           log_finalOutputPreview := None |}];
                     auditLogEntries := auditLogEntries (db s);
                     nextAuditLogId := id + 1 |} s))).

(** The socket is not among the subscribers of the session. *)
Definition not_subscribed (ws : WebSocket) (id : Z) (s : State) : Prop :=
  ∀ r, activeAudits s !! id = Some r → ws ∉ subscribers (heap s r).


(** The invariant of an [ActiveAudit] object: the counter is the length
    of the buffer, and the entry at index [i] has number [i + 1]. *)
Definition audit_inv (a : ActiveAudit) : Prop :=
  sequenceCounter a = Z.of_nat (length (entries a)) ∧
  ∀ (i : nat) e, entries a !! i = Some e → sequenceNum e = Z.of_nat i + 1.

Definition registry_inv (s : State) : Prop :=
  ∀ id r, activeAudits s !! id = Some r → audit_inv (heap s r).

(** Two [logEvent] calls on session 1 that overlap: the second call
    starts while the first is suspended at its insert, and its insert
    settles first. *)
Definition started : Sys :=
  run [CallStartAudit 7 "reconstruction" None 100; Resume 0 true 101; Resume 0 true 102] init.

Definition overlapped : Sys :=
  run [CallLogEvent 1 chunk_processed (DataChunkProcessed 0 10 10 10 true None None) 103;
       CallLogEvent 1 chunk_processed (DataChunkProcessed 1 10 10 10 true None None) 104;
       Resume 1 true 105;
       Resume 0 true 106] started.

(** A session that is started, completed, and then logged to once more. *)
Definition logged_after_completion : State :=
  run_awaited [AStartAudit 7 "reconstruction" None 100 101 true true;
               ACompleteAudit 1 true None None None 200 201 true true;
               ALogEvent 1 error (DataError "late" "m" "c" None false) 300 true]
    init_state.

(** ** Well-formed states of the event loop *)

(** The frames of the suspended [logEvent] calls. *)
Definition frames_of (ts : list Task) : list LogEventFrame :=
  omap (λ t, match t with AwaitInsertEntry fr _ => Some fr | _ => None end) ts.

(** The object a frame refers to has been created and belongs to the
    session of the frame. *)
Definition frames_ok (s : State) (frs : list LogEventFrame) : Prop :=
  ∀ fr r, fr ∈ frs → fr_audit fr = Some r →
          (r < nextRef s)%nat ∧ auditLogId (heap s r) = fr_auditLogId fr.

(** The registry maps a session to an object of that session; the
    objects created so far belong to different sessions, whose ids the
    database has handed out; a subscriber set has no duplicates. *)
Record state_ok (s : State) : Prop := {
  ok_registry : ∀ id r, activeAudits s !! id = Some r →
                        (r < nextRef s)%nat ∧ auditLogId (heap s r) = id;
  ok_ids : ∀ r r', (r < nextRef s)%nat → (r' < nextRef s)%nat →
                   auditLogId (heap s r) = auditLogId (heap s r') → r = r';
  ok_fresh : ∀ r, (r < nextRef s)%nat →
                  1 ≤ auditLogId (heap s r) < nextAuditLogId (db s);
  ok_serial : 1 ≤ nextAuditLogId (db s);
  ok_sets : ∀ r, NoDup (subscribers (heap s r))
}.

Definition wf (y : Sys) : Prop :=
  state_ok (st y) ∧ frames_ok (st y) (frames_of (pool y)).

(** The state only grows: objects are never dropped and keep their
    session. *)
Definition grows (s s' : State) : Prop :=
  (nextRef s ≤ nextRef s')%nat ∧
  ∀ r, (r < nextRef s)%nat → auditLogId (heap s' r) = auditLogId (heap s r).

(** The frame of the [logEvent] call that an operation starts, if it
    starts one: a call of [logEvent] or of [completeAudit], or the
    resumption of [startAudit] after its insert. *)
Definition assigned (o : Op) (y : Sys) : list LogEventFrame :=
  match o with
  | CallLogEvent auditLogId eventType eventData now =>
      match logEvent_begin auditLogId eventType eventData now (st y) with
      | (Ok fr, _) => [fr]
      | (Throw, _) => []
      end
  | CallCompleteAudit auditLogId success _ actualWords targetWords now =>
      match completeAudit_begin auditLogId success actualWords targetWords now (st y) with
      | (Ok fr, _) => [fr]
      | (Throw, _) => []
      end
  | Resume i db_ok now =>
      match pool y !! i with
      | Some (AwaitInsertLog userId jobType jobId startedAt) =>
          match startAudit_register userId jobType jobId startedAt db_ok now (st y) with
          | (Ok p, _) => [snd p]
          | (Throw, _) => []
          end
      | _ => []
      end
  | _ => []
  end.

(** The frames of all [logEvent] calls started along a run, in the order
    of the calls. *)
Fixpoint assigned_log (ops : list Op) (y : Sys) : list LogEventFrame :=
  match ops with
  | [] => []
  | o :: ops' => assigned o y ++ assigned_log ops' (step o y)
  end.

(** The [logEvent] call that an operation resumes, with the outcome of
    its insert. *)
Definition resumed (o : Op) (y : Sys) : list (LogEventFrame * bool) :=
  match o with
  | Resume i db_ok _ =>
      match pool y !! i with
      | Some (AwaitInsertEntry fr _) => [(fr, db_ok)]
      | _ => []
      end
  | _ => []
  end.

Fixpoint resumed_log (ops : list Op) (y : Sys) : list (LogEventFrame * bool) :=
  match ops with
  | [] => []
  | o :: ops' => resumed o y ++ resumed_log ops' (step o y)
  end.

(** The steps of the event loop, by what they do to the state. *)
Inductive trans :
  Op → Sys → Sys → list LogEventFrame → list (LogEventFrame * bool) → Prop :=
| trans_idle o y ts :
    frames_of ts = frames_of (pool y) →
    trans o y {| st := st y; pool := ts |} [] []
| trans_connection ws y :
    trans (Connection ws) y
      {| st := set_clientConnections (<[ws := None]> (clientConnections (st y)))
                 (set_sockets (upd (sockets (st y)) ws
                                 {| readyState := OPEN; outbox := [] |}) (st y));
         pool := pool y |} [] []
| trans_subscribe ws id y :
    truthy id = true →
    trans (Message ws (CSubscribe id)) y
      {| st := set_sockets (snd (send_all (replay ws id (st y)) (sockets (st y))))
                 (subscribed ws id (st y));
         pool := pool y |} [] []
| trans_close ws y :
    trans (Close ws) y
      {| st := let s1 := set_sockets (upd (sockets (st y)) ws
                           {| readyState := CLOSED;
                              outbox := outbox (sockets (st y) ws) |}) (st y) in
               set_clientConnections (delete ws (clientConnections s1)) (unsubscribed ws s1);
         pool := pool y |} [] []
| trans_transport ws rs y :
    trans (Transport ws rs) y
      {| st := set_sockets (upd (sockets (st y)) ws
                              {| readyState := rs;
                                 outbox := outbox (sockets (st y) ws) |}) (st y);
         pool := pool y |} [] []
| trans_begin o y id r ty d now k :
    activeAudits (st y) !! id = Some r →
    let fr := frame_of id (Some r) (sequenceCounter (heap (st y) r) + 1) ty d now in
    trans o y {| st := stamp r (st y); pool := pool y ++ [AwaitInsertEntry fr k] |} [fr] []
| trans_begin_unregistered o y id ty d now k :
    activeAudits (st y) !! id = None →
    let fr := frame_of id None 1 ty d now in
    trans o y {| st := st y; pool := pool y ++ [AwaitInsertEntry fr k] |} [fr] []
| trans_register i now y userId jobType jobId startedAt :
    pool y !! i = Some (AwaitInsertLog userId jobType jobId startedAt) →
    let id := nextAuditLogId (db (st y)) in
    let fr := frame_of id (Some (nextRef (st y))) 1 job_started
                (DataJobStarted jobType None None) now in
    trans (Resume i true now) y
      {| st := stamp (nextRef (st y)) (registered userId jobType jobId startedAt (st y));
         pool := delete i (pool y) ++ [AwaitInsertEntry fr (FromStartAudit id)] |} [fr] []
| trans_resume i db_ok now y fr k ts :
    pool y !! i = Some (AwaitInsertEntry fr k) →
    frames_of ts = [] →
    trans (Resume i db_ok now) y
      {| st := match fr_audit fr with
               | Some r => publish (fr_auditLogId fr) (fr_entry fr)
                             (push r (fr_entry fr)
                                (persist (fr_insertData fr) db_ok (st y)))
               | None => persist (fr_insertData fr) db_ok (st y)
               end;
         pool := delete i (pool y) ++ ts |} [] [(fr, db_ok)]
| trans_finish i db_ok now y id success preview completedAt (unregister : bool) :
    pool y !! i = Some (AwaitUpdateLog id success preview completedAt) →
    let s1 := set_sockets (snd (send_all (notifications id success (st y))
                                  (sockets (st y))))
                (persist_status id success preview completedAt db_ok (st y)) in
    trans (Resume i db_ok now) y
      {| st := if unregister
               then set_activeAudits (delete id (activeAudits (st y))) s1 else s1;
         pool := delete i (pool y) |} [] []
| trans_history i db_ok now y ws id :
    pool y !! i = Some (AwaitSelectEntries ws id) →
    trans (Resume i db_ok now) y
      {| st := set_sockets (snd (send_all [(ws, MsgHistory id (select_entries id (db (st y))))]
                                   (sockets (st y)))) (st y);
         pool := delete i (pool y) |} [] [].

(** The [logEvent] calls of a log that found a given object, those made
    for session [id] while an object was registered for it, and the
    numbers the calls of a log took. *)
Definition calls_on_object (r : Ref) (log : list LogEventFrame) : list LogEventFrame :=
  filter (λ fr, fr_audit fr = Some r) log.

Definition calls_on (id : Z) (log : list LogEventFrame) : list LogEventFrame :=
  filter (λ fr, fr_auditLogId fr = id ∧ is_Some (fr_audit fr)) log.

Definition calls_for (id : Z) (log : list LogEventFrame) : list LogEventFrame :=
  filter (λ fr, fr_auditLogId fr = id) log.

Definition numbers (log : list LogEventFrame) : list Z :=
  map (λ fr, sequenceNum (fr_entry fr)) log.

(** A frame as [logEvent] builds it: the row carries the number of the
    entry, and a call that found no object has number 1. *)
Definition frame_wf (fr : LogEventFrame) : Prop :=
  row_sequenceNum (fr_insertData fr) = sequenceNum (fr_entry fr) ∧
  row_auditLogId (fr_insertData fr) = fr_auditLogId fr ∧
  (fr_audit fr = None → sequenceNum (fr_entry fr) = 1).

(** The counter of every object is the number of calls that found it,
    and these calls took the numbers 1, 2, 3, ... in their order. *)
Definition log_inv (s : State) (log : list LogEventFrame) : Prop :=
  frames_ok s log ∧ Forall frame_wf log ∧
  ∀ r, (r < nextRef s)%nat →
       sequenceCounter (heap s r) = Z.of_nat (length (calls_on_object r log)) ∧
       numbers (calls_on_object r log) =
         seqZ 1 (Z.of_nat (length (calls_on_object r log))).

(** Session 1 is started and completed, and [logEvent] is called for it
    once more. *)
Definition completed_then_logged : list Op :=
  [CallStartAudit 7 "reconstruction" None 100; Resume 0 true 101; Resume 0 true 102;
   CallCompleteAudit 1 true None None None 200; Resume 0 true 201; Resume 0 true 202;
   CallLogEvent 1 error (DataError "late" "m" "c" None false) 300].

(** ** A subscription *)

(** What the subscriber [ws] of session [id] leaves to the others: it
    does not subscribe to [id] again, and its socket is neither closed
    nor replaced nor moved to another [readyState]. *)
Definition quiet (ws : WebSocket) (id : Z) (o : Op) : Prop :=
  match o with
  | Message ws' (CSubscribe id') => ¬ (ws' = ws ∧ id' = id)
  | Connection ws' | Close ws' | Transport ws' _ => ws' ≠ ws
  | _ => True
  end.

(** While the session stays registered with object [r]: the socket is a
    subscriber, it is open, and the entries it has been sent for the
    session are those it had before, [pre], followed by the buffer, which
    extends the buffer [buffered] of the time of subscription. *)
Definition sub_inv (ws : WebSocket) (id : Z) (r : Ref)
    (pre buffered : list AuditLogEntry) (s : State) : Prop :=
  activeAudits s !! id = Some r →
  ws ∈ subscribers (heap s r) ∧
  readyState (sockets s ws) = OPEN ∧
  received id ws s = pre ++ entries (heap s r) ∧
  buffered `prefix_of` entries (heap s r).

(** A late join: session 1 is started and logs chunk 0 and chunk 1,
    socket 5 connects; after it has subscribed, chunk 2 is logged. *)
Definition before_join : list Op :=
  [CallStartAudit 7 "reconstruction" None 100; Resume 0 true 101; Resume 0 true 102;
   CallLogEvent 1 chunk_processed (DataChunkProcessed 0 10 10 10 true None None) 103;
   Resume 0 true 104;
   CallLogEvent 1 chunk_processed (DataChunkProcessed 1 10 10 10 true None None) 105;
   Resume 0 true 106;
   Connection 5].

Definition after_join : list Op :=
  [CallLogEvent 1 chunk_processed (DataChunkProcessed 2 10 10 10 true None None) 107;
   Resume 0 true 108].

(** ** Calls that do not overlap *)

Definition entries_numbered (l : list AuditLogEntry) : Prop :=
  ∀ (i : nat) e, l !! i = Some e → sequenceNum e = Z.of_nat i + 1.

(** The suspended [logEvent] calls that hold object [r]. *)
Definition pending_on (r : Ref) (ts : list Task) : list LogEventFrame :=
  calls_on_object r (frames_of ts).

(** No [logEvent] call starts on an object while another call on that
    object is suspended at its insert. *)
Fixpoint no_overlap (ops : list Op) (y : Sys) : bool :=
  match ops with
  | [] => true
  | o :: ops' =>
      forallb (λ fr, match fr_audit fr with
                     | Some r => match pending_on r (pool y) with
                                 | [] => true
                                 | _ => false
                                 end
                     | None => true
                     end) (assigned o y)
      && no_overlap ops' (step o y)
  end.

(** The state of the buffer of object [r]: the invariant when no call
    is suspended on it; with one call suspended, the counter is one ahead
    of the buffer and is the number the call has taken. *)
Definition buffer_state (y : Sys) (r : Ref) : Prop :=
  match pending_on r (pool y) with
  | [] => audit_inv (heap (st y) r)
  | [fr] => sequenceNum (fr_entry fr) = sequenceCounter (heap (st y) r) ∧
            sequenceCounter (heap (st y) r) =
              Z.of_nat (length (entries (heap (st y) r))) + 1 ∧
            entries_numbered (entries (heap (st y) r))
  | _ => False
  end.


(** Two sessions whose calls interleave, and a subscriber, with no two
    calls of one session overlapping. *)
Definition two_sessions : list Op :=
  [CallStartAudit 7 "reconstruction" None 100; Resume 0 true 101; Resume 0 true 102;
   CallStartAudit 8 "coherence" (Some 3) 110; Resume 0 true 111;
   CallLogEvent 1 chunk_processed (DataChunkProcessed 0 10 10 10 true None None) 112;
   Connection 5; Message 5 (CSubscribe 1);
   Resume 0 true 113;
   CallLogEvent 2 error (DataError "E" "m" "c" None true) 114;
   Resume 0 true 115;
   Resume 0 false 116;
   CallLogEvent 1 chunk_processed (DataChunkProcessed 1 10 10 10 true None None) 117;
   Resume 0 true 118].

(** ** Calls that are persisted *)

(** The rows written by the [logEvent] calls that have returned: one for
    each call whose insert succeeded, in the order of their return. *)
Definition persisted (res : list (LogEventFrame * bool)) : list AuditLogEntryRow :=
  map fr_insertData (map fst (filter (λ p, p.2 = true) res)).

(** Every [logEvent] call made so far has returned or is suspended at
    its insert, and the table holds the rows of those that returned with
    a successful insert. *)
Definition persist_inv (y : Sys) (log : list LogEventFrame)
    (res : list (LogEventFrame * bool)) : Prop :=
  log ≡ₚ map fst res ++ frames_of (pool y) ∧
  auditLogEntries (db (st y)) = persisted res.

(** Along the run [ops] from [y], every [logEvent] call for session [id]
    was made while an [ActiveAudit] was registered for it, every such
    call that returned had a successful insert, and none is still
    suspended at the end. *)
Definition settled (id : Z) (ops : list Op) (y : Sys) : bool :=
  forallb (λ fr, bool_decide (fr_auditLogId fr = id → is_Some (fr_audit fr)))
          (assigned_log ops y)
  && forallb (λ p, bool_decide (fr_auditLogId p.1 = id → p.2 = true))
             (resumed_log ops y)
  && forallb (λ fr, bool_decide (fr_auditLogId fr ≠ id))
             (frames_of (pool (run ops y))).

(** ** The registry and the [auditLogs] table *)

(** What an [ActiveAudit] object and a row of [auditLogs] have from
    their creation. *)
Definition identity_of (a : ActiveAudit) : Z * Z * string * option Z :=
  (auditLogId a, userId a, jobType a, jobId a).

Definition row_identity (row : AuditLogRow) : Z * Z * string * option Z :=
  (log_id row, log_userId row, log_jobType row, log_jobId row).

(** The ids of the table are those the serial key has handed out, in
    that order, and every object created so far has its row. *)
Definition table_inv (s : State) : Prop :=
  map log_id (auditLogs (db s)) = seqZ 1 (nextAuditLogId (db s) - 1) ∧
  ∀ r, (r < nextRef s)%nat →
       ∃ row, row ∈ auditLogs (db s) ∧ row_identity row = identity_of (heap s r).

(** A listing of the registry: every registered session once, in some
    order. *)
Definition lists_registry (listing : list (Z * Ref)) (s : State) : Prop :=
  listing ≡ₚ map_to_list (activeAudits s).

(** Rows of [auditLogs] with the latest start first. *)
Definition started_ge (x y : AuditLogRow) : Prop :=
  log_startedAt y ≤ log_startedAt x.

Definition latest_first (l : list AuditLogRow) : Prop := StronglySorted started_ge l.

(** ** Sockets that have not subscribed *)

(** The operation is no subscription of the socket [ws] to session
    [id], and it does not replace the socket by a new connection. *)
Definition no_subscribe (ws : WebSocket) (id : Z) (o : Op) : Prop :=
  match o with
  | Message ws' (CSubscribe id') => ¬ (ws' = ws ∧ id' = id)
  | Connection ws' => ws' ≠ ws
  | _ => True
  end.

(** ** Reports and the events they count *)

(** The summary of the report of a session, when there is a report. *)
Definition report_summary (id : Z) (s : State) : option AuditSummary :=
  match result (getFullAuditReport id true true) s with
  | Ok (Some rep) => Some (rep_summary rep)
  | _ => None
  end.

(** A summary after one more event of type [ty]. *)
Definition counted (ty : AuditEventType) (m : AuditSummary) : AuditSummary :=
  let one (t : AuditEventType) : Z := if bool_decide (ty = t) then 1 else 0 in
  {| totalEvents := totalEvents m + 1;
     dbQueries := dbQueries m + one db_query;
     dbInserts := dbInserts m + one db_insert;
     dbUpdates := dbUpdates m + one db_update;
     llmCalls := llmCalls m + one llm_call;
     chunksProcessed := chunksProcessed m + one chunk_processed;
     errors := errors m + one error |}.

(** The six tallies of a summary. *)
Definition tallies (m : AuditSummary) : list Z :=
  [dbQueries m; dbInserts m; dbUpdates m; llmCalls m; chunksProcessed m; errors m].

(** ** The buffer, the calls in flight and the durable log *)

(** The buffer of every object holds the entries of the [logEvent]
    calls on it that have returned, in the order of their return. *)
Definition flight_inv (y : Sys) (res : list (LogEventFrame * bool)) : Prop :=
  ∀ r, (r < nextRef (st y))%nat →
       entries (heap (st y) r) = map fr_entry (calls_on_object r (map fst res)).

(** The row that [logEvent] writes for an entry of session [id]. *)
Definition row_of_entry (id : Z) (e : AuditLogEntry) : AuditLogEntryRow :=
  {| row_auditLogId := id; row_sequenceNum := sequenceNum e;
     row_timestamp := timestamp e; row_eventType := eventType e;
     row_eventData := eventData e |}.

Definition frame_row (fr : LogEventFrame) : Prop :=
  fr_insertData fr = row_of_entry (fr_auditLogId fr) (fr_entry fr).

(** The run that leads to [overlapped], from process start. *)
Definition overlapping : list Op :=
  [CallStartAudit 7 "reconstruction" None 100; Resume 0 true 101; Resume 0 true 102;
   CallLogEvent 1 chunk_processed (DataChunkProcessed 0 10 10 10 true None None) 103;
   CallLogEvent 1 chunk_processed (DataChunkProcessed 1 10 10 10 true None None) 104;
   Resume 1 true 105;
   Resume 0 true 106].

(** ** Closed sockets *)

(** The operation neither replaces the socket [ws] by a new connection
    nor moves its transport to another [readyState]. *)
Definition keeps_socket (ws : WebSocket) (o : Op) : Prop :=
  match o with
  | Connection ws' | Transport ws' _ => ws' ≠ ws
  | _ => True
  end.

(** No [logEvent] call starts on the object [r] while another call on
    [r] is suspended at its insert; calls on other objects may overlap. *)
Fixpoint no_overlap_on (r : Ref) (ops : list Op) (y : Sys) : bool :=
  match ops with
  | [] => true
  | o :: ops' =>
      forallb (λ fr, if bool_decide (fr_audit fr = Some r)
                     then match pending_on r (pool y) with
                          | [] => true
                          | _ => false
                          end
                     else true) (assigned o y)
      && no_overlap_on r ops' (step o y)
  end.

(** Two sessions: the calls on session 2 overlap and settle in the
    opposite order, those on session 1 do not overlap. *)
Definition mixed : list Op :=
  [CallStartAudit 7 "reconstruction" None 100; Resume 0 true 101; Resume 0 true 102;
   CallStartAudit 8 "coherence" (Some 3) 110; Resume 0 true 111; Resume 0 true 112;
   CallLogEvent 2 chunk_processed (DataChunkProcessed 0 10 10 10 true None None) 113;
   CallLogEvent 2 chunk_processed (DataChunkProcessed 1 10 10 10 true None None) 114;
   CallLogEvent 1 chunk_processed (DataChunkProcessed 0 10 10 10 true None None) 115;
   Resume 1 true 116;
   Resume 1 true 117;
   Resume 0 true 118;
   CallLogEvent 1 chunk_processed (DataChunkProcessed 1 10 10 10 true None None) 119;
   Resume 0 true 120].

(** The serial key of [auditLogs] is above the ids of the rows of the
    table.  Nothing is said of the distance: a failed insert may or may
    not have consumed values of the key. *)
Definition key_above_rows (d : Db) : Prop :=
  ∀ row, row ∈ auditLogs d → log_id row < nextAuditLogId d.


(** * Properties *)

(** ** Running computations *)

Lemma bind_ret {A B} (a : A) (f : A → M B) s : bind (ret a) f s = f a s.
Proof. done. Qed.

Lemma bind_gets {A B} (g : State → A) (f : A → M B) s : bind (gets g) f s = f (g s) s.
Proof. done. Qed.

Lemma bind_modify {B} (g : State → State) (f : unit → M B) s :
  bind (modify g) f s = f tt (g s).
Proof. done. Qed.

Lemma bind_throw {A B} (f : A → M B) s : bind throw f s = (Throw, s).
Proof. done. Qed.

Lemma bind_Ok {A B} (m : M A) (f : A → M B) s a s' :
  m s = (Ok a, s') → bind m f s = f a s'.
Proof. unfold bind. by intros ->. Qed.

Lemma bind_Throw {A B} (m : M A) (f : A → M B) s s' :
  m s = (Throw, s') → bind m f s = (Throw, s').
Proof. unfold bind. by intros ->. Qed.

Lemma bind_run {A B} (m : M A) (f : A → M B) s :
  bind m f s = match m s with
               | (Ok a, s') => f a s'
               | (Throw, s') => (Throw, s')
               end.
Proof. done. Qed.

Lemma bind_bind {A B C} (m : M A) (f : A → M B) (g : B → M C) s :
  bind (bind m f) g s = bind m (λ a, bind (f a) g) s.
Proof. unfold bind. destruct (m s) as [[a|] s']; done. Qed.

Ltac mstep :=
  repeat (first [rewrite bind_bind | rewrite bind_ret | rewrite bind_gets
                | rewrite bind_modify]; cbv beta).

Lemma forEach_cons {A} (x : A) l f s :
  forEach (x :: l) f s = bind (f x) (λ _, forEach l f) s.
Proof. done. Qed.

Lemma ws_send_OPEN ws msg s :
  readyState (sockets s ws) = OPEN →
  ws_send ws msg s =
  (Ok tt, set_sockets (upd (sockets s) ws
            {| readyState := OPEN; outbox := outbox (sockets s ws) ++ [msg] |}) s).
Proof. unfold ws_send. by intros ->. Qed.

Lemma ws_send_CONNECTING ws msg s :
  readyState (sockets s ws) = CONNECTING → ws_send ws msg s = (Throw, s).
Proof. unfold ws_send. by intros ->. Qed.

Lemma ws_send_closed ws msg s :
  readyState (sockets s ws) = CLOSING ∨ readyState (sockets s ws) = CLOSED →
  ws_send ws msg s = (Ok tt, s).
Proof. unfold ws_send. by intros [-> | ->]. Qed.

(** ** Sockets and fan-out *)

Lemma set_sockets_id s : set_sockets (sockets s) s = s.
Proof. by destruct s. Qed.

Lemma set_sockets_twice k k' s : set_sockets k (set_sockets k' s) = set_sockets k s.
Proof. done. Qed.

Lemma deliver1_readyState msg k ws ws' :
  readyState (deliver1 msg k ws ws') = readyState (k ws').
Proof.
  unfold deliver1. destruct (readyState (k ws)) eqn:E; try done.
  destruct (decide (ws' = ws)) as [->|Hne]; [by rewrite upd_eq | by rewrite upd_ne].
Qed.

Lemma deliver_readyState msg subs k ws :
  readyState (deliver msg subs k ws) = readyState (k ws).
Proof.
  revert k. induction subs as [|x subs IH]; intros k; [done|].
  cbn. rewrite IH. apply deliver1_readyState.
Qed.

Lemma deliver_not_in msg subs k ws :
  ws ∉ subs → deliver msg subs k ws = k ws.
Proof.
  revert k. induction subs as [|x subs IH]; intros k Hni; [done|].
  apply not_elem_of_cons in Hni as [Hne Hni]. cbn. rewrite IH by done.
  unfold deliver1. destruct (readyState (k x)); try done. by rewrite upd_ne.
Qed.

Lemma deliver_open msg subs k ws :
  NoDup subs → ws ∈ subs → readyState (k ws) = OPEN →
  outbox (deliver msg subs k ws) = outbox (k ws) ++ [msg].
Proof.
  revert k. induction subs as [|x subs IH]; intros k Hnd Hin Hop.
  - by apply elem_of_nil in Hin.
  - apply NoDup_cons in Hnd as [Hx Hnd]. cbn.
    apply elem_of_cons in Hin as [->|Hin].
    + rewrite deliver_not_in by done. unfold deliver1. rewrite Hop.
      by rewrite upd_eq.
    + rewrite IH; [|done|done|by rewrite deliver1_readyState].
      assert (ws ≠ x) by (intros ->; done).
      unfold deliver1. destruct (readyState (k x)); try done. by rewrite upd_ne.
Qed.

Lemma deliver_not_open msg subs k ws :
  readyState (k ws) ≠ OPEN → deliver msg subs k ws = k ws.
Proof.
  revert k. induction subs as [|x subs IH]; intros k Hno; [done|].
  cbn. rewrite IH by (by rewrite deliver1_readyState).
  unfold deliver1. destruct (readyState (k x)) eqn:E; try done.
  rewrite upd_ne; [done|]. intros ->. done.
Qed.

(** The loop of [broadcastEntry] never throws: it sends to open sockets
    only. *)
Lemma forEach_guarded_send msg subs s :
  forEach subs (λ ws,
    let* sk := gets (λ s, sockets s ws) in
    match readyState sk with
    | OPEN => ws_send ws msg
    | _ => ret tt
    end) s
  = (Ok tt, set_sockets (deliver msg subs (sockets s)) s).
Proof.
  revert s. induction subs as [|x subs IH]; intros s.
  - cbn. by rewrite set_sockets_id.
  - rewrite forEach_cons, bind_bind, bind_gets. cbn [deliver]. unfold deliver1.
    destruct (readyState (sockets s x)) eqn:E.
    + by rewrite bind_ret, IH.
    + erewrite bind_Ok by by apply ws_send_OPEN. by rewrite IH.
    + by rewrite bind_ret, IH.
    + by rewrite bind_ret, IH.
Qed.

Lemma broadcastEntry_spec auditLogId entry s :
  broadcastEntry auditLogId entry s =
  (Ok tt,
   match activeAudits s !! auditLogId with
   | Some r => set_sockets (deliver (MsgEntry auditLogId entry)
                              (subscribers (heap s r)) (sockets s)) s
   | None => s
   end).
Proof.
  unfold broadcastEntry, activeAudits_get, deref. rewrite bind_gets.
  destruct (activeAudits s !! auditLogId) as [r|]; [|done].
  rewrite bind_gets. apply forEach_guarded_send.
Qed.

(** ** What each segment does to the state *)

Lemma broadcastEntry_publish auditLogId entry s :
  broadcastEntry auditLogId entry s = (Ok tt, publish auditLogId entry s).
Proof. apply broadcastEntry_spec. Qed.

Lemma logEvent_begin_spec auditLogId eventType eventData now s :
  logEvent_begin auditLogId eventType eventData now s =
  match activeAudits s !! auditLogId with
  | Some r =>
      (Ok (frame_of auditLogId (Some r) (sequenceCounter (heap s r) + 1)
             eventType eventData now),
       stamp r s)
  | None => (Ok (frame_of auditLogId None 1 eventType eventData now), s)
  end.
Proof.
  unfold logEvent_begin, activeAudits_get. rewrite bind_gets.
  destruct (activeAudits s !! auditLogId) as [r|]; [|done].
  unfold assign, deref. rewrite bind_bind, bind_modify, bind_bind, bind_gets, !bind_ret.
  unfold frame_of, stamp. cbn. by rewrite upd_eq.
Qed.

Lemma insert_entry_caught row db_ok s :
  try_catch (db_insert_auditLogEntry row db_ok) console s = (Ok tt, persist row db_ok s).
Proof. unfold try_catch, db_insert_auditLogEntry, persist. by destruct db_ok. Qed.

Lemma logEvent_resume_spec fr db_ok s :
  logEvent_resume fr db_ok s =
  (Ok tt,
   match fr_audit fr with
   | Some r => publish (fr_auditLogId fr) (fr_entry fr)
                 (push r (fr_entry fr) (persist (fr_insertData fr) db_ok s))
   | None => persist (fr_insertData fr) db_ok s
   end).
Proof.
  unfold logEvent_resume.
  erewrite bind_Ok by apply insert_entry_caught.
  destruct (fr_audit fr) as [r|]; [|done].
  unfold assign. rewrite bind_modify. apply broadcastEntry_publish.
Qed.

Lemma logEvent_spec auditLogId eventType eventData now db_ok s :
  logEvent auditLogId eventType eventData now db_ok s =
  (Ok tt,
   match activeAudits s !! auditLogId with
   | Some r =>
       let fr := frame_of auditLogId (Some r) (sequenceCounter (heap s r) + 1)
                   eventType eventData now in
       publish auditLogId (fr_entry fr)
         (push r (fr_entry fr) (persist (fr_insertData fr) db_ok (stamp r s)))
   | None =>
       persist (fr_insertData (frame_of auditLogId None 1 eventType eventData now)) db_ok s
   end).
Proof.
  unfold logEvent. rewrite bind_run, logEvent_begin_spec.
  destruct (activeAudits s !! auditLogId) as [r|]; by rewrite logEvent_resume_spec.
Qed.

(** ** Strings *)

Lemma substring_0_length n s :
  String.length (String.substring 0 n s) = Nat.min n (String.length s).
Proof.
  revert s. induction n as [|n IH]; intros s.
  - by destruct s.
  - destruct s as [|c s]; [done|]. cbn. by rewrite IH.
Qed.

Lemma substring_0_all n s :
  (String.length s ≤ n)%nat → String.substring 0 n s = s.
Proof.
  revert s. induction n as [|n IH]; intros s Hlen.
  - destruct s; [done|]. cbn in Hlen. lia.
  - destruct s as [|c s]; [done|]. cbn in *. rewrite IH; [done|lia].
Qed.

Lemma substring_0_min n s :
  String.substring 0 (Nat.min n (String.length s)) s = String.substring 0 n s.
Proof.
  revert s. induction n as [|n IH]; intros s.
  - by destruct s.
  - destruct s as [|c s]; [done|]. cbn. by rewrite IH.
Qed.

Lemma js_substring_0 s n : js_substring s 0 n = String.substring 0 n s.
Proof.
  unfold js_substring. rewrite Nat.min_0_l, Nat.max_0_l, Nat.sub_0_r.
  apply substring_0_min.
Qed.

Lemma js_substring_0_length s n :
  (String.length (js_substring s 0 n) ≤ n)%nat.
Proof. rewrite js_substring_0, substring_0_length. lia. Qed.

(** ** The ordered select *)

Lemma insert_by_seq_perm r l : insert_by_seq r l ≡ₚ r :: l.
Proof.
  induction l as [|x l IH]; [done|]. cbn.
  destruct (row_sequenceNum r <? row_sequenceNum x); [done|].
  rewrite IH. apply Permutation_swap.
Qed.

Lemma insert_by_seq_ascending r l : ascending l → ascending (insert_by_seq r l).
Proof.
  unfold ascending. induction l as [|x l IH]; intros Hs.
  - cbn. by repeat constructor.
  - apply StronglySorted_inv in Hs as [Hl Hx]. cbn.
    destruct (Z.ltb_spec (row_sequenceNum r) (row_sequenceNum x)) as [Hlt|Hge].
    + constructor; [by constructor|]. constructor; [unfold seq_le; lia|].
      eapply Forall_impl; [exact Hx|]. unfold seq_le. intros y Hy. lia.
    + constructor; [by apply IH|].
      rewrite insert_by_seq_perm. constructor; [unfold seq_le; lia | done].
Qed.

(** A row whose number is not below any other goes last. *)
Lemma insert_by_seq_last r l :
  Forall (λ x, row_sequenceNum x ≤ row_sequenceNum r) l →
  insert_by_seq r l = l ++ [r].
Proof.
  induction l as [|x l IH]; intros Hall; [done|].
  apply Forall_cons in Hall as [Hx Hall]. cbn.
  destruct (Z.ltb_spec (row_sequenceNum r) (row_sequenceNum x)); [lia|].
  by rewrite IH.
Qed.

Lemma fold_insert_perm l acc :
  fold_left (λ acc r, insert_by_seq r acc) l acc ≡ₚ l ++ acc.
Proof.
  revert acc. induction l as [|x l IH]; intros acc; [done|].
  cbn. rewrite IH, insert_by_seq_perm. by rewrite Permutation_middle.
Qed.

Lemma fold_insert_ascending l acc :
  ascending acc → ascending (fold_left (λ acc r, insert_by_seq r acc) l acc).
Proof.
  revert acc. induction l as [|x l IH]; intros acc Hs; [done|].
  cbn. by apply IH, insert_by_seq_ascending.
Qed.

Lemma order_by_seq_perm l : order_by_seq l ≡ₚ l.
Proof. unfold order_by_seq. by rewrite fold_insert_perm, app_nil_r. Qed.

Lemma order_by_seq_ascending l : ascending (order_by_seq l).
Proof. apply fold_insert_ascending. constructor. Qed.

Lemma order_by_seq_snoc l r :
  order_by_seq (l ++ [r]) = insert_by_seq r (order_by_seq l).
Proof. unfold order_by_seq. by rewrite fold_left_app. Qed.

Lemma select_entries_perm id d : select_entries id d ≡ₚ rows_of id d.
Proof. apply order_by_seq_perm. Qed.

Lemma count_type_perm t l l' : l ≡ₚ l' → count_type t l = count_type t l'.
Proof. intros H. unfold count_type. by rewrite H. Qed.

(** ** Sends in sequence *)

Lemma forEach_send_all {A} (l : list A) (w : A → WebSocket) (m : A → ServerMessage) s :
  forEach l (λ x, ws_send (w x) (m x)) s =
  (Res_of_bool (fst (send_all (map (λ x, (w x, m x)) l) (sockets s))),
   set_sockets (snd (send_all (map (λ x, (w x, m x)) l) (sockets s))) s).
Proof.
  revert s. induction l as [|x l IH]; intros s.
  - cbn. by rewrite set_sockets_id.
  - rewrite forEach_cons, bind_run. cbn [map send_all]. unfold ws_send at 1.
    destruct (readyState (sockets s (w x))) eqn:E.
    + cbn. by rewrite set_sockets_id.
    + by rewrite IH.
    + by rewrite IH.
    + by rewrite IH.
Qed.

Lemma send_all_app l l' k :
  send_all (l ++ l') k =
  if fst (send_all l k) then send_all l' (snd (send_all l k)) else send_all l k.
Proof.
  revert k. induction l as [|[ws msg] l IH]; intros k; [done|].
  cbn. destruct (readyState (k ws)); try done; apply IH.
Qed.

Lemma send_all_readyState l k ws :
  readyState (snd (send_all l k) ws) = readyState (k ws).
Proof.
  revert k. induction l as [|[w msg] l IH]; intros k; [done|].
  cbn. destruct (readyState (k w)) eqn:E; try done; rewrite IH; try done.
  destruct (decide (ws = w)) as [->|Hne]; [by rewrite upd_eq | by rewrite upd_ne].
Qed.

(** No send throws unless its socket is still connecting. *)
Lemma send_all_ok l k :
  Forall (λ p, readyState (k p.1) ≠ CONNECTING) l → fst (send_all l k) = true.
Proof.
  revert k. induction l as [|[w msg] l IH]; intros k Hall; [done|].
  apply Forall_cons in Hall as [Hw Hall]. cbn in *.
  destruct (readyState (k w)) eqn:E; try done; apply IH; try done.
  eapply Forall_impl; [exact Hall|]. intros [w' m'] Hw'. cbn in *.
  destruct (decide (w' = w)) as [->|Hne]; [by rewrite upd_eq | by rewrite upd_ne].
Qed.

(** A socket that is not open, or not addressed, is left as it is. *)
Lemma send_all_not_open l k ws :
  readyState (k ws) ≠ OPEN → snd (send_all l k) ws = k ws.
Proof.
  revert k. induction l as [|[w msg] l IH]; intros k Hno; [done|].
  cbn. destruct (readyState (k w)) eqn:E; try done; try by apply IH.
  assert (ws ≠ w) by (intros ->; done).
  rewrite IH; rewrite upd_ne; done.
Qed.

Lemma send_all_other l k ws :
  Forall (λ p, p.1 ≠ ws) l → snd (send_all l k) ws = k ws.
Proof.
  revert k. induction l as [|[w msg] l IH]; intros k Hall; [done|].
  apply Forall_cons in Hall as [Hw Hall]. cbn in *.
  destruct (readyState (k w)) eqn:E; try done; try by apply IH.
  rewrite IH by done. by rewrite upd_ne.
Qed.

(** What an open socket is sent, in order. *)
Lemma send_all_outbox l k ws :
  readyState (k ws) = OPEN →
  fst (send_all l k) = true →
  outbox (snd (send_all l k) ws) =
  outbox (k ws) ++ omap (λ p, if bool_decide (p.1 = ws) then Some p.2 else None) l.
Proof.
  revert k. induction l as [|[w msg] l IH]; intros k Hop Hok.
  - cbn. by rewrite app_nil_r.
  - cbn in *. destruct (decide (w = ws)) as [->|Hne].
    + rewrite Hop in *. rewrite bool_decide_eq_true_2 by done.
      rewrite IH; rewrite ?upd_eq; try done. cbn [outbox]. by rewrite <- app_assoc.
    + rewrite bool_decide_eq_false_2 by done.
      destruct (readyState (k w)) eqn:E; try done; rewrite IH; try done.
      all: by rewrite upd_ne.
Qed.

(** Messages that are no [entry] message of session [id] leave the
    entries received for [id] as they are. *)
Lemma entries_for_app id l l' :
  entries_for id (l ++ l') = entries_for id l ++ entries_for id l'.
Proof. apply omap_app. Qed.

Lemma send_all_entries_for l k ws id :
  Forall (λ p, p.1 = ws → entries_for id [p.2] = []) l →
  entries_for id (outbox (snd (send_all l k) ws)) = entries_for id (outbox (k ws)).
Proof.
  revert k. induction l as [|[w msg] l IH]; intros k Hall; [done|].
  apply Forall_cons in Hall as [Hw Hall]. cbn [send_all].
  destruct (readyState (k w)) eqn:E; try done; rewrite IH; try done.
  destruct (decide (ws = w)) as [->|Hne]; [|by rewrite upd_ne].
  rewrite upd_eq. cbn [outbox]. rewrite entries_for_app.
  cbn [fst snd] in Hw. rewrite Hw by done. by rewrite app_nil_r.
Qed.

(** ** What the handlers and the lifecycle segments do to the state *)

Lemma on_subscribe_spec ws id s :
  on_subscribe ws id s =
  (Res_of_bool (fst (send_all (replay ws id s) (sockets s))),
   set_sockets (snd (send_all (replay ws id s) (sockets s))) (subscribed ws id s)).
Proof.
  unfold on_subscribe, activeAudits_get, replay, subscribed.
  mstep. cbn [activeAudits set_clientConnections].
  destruct (activeAudits s !! id) as [r|].
  - unfold assign, deref. mstep.
    cbn [heap set_heap set_clientConnections]. rewrite upd_eq. cbn [entries set_subscribers].
    rewrite bind_run, forEach_send_all. cbn [sockets set_heap set_clientConnections].
    rewrite send_all_app.
    destruct (send_all (map _ (entries (heap s r))) (sockets s)) as [[|] k'] eqn:E;
      cbn [fst snd Res_of_bool]; [|done].
    unfold ws_send. cbn [sockets set_sockets send_all].
    destruct (readyState (k' ws)); cbn; try done.
  - mstep. cbn [app]. unfold ws_send. cbn [sockets set_clientConnections send_all].
    destruct (readyState (sockets s ws)); done.
Qed.

Lemma on_message_spec ws message s :
  on_message ws message s =
  match message with
  | CSubscribe id =>
      (Ok None,
       if truthy id
       then set_sockets (snd (send_all (replay ws id s) (sockets s))) (subscribed ws id s)
       else s)
  | CGetHistory id => (Ok (if truthy id then Some id else None), s)
  | COther => (Ok None, s)
  end.
Proof.
  unfold on_message, try_catch. destruct message as [id|id|]; [| |done].
  - destruct (truthy id); [|done].
    rewrite bind_run, on_subscribe_spec.
    by destruct (fst (send_all (replay ws id s) (sockets s))).
  - by destruct (truthy id).
Qed.

Lemma on_message_history_spec ws id db_ok s :
  on_message_history ws id db_ok s =
  (Ok tt,
   if db_ok
   then set_sockets (snd (send_all [(ws, MsgHistory id (select_entries id (db s)))]
                            (sockets s))) s
   else s).
Proof.
  unfold on_message_history, try_catch. destruct db_ok; [|done].
  rewrite bind_gets. unfold ws_send. cbn [send_all].
  destruct (readyState (sockets s ws)); cbn; try done; by rewrite set_sockets_id.
Qed.

Lemma on_close_spec ws s :
  on_close ws s =
  (Ok tt, set_clientConnections (delete ws (clientConnections s)) (unsubscribed ws s)).
Proof.
  unfold on_close, unsubscribed, activeAudits_get. rewrite bind_gets.
  destruct (clientConnections s !! ws) as [[id|]|]; try done.
  mstep.
  destruct (activeAudits s !! id) as [r|]; done.
Qed.

Lemma startAudit_register_spec userId jobType jobId startedAt db_ok now s :
  startAudit_register userId jobType jobId startedAt db_ok now s =
  if db_ok then
    (Ok (nextAuditLogId (db s),
         frame_of (nextAuditLogId (db s)) (Some (nextRef s)) 1 job_started
           (DataJobStarted jobType None None) now),
     stamp (nextRef s) (registered userId jobType jobId startedAt s))
  else (Throw, s).
Proof.
  unfold startAudit_register, db_insert_auditLog. destruct db_ok; [|done].
  mstep.
  rewrite bind_run. unfold new_ActiveAudit at 1. cbn [nextRef heap set_db].
  mstep. rewrite bind_run, logEvent_begin_spec.
  cbn [activeAudits set_activeAudits]. rewrite lookup_insert_eq.
  cbn [heap set_activeAudits set_nextRef set_heap]. rewrite upd_eq. done.
Qed.

Lemma update_status_caught id (success : bool) preview completedAt db_ok s :
  try_catch
    (db_update_auditLog id completedAt (if success then completed else failed)
       (option_map (λ p, js_substring p 0 500) preview) db_ok)
    console s
  = (Ok tt, persist_status id success preview completedAt db_ok s).
Proof. unfold try_catch, db_update_auditLog, persist_status. by destruct db_ok. Qed.

Lemma forEach_notify r (g : ActiveAudit → ServerMessage) subs s :
  forEach subs (λ ws, let* a' := deref r in ws_send ws (g a')) s =
  (Res_of_bool (fst (send_all (map (λ ws, (ws, g (heap s r))) subs) (sockets s))),
   set_sockets (snd (send_all (map (λ ws, (ws, g (heap s r))) subs) (sockets s))) s).
Proof.
  revert s. induction subs as [|x subs IH]; intros s.
  - cbn. by rewrite set_sockets_id.
  - rewrite forEach_cons. unfold deref at 1. mstep. rewrite bind_run.
    cbn [map send_all]. unfold ws_send at 1.
    destruct (readyState (sockets s x)) eqn:E.
    + cbn. by rewrite set_sockets_id.
    + by rewrite IH.
    + by rewrite IH.
    + by rewrite IH.
Qed.

Lemma completeAudit_finish_spec id success preview completedAt db_ok s :
  completeAudit_finish id success preview completedAt db_ok s =
  let s1 := persist_status id success preview completedAt db_ok s in
  let res := send_all (notifications id success s) (sockets s) in
  if fst res
  then (Ok tt, set_activeAudits (delete id (activeAudits s)) (set_sockets (snd res) s1))
  else (Throw, set_sockets (snd res) s1).
Proof.
  unfold completeAudit_finish, activeAudits_get, notifications.
  erewrite bind_Ok by apply update_status_caught.
  mstep. cbn zeta.
  replace (activeAudits (persist_status id success preview completedAt db_ok s))
    with (activeAudits s) by (unfold persist_status; by destruct db_ok).
  destruct (activeAudits s !! id) as [r|].
  - unfold deref at 1. mstep. rewrite bind_run, forEach_notify.
    replace (heap (persist_status id success preview completedAt db_ok s))
      with (heap s) by (unfold persist_status; by destruct db_ok).
    replace (sockets (persist_status id success preview completedAt db_ok s))
      with (sockets s) by (unfold persist_status; by destruct db_ok).
    destruct (fst (send_all _ (sockets s))); cbn [Res_of_bool]; [|done].
    mstep. unfold console, ret. f_equal.
    unfold persist_status; by destruct db_ok.
  - mstep. cbn [send_all fst snd]. unfold console, ret. f_equal.
    unfold persist_status; by destruct db_ok.
Qed.

(** ** Frames: what the state transformers leave alone *)

Section frames.
Context (s : State).

Lemma persist_activeAudits row ok : activeAudits (persist row ok s) = activeAudits s.
Proof. unfold persist. by destruct ok. Qed.
Lemma persist_clientConnections row ok :
  clientConnections (persist row ok s) = clientConnections s.
Proof. unfold persist. by destruct ok. Qed.
Lemma persist_heap row ok : heap (persist row ok s) = heap s.
Proof. unfold persist. by destruct ok. Qed.
Lemma persist_nextRef row ok : nextRef (persist row ok s) = nextRef s.
Proof. unfold persist. by destruct ok. Qed.
Lemma persist_sockets row ok : sockets (persist row ok s) = sockets s.
Proof. unfold persist. by destruct ok. Qed.
Lemma persist_nextAuditLogId row ok :
  nextAuditLogId (db (persist row ok s)) = nextAuditLogId (db s).
Proof. unfold persist. by destruct ok. Qed.
Lemma persist_auditLogs row ok : auditLogs (db (persist row ok s)) = auditLogs (db s).
Proof. unfold persist. by destruct ok. Qed.
Lemma persist_auditLogEntries row ok :
  auditLogEntries (db (persist row ok s)) =
  auditLogEntries (db s) ++ (if ok then [row] else []).
Proof. unfold persist. destruct ok; cbn; [done|by rewrite app_nil_r]. Qed.

Lemma persist_status_activeAudits id (success : bool) preview at_ ok :
  activeAudits (persist_status id success preview at_ ok s) = activeAudits s.
Proof. unfold persist_status. by destruct ok. Qed.
Lemma persist_status_clientConnections id (success : bool) preview at_ ok :
  clientConnections (persist_status id success preview at_ ok s) = clientConnections s.
Proof. unfold persist_status. by destruct ok. Qed.
Lemma persist_status_heap id (success : bool) preview at_ ok :
  heap (persist_status id success preview at_ ok s) = heap s.
Proof. unfold persist_status. by destruct ok. Qed.
Lemma persist_status_nextRef id (success : bool) preview at_ ok :
  nextRef (persist_status id success preview at_ ok s) = nextRef s.
Proof. unfold persist_status. by destruct ok. Qed.
Lemma persist_status_sockets id (success : bool) preview at_ ok :
  sockets (persist_status id success preview at_ ok s) = sockets s.
Proof. unfold persist_status. by destruct ok. Qed.
Lemma persist_status_nextAuditLogId id (success : bool) preview at_ ok :
  nextAuditLogId (db (persist_status id success preview at_ ok s)) = nextAuditLogId (db s).
Proof. unfold persist_status. by destruct ok. Qed.
Lemma persist_status_auditLogEntries id (success : bool) preview at_ ok :
  auditLogEntries (db (persist_status id success preview at_ ok s)) =
  auditLogEntries (db s).
Proof. unfold persist_status. by destruct ok. Qed.

Lemma publish_activeAudits id e : activeAudits (publish id e s) = activeAudits s.
Proof. unfold publish. by destruct (activeAudits s !! id). Qed.
Lemma publish_clientConnections id e :
  clientConnections (publish id e s) = clientConnections s.
Proof. unfold publish. by destruct (activeAudits s !! id). Qed.
Lemma publish_heap id e : heap (publish id e s) = heap s.
Proof. unfold publish. by destruct (activeAudits s !! id). Qed.
Lemma publish_nextRef id e : nextRef (publish id e s) = nextRef s.
Proof. unfold publish. by destruct (activeAudits s !! id). Qed.
Lemma publish_db id e : db (publish id e s) = db s.
Proof. unfold publish. by destruct (activeAudits s !! id). Qed.
Lemma publish_readyState id e ws :
  readyState (sockets (publish id e s) ws) = readyState (sockets s ws).
Proof.
  unfold publish. destruct (activeAudits s !! id); [|done].
  apply deliver_readyState.
Qed.

Lemma subscribed_activeAudits ws id : activeAudits (subscribed ws id s) = activeAudits s.
Proof. unfold subscribed. by destruct (activeAudits s !! id). Qed.
Lemma subscribed_nextRef ws id : nextRef (subscribed ws id s) = nextRef s.
Proof. unfold subscribed. by destruct (activeAudits s !! id). Qed.
Lemma subscribed_sockets ws id : sockets (subscribed ws id s) = sockets s.
Proof. unfold subscribed. by destruct (activeAudits s !! id). Qed.
Lemma subscribed_db ws id : db (subscribed ws id s) = db s.
Proof. unfold subscribed. by destruct (activeAudits s !! id). Qed.

Lemma unsubscribed_activeAudits ws : activeAudits (unsubscribed ws s) = activeAudits s.
Proof.
  unfold unsubscribed. destruct (clientConnections s !! ws) as [[id|]|]; try done.
  by destruct (activeAudits s !! id).
Qed.
Lemma unsubscribed_nextRef ws : nextRef (unsubscribed ws s) = nextRef s.
Proof.
  unfold unsubscribed. destruct (clientConnections s !! ws) as [[id|]|]; try done.
  by destruct (activeAudits s !! id).
Qed.
Lemma unsubscribed_sockets ws : sockets (unsubscribed ws s) = sockets s.
Proof.
  unfold unsubscribed. destruct (clientConnections s !! ws) as [[id|]|]; try done.
  by destruct (activeAudits s !! id).
Qed.
Lemma unsubscribed_db ws : db (unsubscribed ws s) = db s.
Proof.
  unfold unsubscribed. destruct (clientConnections s !! ws) as [[id|]|]; try done.
  by destruct (activeAudits s !! id).
Qed.

Lemma stamp_activeAudits r : activeAudits (stamp r s) = activeAudits s.
Proof. done. Qed.
Lemma stamp_clientConnections r : clientConnections (stamp r s) = clientConnections s.
Proof. done. Qed.
Lemma stamp_nextRef r : nextRef (stamp r s) = nextRef s.
Proof. done. Qed.
Lemma stamp_sockets r : sockets (stamp r s) = sockets s.
Proof. done. Qed.
Lemma stamp_db r : db (stamp r s) = db s.
Proof. done. Qed.

Lemma push_activeAudits r e : activeAudits (push r e s) = activeAudits s.
Proof. done. Qed.
Lemma push_clientConnections r e : clientConnections (push r e s) = clientConnections s.
Proof. done. Qed.
Lemma push_nextRef r e : nextRef (push r e s) = nextRef s.
Proof. done. Qed.
Lemma push_sockets r e : sockets (push r e s) = sockets s.
Proof. done. Qed.
Lemma push_db r e : db (push r e s) = db s.
Proof. done. Qed.
End frames.

Create Rewrite HintDb frames.

#[local] Hint Rewrite persist_activeAudits persist_clientConnections persist_heap
  persist_nextRef persist_sockets persist_nextAuditLogId persist_auditLogs
  persist_status_activeAudits persist_status_clientConnections persist_status_heap
  persist_status_nextRef persist_status_sockets persist_status_nextAuditLogId
  persist_status_auditLogEntries
  publish_activeAudits publish_clientConnections publish_heap publish_nextRef publish_db
  publish_readyState
  subscribed_activeAudits subscribed_nextRef subscribed_sockets subscribed_db
  unsubscribed_activeAudits unsubscribed_nextRef unsubscribed_sockets unsubscribed_db
  stamp_activeAudits stamp_clientConnections stamp_nextRef stamp_sockets stamp_db
  push_activeAudits push_clientConnections push_nextRef push_sockets push_db
  : frames.

Ltac frames :=
  repeat (progress (cbn [activeAudits clientConnections heap nextRef sockets db
                         set_activeAudits set_clientConnections set_heap set_nextRef
                         set_sockets set_db registered st pool fst snd
                         fr_auditLogId fr_audit fr_entry fr_insertData frame_of]
                    || autorewrite with frames)).

Ltac sframes := repeat (frames; try intro); frames.

(** The objects after [subscribe] and [close]: only the subscriber set of
    one object changes, by one socket. *)
Lemma subscribed_heap ws id s r :
  heap (subscribed ws id s) r =
  if bool_decide (activeAudits s !! id = Some r)
  then set_subscribers (Set_add ws (subscribers (heap s r))) (heap s r)
  else heap s r.
Proof.
  unfold subscribed. destruct (activeAudits s !! id) as [r'|] eqn:E; cbn.
  - case_bool_decide as H.
    + injection H as ->. by rewrite upd_eq.
    + rewrite upd_ne; [done|]. intros ->. done.
  - by rewrite bool_decide_eq_false_2.
Qed.

Lemma unsubscribed_heap ws s r :
  heap (unsubscribed ws s) r = heap s r ∨
  heap (unsubscribed ws s) r =
    set_subscribers (Set_delete ws (subscribers (heap s r))) (heap s r).
Proof.
  unfold unsubscribed. destruct (clientConnections s !! ws) as [[id|]|]; try by left.
  destruct (activeAudits s !! id) as [r'|]; [|by left]. cbn.
  destruct (decide (r = r')) as [->|Hne]; [right; by rewrite upd_eq | left; by rewrite upd_ne].
Qed.

Lemma elem_of_Set_add ws ws' l : ws ∈ Set_add ws' l ↔ ws = ws' ∨ ws ∈ l.
Proof.
  unfold Set_add. case_bool_decide as H.
  - split; [by right|]. intros [->|]; done.
  - rewrite elem_of_app, list_elem_of_singleton. tauto.
Qed.

Lemma elem_of_Set_delete ws ws' l : ws ∈ Set_delete ws' l ↔ ws ≠ ws' ∧ ws ∈ l.
Proof. unfold Set_delete. by rewrite list_elem_of_filter. Qed.

Lemma NoDup_Set_add ws l : NoDup l → NoDup (Set_add ws l).
Proof.
  intros Hnd. unfold Set_add. case_bool_decide as H; [done|].
  apply NoDup_app. split; [done|]. split; [|apply NoDup_singleton].
  intros x Hx Hx'. apply list_elem_of_singleton in Hx' as ->. done.
Qed.

Lemma NoDup_Set_delete ws l : NoDup l → NoDup (Set_delete ws l).
Proof. apply NoDup_filter. Qed.

(** The objects after [stamp] and [push]. *)
Lemma stamp_subscribers r' s r : subscribers (heap (stamp r' s) r) = subscribers (heap s r).
Proof.
  cbn. destruct (decide (r = r')) as [->|Hne]; [by rewrite upd_eq | by rewrite upd_ne].
Qed.

Lemma stamp_entries r' s r : entries (heap (stamp r' s) r) = entries (heap s r).
Proof.
  cbn. destruct (decide (r = r')) as [->|Hne]; [by rewrite upd_eq | by rewrite upd_ne].
Qed.

Lemma stamp_auditLogId r' s r : auditLogId (heap (stamp r' s) r) = auditLogId (heap s r).
Proof.
  cbn. destruct (decide (r = r')) as [->|Hne]; [by rewrite upd_eq | by rewrite upd_ne].
Qed.

Lemma stamp_sequenceCounter r' s r :
  sequenceCounter (heap (stamp r' s) r) =
  if bool_decide (r = r') then sequenceCounter (heap s r) + 1 else sequenceCounter (heap s r).
Proof.
  cbn. case_bool_decide as H; [subst; by rewrite upd_eq | by rewrite upd_ne].
Qed.

Lemma push_subscribers r' e s r : subscribers (heap (push r' e s) r) = subscribers (heap s r).
Proof.
  cbn. destruct (decide (r = r')) as [->|Hne]; [by rewrite upd_eq | by rewrite upd_ne].
Qed.

Lemma push_auditLogId r' e s r : auditLogId (heap (push r' e s) r) = auditLogId (heap s r).
Proof.
  cbn. destruct (decide (r = r')) as [->|Hne]; [by rewrite upd_eq | by rewrite upd_ne].
Qed.

Lemma push_sequenceCounter r' e s r :
  sequenceCounter (heap (push r' e s) r) = sequenceCounter (heap s r).
Proof.
  cbn. destruct (decide (r = r')) as [->|Hne]; [by rewrite upd_eq | by rewrite upd_ne].
Qed.

Lemma push_entries r' e s r :
  entries (heap (push r' e s) r) =
  if bool_decide (r = r') then entries (heap s r) ++ [e] else entries (heap s r).
Proof.
  cbn. case_bool_decide as H; [subst; by rewrite upd_eq | by rewrite upd_ne].
Qed.

#[local] Hint Rewrite stamp_subscribers stamp_entries stamp_auditLogId
  push_subscribers push_auditLogId push_sequenceCounter : frames.

Lemma completeAudit_begin_spec id success actualWords targetWords now s :
  ∃ jt, completeAudit_begin id success actualWords targetWords now s =
        logEvent_begin id job_completed
          (DataJobCompleted jt targetWords actualWords success) now s.
Proof.
  unfold completeAudit_begin, activeAudits_get, deref. mstep.
  destruct (activeAudits s !! id) as [r|]; mstep; by eexists.
Qed.

(** ** After [close]: the socket stays out of the session's subscribers *)

Lemma on_close_not_subscribed ws id s :
  clientConnections s !! ws = Some (Some id) →
  not_subscribed ws id (exec (on_close ws) s).
Proof.
  intros Hcc r. unfold exec. rewrite on_close_spec. frames. intros Hreg.
  unfold unsubscribed. rewrite Hcc, Hreg. cbn. rewrite upd_eq. cbn.
  rewrite elem_of_Set_delete. tauto.
Qed.

Lemma step_not_subscribed ws id o y :
  (∀ m, o ≠ Message ws m) →
  not_subscribed ws id (st y) → not_subscribed ws id (st (step o y)).
Proof.
  intros Ho Hinv r. destruct o as [ws'|ws' m|ws'|ws' rs|u jt j t0|id' ty d now
                                   |id' sc pv aw tw now|i ok now]; cbn [step].
  - apply Hinv.
  - rewrite on_message_spec.
    destruct m as [id'|id'|]; [|destruct (truthy id'); apply Hinv|apply Hinv].
    destruct (truthy id'); [|apply Hinv]. frames. intros Hreg.
    rewrite subscribed_heap. case_bool_decide; [|by apply Hinv].
    cbn. rewrite elem_of_Set_add. intros [->|Hin]; [by eapply Ho|].
    by eapply Hinv.
  - unfold exec, set_readyState. rewrite bind_modify, on_close_spec. frames. intros Hreg.
    destruct (unsubscribed_heap ws'
                (set_sockets (upd (sockets (st y)) ws'
                   {| readyState := CLOSED; outbox := outbox (sockets (st y) ws') |}) (st y)) r)
      as [-> | ->]; cbn.
    + by apply Hinv.
    + rewrite elem_of_Set_delete. intros [_ Hin]. by eapply Hinv.
  - apply Hinv.
  - apply Hinv.
  - rewrite logEvent_begin_spec. destruct (activeAudits (st y) !! id') as [r'|]; cbn [st].
    + rewrite stamp_subscribers. apply Hinv.
    + apply Hinv.
  - destruct (completeAudit_begin_spec id' sc aw tw now (st y)) as [jt' ->].
    rewrite logEvent_begin_spec. destruct (activeAudits (st y) !! id') as [r'|]; cbn [st].
    + rewrite stamp_subscribers. apply Hinv.
    + apply Hinv.
  - destruct (pool y !! i) as [t|]; [|apply Hinv].
    destruct t as [u jt j t0|fr k|id' sc pv at_|ws' id']; cbn [resume].
    + rewrite startAudit_register_spec. destruct ok; [|apply Hinv]. cbn [st].
      rewrite stamp_subscribers. frames.
      destruct (decide (r = nextRef (st y))) as [->|Hne].
      { rewrite upd_eq. cbn. intros _. apply not_elem_of_nil. }
      rewrite upd_ne by done. intros Hreg.
      apply lookup_insert_Some in Hreg as [[_ Heq]|[_ Hreg]]; [by subst|by apply Hinv].
    + rewrite logEvent_resume_spec.
      destruct k; destruct (fr_audit fr) as [r'|]; cbn [st]; frames;
        apply Hinv.
    + unfold exec. rewrite completeAudit_finish_spec. cbn zeta.
      destruct (fst (send_all _ _)); cbn [snd st]; frames.
      * intros Hreg. apply lookup_delete_Some in Hreg as [_ Hreg]. by apply Hinv.
      * apply Hinv.
    + unfold exec. rewrite on_message_history_spec. destruct ok; cbn [snd st]; apply Hinv.
Qed.

Lemma run_not_subscribed ws id ops y :
  Forall (λ o, ∀ m, o ≠ Message ws m) ops →
  not_subscribed ws id (st y) → not_subscribed ws id (st (run ops y)).
Proof.
  revert y. induction ops as [|o ops IH]; intros y Hall Hinv; [done|].
  apply Forall_cons in Hall as [Ho Hall]. cbn. apply IH; [done|].
  by apply step_not_subscribed.
Qed.

Lemma publish_outbox_open id e s r ws :
  activeAudits s !! id = Some r →
  NoDup (subscribers (heap s r)) → ws ∈ subscribers (heap s r) →
  readyState (sockets s ws) = OPEN →
  outbox (sockets (publish id e s) ws) = outbox (sockets s ws) ++ [MsgEntry id e].
Proof.
  intros Hreg Hnd Hin Hop. unfold publish. rewrite Hreg. cbn. by apply deliver_open.
Qed.

Lemma publish_sockets_other id e s ws :
  (∀ r, activeAudits s !! id = Some r → ws ∉ subscribers (heap s r)) →
  sockets (publish id e s) ws = sockets s ws.
Proof.
  intros Hni. unfold publish. destruct (activeAudits s !! id) as [r|] eqn:E; [|done].
  cbn. apply deliver_not_in. by apply Hni.
Qed.

(** ** [completeAudit], awaited *)

Lemma omap_targets (ws : WebSocket) (msg : ServerMessage) (subs : list WebSocket) :
  NoDup subs →
  omap (λ p : WebSocket * ServerMessage, if bool_decide (p.1 = ws) then Some p.2 else None)
       (map (λ w, (w, msg)) subs)
  = if bool_decide (ws ∈ subs) then [msg] else [].
Proof.
  induction subs as [|x subs IH]; intros Hnd; [done|].
  apply NoDup_cons in Hnd as [Hx Hnd]. cbn. rewrite IH by done.
  destruct (decide (x = ws)) as [->|Hne].
  - rewrite bool_decide_eq_true_2 by done.
    rewrite (bool_decide_eq_false_2 (ws ∈ subs)) by done.
    rewrite bool_decide_eq_true_2; [done|]. apply list_elem_of_here.
  - rewrite bool_decide_eq_false_2 by done.
    destruct (decide (ws ∈ subs)) as [Hin|Hni].
    + rewrite !bool_decide_eq_true_2; [done| by apply list_elem_of_further | done].
    + rewrite !bool_decide_eq_false_2; [done| |done].
      intros Hin. apply elem_of_cons in Hin as [->|]; done.
Qed.

Lemma completeAudit_unregistered id success preview actualWords targetWords now at_
    db_ok1 db_ok2 s :
  activeAudits s !! id = None →
  completeAudit id success preview actualWords targetWords now at_ db_ok1 db_ok2 s =
  (Ok tt,
   set_db (db (persist_status id success preview at_ db_ok2
                 (persist {| row_auditLogId := id; row_sequenceNum := 1;
                             row_timestamp := now; row_eventType := job_completed;
                             row_eventData :=
                               DataJobCompleted "unknown" targetWords actualWords success |}
                    db_ok1 s))) s).
Proof.
  intros Hnone. unfold completeAudit.
  rewrite bind_run. unfold completeAudit_begin, activeAudits_get. mstep.
  rewrite Hnone. mstep. rewrite logEvent_begin_spec, Hnone.
  rewrite bind_run, logEvent_resume_spec. cbn [fr_audit frame_of fr_insertData].
  rewrite completeAudit_finish_spec. cbn zeta. unfold notifications. frames.
  rewrite Hnone. cbn [send_all fst snd]. rewrite delete_id by done.
  destruct s, db_ok1, db_ok2; reflexivity.
Qed.

Lemma completeAudit_registered id r success preview actualWords targetWords now at_
    db_ok1 db_ok2 s :
  activeAudits s !! id = Some r →
  (∀ ws, ws ∈ subscribers (heap s r) → readyState (sockets s ws) ≠ CONNECTING) →
  let jt := if bool_decide (jobType (heap s r) = ""%string)
            then "unknown"%string else jobType (heap s r) in
  let fr := frame_of id (Some r) (sequenceCounter (heap s r) + 1) job_completed
              (DataJobCompleted jt targetWords actualWords success) now in
  let s3 := publish id (fr_entry fr)
              (push r (fr_entry fr) (persist (fr_insertData fr) db_ok1 (stamp r s))) in
  completeAudit id success preview actualWords targetWords now at_ db_ok1 db_ok2 s =
  (Ok tt,
   set_activeAudits (delete id (activeAudits s))
     (set_sockets (snd (send_all (notifications id success s3) (sockets s3)))
        (persist_status id success preview at_ db_ok2 s3))).
Proof.
  intros Hreg Hconn jt fr s3. unfold completeAudit.
  rewrite bind_run. unfold completeAudit_begin, activeAudits_get, deref. mstep.
  rewrite Hreg. mstep. rewrite logEvent_begin_spec, Hreg.
  rewrite bind_run, logEvent_resume_spec. cbn [fr_audit frame_of].
  fold jt. change (frame_of id (Some r) (sequenceCounter (heap s r) + 1) job_completed
                     (DataJobCompleted jt targetWords actualWords success) now) with fr.
  change {| sequenceNum := sequenceCounter (heap s r) + 1; timestamp := now;
            eventType := job_completed;
            eventData := DataJobCompleted jt targetWords actualWords success |}
    with (fr_entry fr).
  cbn [fr_auditLogId fr_insertData fr_entry].
  change (publish id _ _) with s3.
  rewrite completeAudit_finish_spec. cbn zeta.
  rewrite send_all_ok.
  - f_equal. f_equal. unfold s3. by frames.
  - unfold notifications, s3. frames. rewrite Hreg. frames.
    apply Forall_map, Forall_forall. intros ws Hin. cbn.
    rewrite publish_readyState. frames. by apply Hconn.
Qed.

(** ** Awaited calls are runs of the event loop *)

Lemma lookup_pool_last (ts : list Task) t : (ts ++ [t]) !! length ts = Some t.
Proof. by rewrite lookup_app_r, Nat.sub_diag. Qed.

Lemma delete_pool_last (ts : list Task) t : delete (length ts) (ts ++ [t]) = ts.
Proof.
  induction ts as [|x ts IH]; [done|]. cbn. f_equal. exact IH.
Qed.

Lemma run_logEvent_awaited y id ty data now db_ok now' :
  run [CallLogEvent id ty data now; Resume (length (pool y)) db_ok now'] y =
  {| st := awaited (ALogEvent id ty data now db_ok) (st y); pool := pool y |}.
Proof.
  cbn [run fold_left step awaited]. unfold exec, logEvent.
  rewrite bind_run. rewrite logEvent_begin_spec.
  destruct (activeAudits (st y) !! id) as [r|]; cbn [st pool];
    rewrite lookup_pool_last; cbn [resume];
    rewrite logEvent_resume_spec; cbn [fst snd];
    by rewrite delete_pool_last, app_nil_r.
Qed.

Lemma run_startAudit_awaited y userId jobType jobId startedAt now db_ok1 db_ok2 now' :
  run [CallStartAudit userId jobType jobId startedAt;
       Resume (length (pool y)) db_ok1 now;
       Resume (length (pool y)) db_ok2 now'] y =
  {| st := awaited (AStartAudit userId jobType jobId startedAt now db_ok1 db_ok2) (st y);
     pool := pool y |}.
Proof.
  cbn [run fold_left step awaited st pool]. unfold exec, startAudit.
  rewrite lookup_pool_last. cbn [resume].
  rewrite bind_run, startAudit_register_spec. destruct db_ok1; cbn [st pool fst snd].
  - rewrite delete_pool_last, lookup_pool_last. cbn [resume].
    rewrite bind_run, logEvent_resume_spec. cbn [fst snd].
    by rewrite delete_pool_last, app_nil_r.
  - rewrite delete_pool_last, app_nil_r, lookup_ge_None_2 by done. by destruct y.
Qed.

Lemma run_completeAudit_awaited y id success preview actualWords targetWords now at_
    db_ok1 db_ok2 now' :
  run [CallCompleteAudit id success preview actualWords targetWords now;
       Resume (length (pool y)) db_ok1 at_;
       Resume (length (pool y)) db_ok2 now'] y =
  {| st := awaited (ACompleteAudit id success preview actualWords targetWords now at_
                      db_ok1 db_ok2) (st y);
     pool := pool y |}.
Proof.
  cbn [run fold_left step awaited]. unfold exec, completeAudit.
  rewrite bind_run.
  destruct (completeAudit_begin_spec id success actualWords targetWords now (st y))
    as [jt ->].
  rewrite logEvent_begin_spec.
  destruct (activeAudits (st y) !! id) as [r|]; cbn [st pool];
    rewrite lookup_pool_last; cbn [resume];
    rewrite bind_run, logEvent_resume_spec; cbn [fst snd st pool];
    rewrite delete_pool_last, lookup_pool_last; cbn [resume];
    by rewrite delete_pool_last, app_nil_r.
Qed.

(** ** The buffer invariant under awaited use *)

Lemma audit_inv_same_log a b :
  sequenceCounter b = sequenceCounter a → entries b = entries a →
  audit_inv a → audit_inv b.
Proof. unfold audit_inv. by intros -> ->. Qed.

Lemma audit_inv_next a e :
  audit_inv a → sequenceNum e = sequenceCounter a + 1 →
  audit_inv (set_entries (entries a ++ [e]) (set_sequenceCounter (sequenceCounter a + 1) a)).
Proof.
  intros [Hc Hi] He. split; cbn.
  - rewrite length_app. cbn. lia.
  - intros i e' Hl. apply lookup_app_Some in Hl as [Hl|[Hge Hl]]; [by apply Hi|].
    apply list_lookup_singleton_Some in Hl as [Hz ->]. lia.
Qed.

Lemma logEvent_registered_heap id r ty data now ok s r' :
  activeAudits s !! id = Some r →
  heap (exec (logEvent id ty data now ok) s) r' =
  if bool_decide (r' = r)
  then set_entries (entries (heap s r) ++
                      [{| sequenceNum := sequenceCounter (heap s r) + 1; timestamp := now;
                          eventType := ty; eventData := data |}])
         (set_sequenceCounter (sequenceCounter (heap s r) + 1) (heap s r))
  else heap s r'.
Proof.
  intros Hreg. unfold exec. rewrite logEvent_spec, Hreg. cbn [snd]. frames.
  unfold push, stamp. frames. rewrite upd_eq.
  case_bool_decide as H; [subst; by rewrite upd_eq|]. by rewrite !upd_ne.
Qed.

Lemma logEvent_activeAudits id ty data now ok s :
  activeAudits (exec (logEvent id ty data now ok) s) = activeAudits s.
Proof.
  unfold exec. rewrite logEvent_spec. cbn [snd].
  destruct (activeAudits s !! id); by frames.
Qed.

Lemma logEvent_heap_unregistered id ty data now ok s :
  activeAudits s !! id = None →
  heap (exec (logEvent id ty data now ok) s) = heap s.
Proof. intros Hreg. unfold exec. rewrite logEvent_spec, Hreg. cbn [snd]. by frames. Qed.

Lemma logEvent_registry_inv id ty data now ok s :
  registry_inv s → registry_inv (exec (logEvent id ty data now ok) s).
Proof.
  intros Hinv id' r'. rewrite logEvent_activeAudits. intros Hreg'.
  destruct (activeAudits s !! id) as [r|] eqn:Hreg.
  - rewrite (logEvent_registered_heap _ r) by done.
    case_bool_decide as H; [subst|by eapply Hinv].
    apply audit_inv_next; [by eapply Hinv | done].
  - rewrite logEvent_heap_unregistered by done. by eapply Hinv.
Qed.

Lemma startAudit_spec userId jobType jobId startedAt now db_ok1 db_ok2 s :
  startAudit userId jobType jobId startedAt now db_ok1 db_ok2 s =
  if db_ok1 then
    let id := nextAuditLogId (db s) in
    let fr := frame_of id (Some (nextRef s)) 1 job_started
                (DataJobStarted jobType None None) now in
    (Ok id,
     publish id (fr_entry fr)
       (push (nextRef s) (fr_entry fr)
          (persist (fr_insertData fr) db_ok2
             (stamp (nextRef s) (registered userId jobType jobId startedAt s)))))
  else (Throw, s).
Proof.
  unfold startAudit. rewrite bind_run, startAudit_register_spec.
  destruct db_ok1; [|done]. cbn [fst snd].
  rewrite bind_run, logEvent_resume_spec. done.
Qed.

Lemma startAudit_registry_inv userId jobType jobId startedAt now db_ok1 db_ok2 s :
  registry_inv s →
  registry_inv (exec (startAudit userId jobType jobId startedAt now db_ok1 db_ok2) s).
Proof.
  intros Hinv id r. unfold exec. rewrite startAudit_spec.
  destruct db_ok1; [|apply Hinv]. cbn [snd]. frames. intros Hreg.
  unfold push, stamp. frames. rewrite !upd_eq.
  destruct (decide (r = nextRef s)) as [->|Hne].
  - rewrite upd_eq. split; cbn; [done|]. intros i e Hl.
    apply list_lookup_singleton_Some in Hl as [Hi He]. subst i e. reflexivity.
  - rewrite !upd_ne by done.
    apply lookup_insert_Some in Hreg as [[_ Heq]|[_ Hreg]]; [by subst|by eapply Hinv].
Qed.

Lemma completeAudit_split id success preview actualWords targetWords now at_
    db_ok1 db_ok2 s :
  ∃ jt,
    exec (completeAudit id success preview actualWords targetWords now at_ db_ok1 db_ok2) s =
    exec (completeAudit_finish id success preview at_ db_ok2)
      (exec (logEvent id job_completed
               (DataJobCompleted jt targetWords actualWords success) now db_ok1) s).
Proof.
  destruct (completeAudit_begin_spec id success actualWords targetWords now s) as [jt Hb].
  exists jt. unfold exec, completeAudit.
  rewrite bind_run, Hb, logEvent_begin_spec, logEvent_spec.
  destruct (activeAudits s !! id) as [r|]; cbn [fst snd];
    by rewrite bind_run, logEvent_resume_spec.
Qed.

Lemma completeAudit_finish_heap id success preview at_ db_ok s :
  heap (exec (completeAudit_finish id success preview at_ db_ok) s) = heap s.
Proof.
  unfold exec. rewrite completeAudit_finish_spec. cbn zeta.
  destruct (fst (send_all _ _)); cbn [snd]; by frames.
Qed.

Lemma completeAudit_finish_registered id success preview at_ db_ok s id' r :
  activeAudits (exec (completeAudit_finish id success preview at_ db_ok) s) !! id' = Some r →
  activeAudits s !! id' = Some r.
Proof.
  unfold exec. rewrite completeAudit_finish_spec. cbn zeta.
  destruct (fst (send_all _ _)); cbn [snd]; frames; [|done].
  intros H. by apply lookup_delete_Some in H as [_ H].
Qed.

Lemma awaited_message_spec ws m ok s :
  awaited (AMessage ws m ok) s =
  match m with
  | CSubscribe id =>
      if truthy id
      then set_sockets (snd (send_all (replay ws id s) (sockets s))) (subscribed ws id s)
      else s
  | CGetHistory id =>
      if truthy id && ok
      then set_sockets (snd (send_all [(ws, MsgHistory id (select_entries id (db s)))]
                               (sockets s))) s
      else s
  | COther => s
  end.
Proof.
  cbn [awaited]. unfold exec. rewrite bind_run, on_message_spec.
  destruct m as [id|id|]; [done| |done].
  destruct (truthy id); [|done]. rewrite on_message_history_spec. by destruct ok.
Qed.

Lemma awaited_registry_inv o s : registry_inv s → registry_inv (awaited o s).
Proof.
  intros Hinv.
  destruct o as [ws|ws m ok|ws|ws rs|u jt j t0 now ok1 ok2|id ty d now ok
                |id sc pv aw tw now at_ ok1 ok2].
  - apply Hinv.
  - rewrite awaited_message_spec.
    destruct m as [id|id|]; [| |apply Hinv].
    + destruct (truthy id); [|apply Hinv].
      intros id' r. frames. intros Hreg. rewrite subscribed_heap.
      case_bool_decide; [|by eapply Hinv].
      eapply audit_inv_same_log; [| |by eapply Hinv]; done.
    + destruct (truthy id && ok); apply Hinv.
  - cbn [awaited]. unfold exec, set_readyState. rewrite bind_modify, on_close_spec.
    cbn [snd]. intros id r. frames. intros Hreg.
    destruct (unsubscribed_heap ws
                (set_sockets (upd (sockets s) ws
                   {| readyState := CLOSED; outbox := outbox (sockets s ws) |}) s) r)
      as [-> | ->]; [by eapply Hinv|].
    eapply audit_inv_same_log; [| |by eapply (Hinv id r)]; done.
  - apply Hinv.
  - by apply startAudit_registry_inv.
  - by apply logEvent_registry_inv.
  - cbn [awaited].
    destruct (completeAudit_split id sc pv aw tw now at_ ok1 ok2 s) as [jt' ->].
    intros id' r Hreg. rewrite completeAudit_finish_heap.
    apply completeAudit_finish_registered in Hreg.
    by eapply logEvent_registry_inv.
Qed.

Lemma run_awaited_registry_inv ops s :
  registry_inv s → registry_inv (run_awaited ops s).
Proof.
  revert s. induction ops as [|o ops IH]; intros s Hinv; [done|].
  cbn. by apply IH, awaited_registry_inv.
Qed.

(** ** Well-formedness is kept by the event loop *)

Lemma subscribed_auditLogId ws id s r :
  auditLogId (heap (subscribed ws id s) r) = auditLogId (heap s r).
Proof. rewrite subscribed_heap. by case_bool_decide. Qed.

Lemma subscribed_entries ws id s r :
  entries (heap (subscribed ws id s) r) = entries (heap s r).
Proof. rewrite subscribed_heap. by case_bool_decide. Qed.

Lemma subscribed_sequenceCounter ws id s r :
  sequenceCounter (heap (subscribed ws id s) r) = sequenceCounter (heap s r).
Proof. rewrite subscribed_heap. by case_bool_decide. Qed.

Lemma unsubscribed_auditLogId ws s r :
  auditLogId (heap (unsubscribed ws s) r) = auditLogId (heap s r).
Proof. by destruct (unsubscribed_heap ws s r) as [-> | ->]. Qed.

Lemma unsubscribed_entries ws s r :
  entries (heap (unsubscribed ws s) r) = entries (heap s r).
Proof. by destruct (unsubscribed_heap ws s r) as [-> | ->]. Qed.

Lemma unsubscribed_sequenceCounter ws s r :
  sequenceCounter (heap (unsubscribed ws s) r) = sequenceCounter (heap s r).
Proof. by destruct (unsubscribed_heap ws s r) as [-> | ->]. Qed.

#[local] Hint Rewrite subscribed_auditLogId subscribed_entries subscribed_sequenceCounter
  unsubscribed_auditLogId unsubscribed_entries unsubscribed_sequenceCounter : frames.

Lemma subscribed_NoDup ws id s r :
  NoDup (subscribers (heap s r)) → NoDup (subscribers (heap (subscribed ws id s) r)).
Proof.
  intros Hnd. rewrite subscribed_heap. case_bool_decide; [|done].
  by apply NoDup_Set_add.
Qed.

Lemma unsubscribed_NoDup ws s r :
  NoDup (subscribers (heap s r)) → NoDup (subscribers (heap (unsubscribed ws s) r)).
Proof.
  intros Hnd. destruct (unsubscribed_heap ws s r) as [-> | ->]; [done|].
  by apply NoDup_Set_delete.
Qed.

Lemma elem_of_delete_pool {A} (l : list A) i x : x ∈ delete i l → x ∈ l.
Proof.
  revert i. induction l as [|a l IH]; intros i Hin; [by destruct i|].
  destruct i as [|i]; cbn in Hin.
  - by apply list_elem_of_further.
  - apply elem_of_cons in Hin as [->|Hin]; [apply list_elem_of_here|].
    apply list_elem_of_further. by eapply IH.
Qed.

Lemma frames_of_app ts ts' : frames_of (ts ++ ts') = frames_of ts ++ frames_of ts'.
Proof. apply omap_app. Qed.

Lemma elem_of_frames_of_delete ts i fr :
  fr ∈ frames_of (delete i ts) → fr ∈ frames_of ts.
Proof.
  unfold frames_of. rewrite !list_elem_of_omap. intros (t & Hin & Ht).
  exists t. split; [by eapply elem_of_delete_pool|done].
Qed.

Lemma frames_ok_grows s s' frs : grows s s' → frames_ok s frs → frames_ok s' frs.
Proof.
  intros [Hn Hh] Hok fr r Hin Hr. destruct (Hok fr r Hin Hr) as [Hlt Hid].
  split; [lia|]. by rewrite Hh.
Qed.

Lemma grows_refl s : grows s s.
Proof. by split. Qed.

(** The state after a step that creates no object. *)
Lemma grows_same s s' :
  nextRef s' = nextRef s →
  (∀ r, auditLogId (heap s' r) = auditLogId (heap s r)) →
  grows s s'.
Proof. intros Hn Hh. split; [lia|]. intros r _. apply Hh. Qed.

Lemma frames_of_delete_other ts i t :
  ts !! i = Some t → (∀ fr k, t ≠ AwaitInsertEntry fr k) →
  frames_of (delete i ts) = frames_of ts.
Proof.
  intros Hi Ht. rewrite delete_take_drop.
  rewrite <- (take_drop_middle ts i t Hi) at 3.
  rewrite !frames_of_app. f_equal. cbn.
  destruct t; try done. by destruct (Ht fr k).
Qed.

Lemma frames_of_delete_frame ts i fr k :
  ts !! i = Some (AwaitInsertEntry fr k) →
  ∃ l1 l2, frames_of ts = l1 ++ fr :: l2 ∧ frames_of (delete i ts) = l1 ++ l2.
Proof.
  intros Hi. exists (frames_of (take i ts)), (frames_of (drop (S i) ts)).
  rewrite delete_take_drop, frames_of_app. split; [|done].
  rewrite <- (take_drop_middle ts i _ Hi) at 1. by rewrite frames_of_app.
Qed.

(** ** Every step of the event loop is one of the transitions *)

Lemma Sys_eta y : {| st := st y; pool := pool y |} = y.
Proof. by destruct y. Qed.

Lemma step_trans o y : trans o y (step o y) (assigned o y) (resumed o y).
Proof.
  destruct o as [ws|ws m|ws|ws rs|u jt j t0|id ty d now|id sc pv aw tw now|i ok now];
    cbn [step assigned resumed].
  - apply trans_connection.
  - rewrite on_message_spec. destruct m as [id|id|].
    + destruct (truthy id) eqn:E; [by apply trans_subscribe|by apply trans_idle].
    + destruct (truthy id); apply trans_idle; rewrite ?frames_of_app; cbn;
        by rewrite ?app_nil_r.
    + by apply trans_idle.
  - unfold exec, set_readyState. rewrite bind_modify, on_close_spec. apply trans_close.
  - apply trans_transport.
  - apply trans_idle. rewrite frames_of_app. cbn. by rewrite app_nil_r.
  - rewrite logEvent_begin_spec. destruct (activeAudits (st y) !! id) as [r|] eqn:E.
    + by apply trans_begin.
    + by apply trans_begin_unregistered.
  - destruct (completeAudit_begin_spec id sc aw tw now (st y)) as [jt ->].
    rewrite logEvent_begin_spec. destruct (activeAudits (st y) !! id) as [r|] eqn:E.
    + by apply trans_begin.
    + by apply trans_begin_unregistered.
  - destruct (pool y !! i) as [t|] eqn:E.
    2:{ rewrite <- (Sys_eta y) at 2. by apply trans_idle. }
    destruct t as [u jt j t0|fr k|id sc pv at_|ws id]; cbn [resume].
    + rewrite startAudit_register_spec. destruct ok; cbn [fst snd].
      * by apply trans_register.
      * apply trans_idle. rewrite app_nil_r. by eapply frames_of_delete_other.
    + rewrite logEvent_resume_spec. destruct k; by eapply trans_resume.
    + unfold exec. rewrite completeAudit_finish_spec. cbn zeta.
      rewrite app_nil_r.
      destruct (fst (send_all _ _)); cbn [snd].
      * by apply (trans_finish i ok now y id sc pv at_ true).
      * by apply (trans_finish i ok now y id sc pv at_ false).
    + unfold exec. rewrite on_message_history_spec. cbn [snd]. rewrite app_nil_r.
      destruct ok; [by apply trans_history|].
      apply trans_idle. by eapply frames_of_delete_other.
Qed.

Lemma state_ok_same s s' :
  (∀ id r, activeAudits s' !! id = Some r → activeAudits s !! id = Some r) →
  nextRef s' = nextRef s →
  nextAuditLogId (db s') = nextAuditLogId (db s) →
  (∀ r, auditLogId (heap s' r) = auditLogId (heap s r)) →
  (∀ r, NoDup (subscribers (heap s r)) → NoDup (subscribers (heap s' r))) →
  state_ok s → state_ok s'.
Proof.
  intros Hreg Hn Hd Hid Hnd [H1 H2 H3 H4 H5]. split.
  - intros id r Hr. rewrite Hn, Hid. by apply H1, Hreg.
  - intros r r'. rewrite Hn, !Hid. apply H2.
  - intros r. rewrite Hn, Hid, Hd. apply H3.
  - by rewrite Hd.
  - intros r. apply Hnd, H5.
Qed.

Lemma state_ok_frame s s' :
  activeAudits s' = activeAudits s →
  nextRef s' = nextRef s →
  nextAuditLogId (db s') = nextAuditLogId (db s) →
  (∀ r, auditLogId (heap s' r) = auditLogId (heap s r)) →
  (∀ r, subscribers (heap s' r) = subscribers (heap s r)) →
  state_ok s → state_ok s'.
Proof.
  intros Hreg Hn Hd Hid Hsub. apply state_ok_same; try done.
  - by rewrite Hreg.
  - intros r. by rewrite Hsub.
Qed.

Lemma trans_wf o y y' frs res :
  trans o y y' frs res → wf y → wf y' ∧ frames_ok (st y') frs.
Proof.
  intros T [Hs Hf].
  assert (Hnil : ∀ s, frames_ok s []) by (intros s fr r Hin; by apply elem_of_nil in Hin).
  destruct T as [o y ts Hsub|ws y|ws id y Htr|ws y|ws rs y|o y id r ty d now k Hreg
                |o y id ty d now k Hreg|i now y u jt j t0 Hi|i ok now y fr k ts Hi Hts
                |i ok now y id sc pv at_ unreg Hi|i ok now y ws id Hi];
    unfold wf; cbn [st pool] in *.
  - split; [|done]. split; [done|]. by rewrite Hsub.
  - split; [|done]. split; [|done].
    eapply state_ok_same; [..|exact Hs]; by sframes.
  - split; [|done].
    assert (Hg : grows (st y)
              (set_sockets (snd (send_all (replay ws id (st y)) (sockets (st y))))
                 (subscribed ws id (st y)))).
    { apply grows_same; by sframes. }
    split; [|by eapply frames_ok_grows].
    eapply state_ok_same; [..|exact Hs]; try by sframes.
    intros r. apply subscribed_NoDup.
  - split; [|done]. cbn zeta.
    split; [|eapply frames_ok_grows; [|done]; apply grows_same; by sframes].
    eapply state_ok_same; [..|exact Hs]; try by sframes.
    intros r Hnd. by apply unsubscribed_NoDup.
  - split; [|done]. split; [|done].
    eapply state_ok_same; [..|exact Hs]; by sframes.
  - assert (Hg : grows (st y) (stamp r (st y))) by (apply grows_same; by sframes).
    assert (Hfr : frames_ok (stamp r (st y)) [fr]).
    { intros fr' r' Hin Hr'. apply list_elem_of_singleton in Hin as ->.
      injection Hr' as <-. frames. destruct Hs as [H1 _ _ _ _]. by apply H1. }
    split; [|done]. split.
    + eapply state_ok_same; [..|exact Hs]; by sframes.
    + rewrite frames_of_app. intros fr' r' Hin. apply elem_of_app in Hin as [Hin|Hin].
      * by eapply frames_ok_grows.
      * by apply Hfr.
  - split; [split; [done|]|].
    + rewrite frames_of_app. intros fr' r' Hin. apply elem_of_app in Hin as [Hin|Hin].
      * by apply Hf.
      * apply list_elem_of_singleton in Hin as ->. done.
    + intros fr' r' Hin. apply list_elem_of_singleton in Hin as ->. done.
  - destruct Hs as [H1 H2 H3 H4 H5].
    set (s := st y) in *.
    set (s' := stamp (nextRef s) (registered u jt j t0 s)).
    assert (Hnew : auditLogId (heap s' (nextRef s)) = nextAuditLogId (db s)).
    { unfold s'. frames. by rewrite upd_eq. }
    assert (Hold : ∀ r, (r < nextRef s)%nat → heap s' r = heap s r).
    { intros r Hr. unfold s', stamp. frames. rewrite !upd_ne by lia. done. }
    assert (Hn : nextRef s' = S (nextRef s)) by done.
    assert (Hdb : nextAuditLogId (db s') = nextAuditLogId (db s) + 1) by done.
    assert (Hg : grows s s').
    { split; [rewrite Hn; lia|]. intros r Hr. by rewrite Hold. }
    assert (Hfr : frames_ok s' [fr]).
    { intros fr' r' Hin Hr'. apply list_elem_of_singleton in Hin as ->.
      injection Hr' as <-. split; [rewrite Hn; lia|done]. }
    split; [|done]. split.
    + split.
      * intros id' r'. unfold s' at 1. frames. intros Hr.
        apply lookup_insert_Some in Hr as [[<- <-]|[Hne Hr]].
        -- split; [rewrite Hn; lia|done].
        -- destruct (H1 _ _ Hr) as [Hlt Hid]. split; [rewrite Hn; lia|].
           by rewrite Hold.
      * intros r r'. rewrite Hn. intros Hr Hr' Heq.
        destruct (decide (r = nextRef s)) as [->|Hne];
          destruct (decide (r' = nextRef s)) as [->|Hne']; try done.
        -- rewrite Hnew, Hold in Heq by lia.
           specialize (H3 r' ltac:(lia)). lia.
        -- rewrite Hnew, Hold in Heq by lia.
           specialize (H3 r ltac:(lia)). lia.
        -- rewrite !Hold in Heq by lia. apply H2; [lia|lia|done].
      * intros r. rewrite Hn, Hdb. intros Hr.
        destruct (decide (r = nextRef s)) as [->|Hne].
        -- rewrite Hnew. lia.
        -- rewrite Hold by lia. specialize (H3 r ltac:(lia)). lia.
      * rewrite Hdb. lia.
      * intros r. destruct (decide (r = nextRef s)) as [->|Hne].
        -- unfold s'. frames. rewrite upd_eq. constructor.
        -- unfold s'. frames. rewrite upd_ne by done. apply H5.
    + rewrite frames_of_app. intros fr' r' Hin. apply elem_of_app in Hin as [Hin|Hin].
      * eapply frames_ok_grows; [exact Hg| |exact Hin]. intros fr'' r'' Hin'.
        apply Hf. by eapply elem_of_frames_of_delete.
      * by apply Hfr.
  - split; [|done].
    assert (Hok : ∀ s', activeAudits s' = activeAudits (st y) →
                        nextRef s' = nextRef (st y) →
                        nextAuditLogId (db s') = nextAuditLogId (db (st y)) →
                        (∀ r, auditLogId (heap s' r) = auditLogId (heap (st y) r)) →
                        (∀ r, subscribers (heap s' r) = subscribers (heap (st y) r)) →
                        state_ok s' ∧
                        frames_ok s' (frames_of (delete i (pool y) ++ ts))).
    { intros s' Ha Hb Hc Hd He. split.
      - by eapply state_ok_frame.
      - rewrite frames_of_app, Hts, app_nil_r.
        eapply frames_ok_grows; [by apply grows_same|].
        intros fr' r' Hin. apply Hf. by eapply elem_of_frames_of_delete. }
    destruct (fr_audit fr) as [r|]; apply Hok; by sframes.
  - split; [|done]. subst s1. split; cbn [st pool].
    + eapply state_ok_same; [..|exact Hs]; destruct unreg; try by sframes.
      frames. intros id' r' Hr. by apply lookup_delete_Some in Hr as [_ Hr].
    + eapply frames_ok_grows; [apply grows_same; destruct unreg; by sframes|].
      intros fr' r' Hin. apply Hf. by eapply elem_of_frames_of_delete.
  - split; [|done]. split; cbn [st pool].
    + eapply state_ok_same; [..|exact Hs]; by sframes.
    + eapply frames_ok_grows; [apply grows_same; by sframes|].
      intros fr' r' Hin. apply Hf. by eapply elem_of_frames_of_delete.
Qed.

Lemma wf_init : wf init.
Proof.
  split.
  - split; cbn.
    + intros id r H. by rewrite lookup_empty in H.
    + lia.
    + lia.
    + lia.
    + constructor.
  - intros fr r Hin. by apply elem_of_nil in Hin.
Qed.

Lemma run_cons o ops y : run (o :: ops) y = run ops (step o y).
Proof. done. Qed.

Lemma run_app ops ops' y : run (ops ++ ops') y = run ops' (run ops y).
Proof. apply fold_left_app. Qed.

Lemma run_wf ops y : wf y → wf (run ops y).
Proof.
  revert y. induction ops as [|o ops IH]; intros y Hwf; [done|].
  rewrite run_cons. apply IH. by eapply trans_wf; [apply step_trans|].
Qed.

(** ** Sequence numbers along a run *)

Lemma seqZ_snoc (n : nat) : seqZ 1 (Z.of_nat (S n)) = seqZ 1 (Z.of_nat n) ++ [Z.of_nat n + 1].
Proof. rewrite seqZ_S. do 2 f_equal. lia. Qed.

Lemma filter_none {A} (P : A → Prop) `{∀ x, Decision (P x)} (l : list A) :
  (∀ x, x ∈ l → ¬ P x) → filter P l = [].
Proof.
  intros Hno. destruct (filter P l) as [|x l'] eqn:E; [done|].
  assert (Hx : x ∈ filter P l) by (rewrite E; apply list_elem_of_here).
  apply list_elem_of_filter in Hx as [HP Hin]. by destruct (Hno x Hin).
Qed.

Lemma filter_agree {A} (P Q : A → Prop) `{∀ x, Decision (P x)} `{∀ x, Decision (Q x)}
    (l : list A) :
  (∀ x, x ∈ l → P x ↔ Q x) → filter P l = filter Q l.
Proof.
  induction l as [|a l IH]; intros Hpq; [done|].
  rewrite !filter_cons.
  rewrite IH by (intros x Hx; apply Hpq; by apply list_elem_of_further).
  destruct (decide (P a)) as [Hp|Hp]; destruct (decide (Q a)) as [Hq|Hq]; try done.
  - destruct Hq. by apply (Hpq a); [apply list_elem_of_here|].
  - destruct Hp. by apply (Hpq a); [apply list_elem_of_here|].
Qed.

Lemma calls_on_object_snoc r log fr :
  calls_on_object r (log ++ [fr]) =
  calls_on_object r log ++ (if bool_decide (fr_audit fr = Some r) then [fr] else []).
Proof.
  unfold calls_on_object. rewrite filter_app. f_equal.
  case_bool_decide; [by rewrite filter_cons_True | by rewrite filter_cons_False].
Qed.

Lemma frame_of_wf id audit n ty d now :
  (audit = None → n = 1) → frame_wf (frame_of id audit n ty d now).
Proof. intros H. by repeat split. Qed.

(** A state with the same objects and counters keeps the log. *)
Lemma log_inv_same s s' log :
  nextRef s' = nextRef s →
  (∀ r, auditLogId (heap s' r) = auditLogId (heap s r)) →
  (∀ r, sequenceCounter (heap s' r) = sequenceCounter (heap s r)) →
  log_inv s log → log_inv s' log.
Proof.
  intros Hn Hid Hc (Hf & Hw & Hl). split; [|split; [done|]].
  - eapply frames_ok_grows; [by apply grows_same|done].
  - intros r. rewrite Hn, Hc. apply Hl.
Qed.

Lemma trans_log_inv o y y' frs res log :
  trans o y y' frs res → wf y → log_inv (st y) log → log_inv (st y') (log ++ frs).
Proof.
  intros T [Hs Hf] Hlog.
  destruct T as [o y ts Hsub|ws y|ws id y Htr|ws y|ws rs y|o y id r ty d now k Hreg
                |o y id ty d now k Hreg|i now y u jt j t0 Hi|i ok now y fr k ts Hi Hts
                |i ok now y id sc pv at_ unreg Hi|i ok now y ws id Hi];
    cbn [st pool] in *; rewrite ?app_nil_r.
  - done.
  - eapply log_inv_same; [..|exact Hlog]; by sframes.
  - eapply log_inv_same; [..|exact Hlog]; by sframes.
  - eapply log_inv_same; [..|exact Hlog]; by sframes.
  - eapply log_inv_same; [..|exact Hlog]; by sframes.
  - destruct Hlog as (Hfl & Hw & Hl). destruct Hs as [H1 _ _ _ _].
    destruct (H1 _ _ Hreg) as [Hlt Hid].
    split; [|split].
    + intros fr' r' Hin Hr'. apply elem_of_app in Hin as [Hin|Hin].
      * frames. by apply Hfl.
      * apply list_elem_of_singleton in Hin as ->. injection Hr' as <-. by frames.
    + apply Forall_app. split; [done|]. apply Forall_singleton. by apply frame_of_wf.
    + intros r'. frames. intros Hr'. rewrite calls_on_object_snoc.
      rewrite stamp_sequenceCounter. subst fr. cbn [fr_audit frame_of].
      destruct (Hl r' Hr') as [Hc Hn].
      destruct (decide (r' = r)) as [->|Hne].
      * rewrite !bool_decide_eq_true_2 by done.
        unfold numbers in *. rewrite map_app, length_app, Nat.add_1_r, seqZ_snoc, Hn.
        cbn. rewrite Hc. split; [lia|done].
      * rewrite !bool_decide_eq_false_2 by congruence. by rewrite app_nil_r.
  - destruct Hlog as (Hfl & Hw & Hl). split; [|split].
    + intros fr' r' Hin Hr'. apply elem_of_app in Hin as [Hin|Hin]; [by apply Hfl|].
      apply list_elem_of_singleton in Hin as ->. done.
    + apply Forall_app. split; [done|]. apply Forall_singleton. by apply frame_of_wf.
    + intros r' Hr'. rewrite calls_on_object_snoc. subst fr. cbn [fr_audit frame_of].
      rewrite bool_decide_eq_false_2 by done. rewrite app_nil_r. by apply Hl.
  - destruct Hlog as (Hfl & Hw & Hl).
    set (s := st y) in *.
    set (s' := stamp (nextRef s) (registered u jt j t0 s)).
    assert (Hold : ∀ r, (r < nextRef s)%nat → heap s' r = heap s r).
    { intros r Hr. unfold s', stamp. frames. rewrite !upd_ne by lia. done. }
    assert (Hn : nextRef s' = S (nextRef s)) by done.
    assert (Hnone : calls_on_object (nextRef s) log = []).
    { unfold calls_on_object. apply filter_none.
      intros fr' Hin Hr'. destruct (Hfl _ _ Hin Hr') as [Hlt _]. lia. }
    split; [|split].
    + intros fr' r' Hin Hr'. apply elem_of_app in Hin as [Hin|Hin].
      * destruct (Hfl _ _ Hin Hr') as [Hlt Hid]. split; [rewrite Hn; lia|].
        by rewrite Hold.
      * apply list_elem_of_singleton in Hin as ->. injection Hr' as <-.
        split; [rewrite Hn; lia|]. unfold s'. frames. by rewrite upd_eq.
    + apply Forall_app. split; [done|]. apply Forall_singleton. by apply frame_of_wf.
    + intros r'. rewrite Hn. intros Hr'. rewrite calls_on_object_snoc.
      subst fr. cbn [fr_audit frame_of].
      destruct (decide (r' = nextRef s)) as [->|Hne].
      * rewrite bool_decide_eq_true_2 by done. rewrite Hnone.
        cbn [app length numbers map fr_entry sequenceNum].
        unfold s'. rewrite stamp_sequenceCounter, bool_decide_eq_true_2 by done.
        frames. by rewrite upd_eq.
      * rewrite bool_decide_eq_false_2 by congruence. rewrite app_nil_r.
        rewrite Hold by lia. apply Hl. lia.
  - destruct (fr_audit fr) as [r|];
      (eapply log_inv_same; [..|exact Hlog]; by sframes).
  - subst s1. destruct unreg; (eapply log_inv_same; [..|exact Hlog]; by sframes).
  - eapply log_inv_same; [..|exact Hlog]; by sframes.
Qed.

Lemma run_log_inv ops y log :
  wf y → log_inv (st y) log → log_inv (st (run ops y)) (log ++ assigned_log ops y).
Proof.
  revert y log. induction ops as [|o ops IH]; intros y log Hwf Hlog.
  - cbn. by rewrite app_nil_r.
  - rewrite run_cons. cbn [assigned_log]. rewrite app_assoc. apply IH.
    + by eapply trans_wf; [apply step_trans|].
    + by eapply trans_log_inv; [apply step_trans|..].
Qed.

Lemma log_inv_init : log_inv init_state [].
Proof.
  split; [|split].
  - intros fr r Hin. by apply elem_of_nil in Hin.
  - constructor.
  - intros r Hr. cbn in Hr. lia.
Qed.

(** The calls for a session that found an object found the same one. *)
Lemma calls_on_one_object s log id :
  state_ok s → frames_ok s log →
  calls_on id log = [] ∨
  ∃ r, (r < nextRef s)%nat ∧ calls_on id log = calls_on_object r log.
Proof.
  intros Hs Hf. destruct (calls_on id log) as [|fr0 rest] eqn:E; [by left|right].
  assert (H0 : fr0 ∈ calls_on id log) by (rewrite E; apply list_elem_of_here).
  apply list_elem_of_filter in H0 as [[Hid [r0 Hr0]] Hin0].
  destruct (Hf _ _ Hin0 Hr0) as [Hlt0 Ha0].
  exists r0. split; [done|]. rewrite <- E. apply filter_agree.
  intros fr Hin. split.
  - intros [Hfid [r Hr]]. destruct (Hf _ _ Hin Hr) as [Hlt Ha].
    rewrite Hr. f_equal. destruct Hs as [_ H2 _ _ _]. apply H2; [done|done|congruence].
  - intros Hr. destruct (Hf _ _ Hin Hr) as [Hlt Ha]. split; [congruence|by eexists].
Qed.

(** ** A subscriber and the buffer *)

Lemma deliver_entries_for_other id id' e subs k ws :
  id' ≠ id →
  entries_for id (outbox (deliver (MsgEntry id' e) subs k ws)) = entries_for id (outbox (k ws)).
Proof.
  intros Hne. revert k. induction subs as [|x subs IH]; intros k; [done|].
  cbn [deliver]. rewrite IH. unfold deliver1.
  destruct (readyState (k x)); try done.
  destruct (decide (ws = x)) as [->|Hx]; [|by rewrite upd_ne].
  rewrite upd_eq. cbn [outbox]. rewrite entries_for_app. cbn.
  rewrite bool_decide_eq_false_2 by done. by rewrite app_nil_r.
Qed.

Lemma publish_received_other id id' e s ws :
  id' ≠ id → received id ws (publish id' e s) = received id ws s.
Proof.
  intros Hne. unfold received, publish.
  destruct (activeAudits s !! id') as [r|]; [|done]. cbn.
  by apply deliver_entries_for_other.
Qed.

Lemma publish_received_same id e s r ws :
  activeAudits s !! id = Some r →
  NoDup (subscribers (heap s r)) → ws ∈ subscribers (heap s r) →
  readyState (sockets s ws) = OPEN →
  received id ws (publish id e s) = received id ws s ++ [e].
Proof.
  intros Hreg Hnd Hin Hop. unfold received.
  rewrite (publish_outbox_open _ _ _ r) by done.
  rewrite entries_for_app. cbn. by rewrite bool_decide_eq_true_2.
Qed.

Lemma entries_for_map_entry id l : entries_for id (map (MsgEntry id) l) = l.
Proof.
  induction l as [|e l IH]; [done|]. cbn. rewrite bool_decide_eq_true_2 by done.
  cbn. f_equal. exact IH.
Qed.

Lemma omap_all_targets {A} (ws : WebSocket) (g : A → ServerMessage) (l : list A) :
  omap (λ p : WebSocket * ServerMessage, if bool_decide (p.1 = ws) then Some p.2 else None)
       (map (λ x, (ws, g x)) l) = map g l.
Proof.
  induction l as [|x l IH]; [done|]. cbn. rewrite bool_decide_eq_true_2 by done.
  cbn. f_equal. exact IH.
Qed.

Lemma replay_registered ws id s r :
  activeAudits s !! id = Some r →
  replay ws id s = map (λ m, (ws, m)) (map (MsgEntry id) (entries (heap s r)) ++ [MsgSubscribed id]).
Proof.
  intros Hreg. unfold replay. rewrite Hreg, map_app, map_map. done.
Qed.

Lemma replay_targets ws id s : Forall (λ p, p.1 = ws) (replay ws id s).
Proof.
  unfold replay. apply Forall_app. split; [|by repeat constructor].
  destruct (activeAudits s !! id); [|constructor]. by apply Forall_map, Forall_forall.
Qed.

Lemma replay_entries_for_other ws id s ws' id' :
  ¬ (ws' = ws ∧ id' = id) →
  Forall (λ p, p.1 = ws → entries_for id [p.2] = []) (replay ws' id' s).
Proof.
  intros Hne. unfold replay. apply Forall_app. split; [|by repeat constructor].
  destruct (activeAudits s !! id'); [|constructor].
  apply Forall_map, Forall_forall. intros e _ Hws. cbn in *.
  rewrite bool_decide_eq_false_2; [done|]. intros ->. by apply Hne.
Qed.

Lemma prefix_of_snoc {A} (l l' : list A) x : l `prefix_of` l' → l `prefix_of` l' ++ [x].
Proof. intros [k ->]. exists (k ++ [x]). by rewrite app_assoc. Qed.

(** A state with the same registry entry, the same object [r] and the
    same socket keeps the subscription. *)
Lemma sub_inv_same ws id r pre buffered s s' :
  (activeAudits s' !! id = Some r → activeAudits s !! id = Some r) →
  (ws ∈ subscribers (heap s r) → ws ∈ subscribers (heap s' r)) →
  entries (heap s' r) = entries (heap s r) →
  readyState (sockets s' ws) = readyState (sockets s ws) →
  received id ws s' = received id ws s →
  sub_inv ws id r pre buffered s → sub_inv ws id r pre buffered s'.
Proof.
  intros Hreg Hsub He Hrs Hrc Hinv Hr. destruct (Hinv (Hreg Hr)) as (H1 & H2 & H3 & H4).
  rewrite He, Hrs, Hrc. by split; [apply Hsub|].
Qed.

Lemma received_set_sockets id ws k s :
  received id ws (set_sockets k s) = entries_for id (outbox (k ws)).
Proof. done. Qed.

Lemma trans_sub_inv ws id r pre buffered o y y' frs res :
  trans o y y' frs res → quiet ws id o → wf y → (r < nextRef (st y))%nat →
  sub_inv ws id r pre buffered (st y) → sub_inv ws id r pre buffered (st y').
Proof.
  intros T Hq [Hs Hf] Hr Hinv.
  destruct T as [o y ts Hsub|ws' y|ws' id' y Htr|ws' y|ws' rs y|o y id' r' ty d now k Hreg
                |o y id' ty d now k Hreg|i now y u jt j t0 Hi|i ok now y fr k ts Hi Hts
                |i ok now y id' sc pv at_ unreg Hi|i ok now y ws' id' Hi];
    cbn [st pool quiet] in *.
  - done.
  - eapply sub_inv_same; [..|exact Hinv]; try by sframes.
    + frames. by rewrite upd_ne.
    + unfold received. frames. by rewrite upd_ne.
  - eapply sub_inv_same; [..|exact Hinv]; try by sframes.
    + frames. rewrite subscribed_heap. case_bool_decide; [|done].
      cbn. rewrite elem_of_Set_add. by right.
    + frames. apply send_all_readyState.
    + rewrite received_set_sockets. frames.
      by apply send_all_entries_for, replay_entries_for_other.
  - cbn zeta. eapply sub_inv_same; [..|exact Hinv]; try by sframes.
    + frames.
      destruct (unsubscribed_heap ws'
                  (set_sockets (upd (sockets (st y)) ws'
                     {| readyState := CLOSED; outbox := outbox (sockets (st y) ws') |})
                     (st y)) r) as [-> | ->]; [done|].
      cbn. rewrite elem_of_Set_delete. by split.
    + frames. by rewrite upd_ne.
    + unfold received. frames. by rewrite upd_ne.
  - eapply sub_inv_same; [..|exact Hinv]; try by sframes.
    + frames. by rewrite upd_ne.
    + unfold received. frames. by rewrite upd_ne.
  - eapply sub_inv_same; [..|exact Hinv]; by sframes.
  - done.
  - set (s := st y) in *.
    assert (Hold : heap (stamp (nextRef s) (registered u jt j t0 s)) r = heap s r).
    { unfold stamp. frames. rewrite !upd_ne by lia. done. }
    eapply sub_inv_same; [..|exact Hinv]; rewrite ?Hold; try done.
    frames. intros Hreg. apply lookup_insert_Some in Hreg as [[_ Heq]|[_ Hreg]]; [lia|done].
  - destruct (fr_audit fr) as [rf|] eqn:Haud.
    2:{ eapply sub_inv_same; [..|exact Hinv]; try by sframes.
        unfold received. by frames. }
    assert (Hfr : fr ∈ frames_of (pool y)).
    { unfold frames_of. apply list_elem_of_omap. exists (AwaitInsertEntry fr k).
      split; [by eapply list_elem_of_lookup_2|done]. }
    destruct (Hf _ _ Hfr Haud) as [Hlt Hfid].
    intros Hreg. revert Hreg. frames. intros Hreg.
    destruct (Hinv Hreg) as (H1 & H2 & H3 & H4).
    destruct Hs as [G1 G2 G3 G4 G5]. destruct (G1 _ _ Hreg) as [_ Hid].
    split; [by frames|]. split; [by frames|].
    rewrite push_entries.
    destruct (decide (r = rf)) as [->|Hne].
    + rewrite bool_decide_eq_true_2 by done. frames.
      assert (Heq : fr_auditLogId fr = id) by congruence. rewrite Heq.
      rewrite (publish_received_same _ _ _ rf); frames; try done.
      split; [|by apply prefix_of_snoc].
      unfold received in *. frames. rewrite H3. by rewrite app_assoc.
    + rewrite bool_decide_eq_false_2 by done. frames.
      rewrite publish_received_other.
      * unfold received in *. by frames.
      * intros Heq. apply Hne. apply G2; [done|done|congruence].
  - subst s1. eapply sub_inv_same; [..|exact Hinv].
    + destruct unreg; frames; [|done].
      intros Hreg. by apply lookup_delete_Some in Hreg as [_ Hreg].
    + by destruct unreg; frames.
    + by destruct unreg; frames.
    + destruct unreg; frames; apply send_all_readyState.
    + assert (Hn : Forall (λ p : WebSocket * ServerMessage,
                             p.1 = ws → entries_for id [p.2] = [])
                     (notifications id' sc (st y))).
      { unfold notifications. destruct (activeAudits (st y) !! id'); [|constructor].
        by apply Forall_map, Forall_forall. }
      destruct unreg; unfold received; frames; by apply send_all_entries_for.
  - eapply sub_inv_same; [..|exact Hinv]; try by sframes.
    + frames. apply send_all_readyState.
    + rewrite received_set_sockets. apply send_all_entries_for. by repeat constructor.
Qed.

Lemma trans_nextRef o y y' frs res : trans o y y' frs res → (nextRef (st y) ≤ nextRef (st y'))%nat.
Proof.
  intros T.
  destruct T as [o y ts Hsub|ws' y|ws' id' y Htr|ws' y|ws' rs y|o y id' r' ty d now k Hreg
                |o y id' ty d now k Hreg|i now y u jt j t0 Hi|i ok now y fr k ts Hi Hts
                |i ok now y id' sc pv at_ unreg Hi|i ok now y ws' id' Hi];
    cbn [st pool]; try done; try (by frames).
  - cbn. lia.
  - destruct (fr_audit fr); by frames.
  - subst s1. destruct unreg; by frames.
Qed.

Lemma run_sub_inv ws id r pre buffered ops y :
  Forall (quiet ws id) ops → wf y → (r < nextRef (st y))%nat →
  sub_inv ws id r pre buffered (st y) → sub_inv ws id r pre buffered (st (run ops y)).
Proof.
  revert y. induction ops as [|o ops IH]; intros y Hq Hwf Hr Hinv; [done|].
  apply Forall_cons in Hq as [Ho Hq]. rewrite run_cons.
  pose proof (step_trans o y) as T. apply IH; [done|..].
  - by eapply trans_wf.
  - pose proof (trans_nextRef _ _ _ _ _ T). lia.
  - by eapply trans_sub_inv.
Qed.

Lemma numbered_entries_ascend (l : list AuditLogEntry) :
  (∀ (i : nat) e, l !! i = Some e → sequenceNum e = Z.of_nat i + 1) →
  map sequenceNum l = seqZ 1 (Z.of_nat (length l)).
Proof.
  induction l as [|x l IH] using rev_ind; intros Hi; [done|].
  rewrite map_app, length_app, Nat.add_1_r, seqZ_snoc. cbn. f_equal.
  - apply IH. intros i e Hl. apply Hi. by apply lookup_app_l_Some.
  - f_equal. apply Hi. by rewrite lookup_app_r, Nat.sub_diag.
Qed.

Lemma subscribe_step ws id r y :
  wf y → activeAudits (st y) !! id = Some r →
  readyState (sockets (st y) ws) = OPEN →
  st (step (Message ws (CSubscribe id)) y) =
    set_sockets (snd (send_all (replay ws id (st y)) (sockets (st y))))
      (subscribed ws id (st y)) ∧
  outbox (sockets (st (step (Message ws (CSubscribe id)) y)) ws) =
    outbox (sockets (st y) ws) ++
    map (MsgEntry id) (entries (heap (st y) r)) ++ [MsgSubscribed id].
Proof.
  intros [Hs _] Hreg Hop.
  assert (Htr : truthy id = true).
  { destruct Hs as [H1 _ H3 _ _]. destruct (H1 _ _ Hreg) as [Hlt Hid].
    specialize (H3 r Hlt). unfold truthy. apply negb_true_iff, Z.eqb_neq. lia. }
  assert (Hst : st (step (Message ws (CSubscribe id)) y) =
                set_sockets (snd (send_all (replay ws id (st y)) (sockets (st y))))
                  (subscribed ws id (st y))).
  { cbn [step]. rewrite on_message_spec, Htr. done. }
  split; [done|]. rewrite Hst. cbn [sockets set_sockets].
  rewrite send_all_outbox; [|done|].
  - f_equal. rewrite (replay_registered _ _ _ r) by done.
    rewrite (omap_all_targets ws (λ m : ServerMessage, m)). apply map_id.
  - apply send_all_ok. eapply Forall_impl; [apply replay_targets|].
    intros p ->. by rewrite Hop.
Qed.

(** ** The buffer when the calls of a session do not overlap *)

Lemma pending_on_app r ts ts' : pending_on r (ts ++ ts') = pending_on r ts ++ pending_on r ts'.
Proof. unfold pending_on, calls_on_object. by rewrite frames_of_app, filter_app. Qed.

Lemma pending_on_frame r fr k :
  pending_on r [AwaitInsertEntry fr k] = if bool_decide (fr_audit fr = Some r) then [fr] else [].
Proof.
  unfold pending_on, calls_on_object.
  change (frames_of [AwaitInsertEntry fr k]) with [fr].
  case_bool_decide; [by rewrite filter_cons_True | by rewrite filter_cons_False].
Qed.

Lemma pending_on_eq r ts ts' : frames_of ts' = frames_of ts → pending_on r ts' = pending_on r ts.
Proof. unfold pending_on. by intros ->. Qed.

Lemma buffer_state_same y y' r :
  pending_on r (pool y') = pending_on r (pool y) →
  sequenceCounter (heap (st y') r) = sequenceCounter (heap (st y) r) →
  entries (heap (st y') r) = entries (heap (st y) r) →
  buffer_state y r → buffer_state y' r.
Proof. unfold buffer_state, audit_inv. by intros -> -> ->. Qed.


Lemma entries_numbered_snoc l e :
  entries_numbered l → sequenceNum e = Z.of_nat (length l) + 1 →
  entries_numbered (l ++ [e]).
Proof.
  intros Hl He i e' Hi. apply lookup_app_Some in Hi as [Hi|[Hge Hi]]; [by apply Hl|].
  apply list_lookup_singleton_Some in Hi as [Hz ->]. rewrite He. lia.
Qed.


Lemma forallb_elem_of {A} (f : A → bool) (l : list A) x :
  forallb f l = true → x ∈ l → f x = true.
Proof.
  intros Hall Hin. rewrite forallb_forall in Hall. apply Hall. by apply list_elem_of_In.
Qed.



(** ** Persisted calls *)

Lemma persisted_snoc res fr ok :
  persisted (res ++ [(fr, ok)]) = persisted res ++ (if ok then [fr_insertData fr] else []).
Proof.
  unfold persisted. rewrite filter_app, !map_app. f_equal. by destruct ok.
Qed.

Lemma persist_inv_same y y' log res :
  frames_of (pool y') = frames_of (pool y) →
  auditLogEntries (db (st y')) = auditLogEntries (db (st y)) →
  persist_inv y log res → persist_inv y' (log ++ []) (res ++ []).
Proof.
  intros Hp Hd [Hperm Hrows]. rewrite !app_nil_r. split; [by rewrite Hp|by rewrite Hd].
Qed.

Lemma persist_inv_begin y y' log res fr :
  frames_of (pool y') = frames_of (pool y) ++ [fr] →
  auditLogEntries (db (st y')) = auditLogEntries (db (st y)) →
  persist_inv y log res → persist_inv y' (log ++ [fr]) (res ++ []).
Proof.
  intros Hp Hd [Hperm Hrows]. rewrite app_nil_r. split; [|by rewrite Hd].
  by rewrite Hp, app_assoc, Hperm.
Qed.

Lemma trans_persist_inv o y y' frs res log rs :
  trans o y y' frs res → persist_inv y log rs → persist_inv y' (log ++ frs) (rs ++ res).
Proof.
  intros T Hinv.
  destruct T as [o y ts Hsub|ws y|ws id y Htr|ws y|ws rs' y|o y id r ty d now k Hreg
                |o y id ty d now k Hreg|i now y u jt j t0 Hi|i ok now y fr k ts Hi Hts
                |i ok now y id sc pv at_ unreg Hi|i ok now y ws id Hi].
  - eapply persist_inv_same; [..|exact Hinv]; by sframes.
  - eapply persist_inv_same; [..|exact Hinv]; by sframes.
  - eapply persist_inv_same; [..|exact Hinv]; by sframes.
  - cbn zeta. eapply persist_inv_same; [..|exact Hinv]; by sframes.
  - eapply persist_inv_same; [..|exact Hinv]; by sframes.
  - eapply persist_inv_begin; [..|exact Hinv]; cbn [st pool].
    + by rewrite frames_of_app.
    + by frames.
  - eapply persist_inv_begin; [..|exact Hinv]; cbn [st pool]; [|done].
    by rewrite frames_of_app.
  - eapply persist_inv_begin; [..|exact Hinv]; cbn [st pool].
    + rewrite frames_of_app. f_equal. by eapply frames_of_delete_other.
    + by frames.
  - destruct (frames_of_delete_frame _ _ _ _ Hi) as (l1 & l2 & Hp & Hp').
    destruct Hinv as [Hperm Hrows]. rewrite app_nil_r. split; cbn [st pool].
    + rewrite frames_of_app, Hts, app_nil_r, Hp', Hperm, Hp, map_app. cbn [map fst].
      rewrite <- !app_assoc. f_equiv. cbn [app]. by rewrite Permutation_middle.
    + rewrite persisted_snoc, <- Hrows.
      destruct (fr_audit fr); frames; by rewrite persist_auditLogEntries.
  - subst s1. eapply persist_inv_same; [..|exact Hinv]; cbn [st pool].
    + by eapply frames_of_delete_other.
    + by destruct unreg; frames.
  - eapply persist_inv_same; [..|exact Hinv]; cbn [st pool]; [|by frames].
    by eapply frames_of_delete_other.
Qed.

Lemma run_persist_inv ops y log res :
  persist_inv y log res →
  persist_inv (run ops y) (log ++ assigned_log ops y) (res ++ resumed_log ops y).
Proof.
  revert y log res. induction ops as [|o ops IH]; intros y log res Hinv.
  - cbn. by rewrite !app_nil_r.
  - rewrite run_cons. cbn [assigned_log resumed_log]. rewrite !app_assoc. apply IH.
    by eapply trans_persist_inv; [apply step_trans|].
Qed.

Lemma persist_inv_init : persist_inv init [] [].
Proof. by split. Qed.

Lemma rows_of_frames id (l : list LogEventFrame) :
  Forall frame_wf l →
  filter (λ r, row_auditLogId r = id) (map fr_insertData l) =
  map fr_insertData (calls_for id l).
Proof.
  unfold calls_for. induction 1 as [|fr l (_ & Hid & _) _ IH]; [done|].
  cbn [map]. rewrite !filter_cons, IH, Hid. by destruct (decide (fr_auditLogId fr = id)).
Qed.

Lemma calls_for_succeeded id (res : list (LogEventFrame * bool)) :
  (∀ p, p ∈ res → fr_auditLogId p.1 = id → p.2 = true) →
  calls_for id (map fst (filter (λ p, p.2 = true) res)) = calls_for id (map fst res).
Proof.
  unfold calls_for. induction res as [|[fr ok] res IH]; intros Hok; [done|].
  rewrite filter_cons. cbn [fst snd map].
  assert (IH' := IH (λ p Hp, Hok p (list_elem_of_further _ _ _ Hp))).
  destruct (decide (ok = true)) as [->|Hne].
  - cbn [map fst]. rewrite !filter_cons, IH'. done.
  - rewrite IH', filter_cons. destruct (decide (fr_auditLogId fr = id)) as [Hid|]; [|done].
    destruct Hne. exact (Hok (fr, ok) (list_elem_of_here _ _) Hid).
Qed.

(** An ascending arrangement of rows that are numbered consecutively is
    the numbered arrangement itself. *)
Lemma ascending_perm_consecutive (l l' : list AuditLogEntryRow) k :
  l ≡ₚ l' → ascending l →
  map row_sequenceNum l' = seqZ k (Z.of_nat (length l')) → l = l'.
Proof.
  revert l k. induction l' as [|b t' IH]; intros l k Hperm Hasc Hnum.
  - by apply Permutation_nil_r.
  - destruct l as [|a t]; [by apply Permutation_nil_cons in Hperm|].
    cbn [length map] in Hnum. rewrite Nat2Z.inj_succ, seqZ_cons in Hnum by lia.
    injection Hnum as Hb Hnum. replace (Z.pred (Z.succ _)) with (Z.of_nat (length t')) in Hnum by lia.
    assert (Hlow : ∀ z, z ∈ t' → Z.succ k ≤ row_sequenceNum z).
    { intros z Hz. assert (Hm : row_sequenceNum z ∈ map row_sequenceNum t')
        by (apply list_elem_of_fmap; eauto).
      rewrite Hnum in Hm. apply elem_of_seqZ in Hm. lia. }
    apply StronglySorted_inv in Hasc as [Hasc Hle].
    assert (Hab : a = b).
    { assert (Ha : a ∈ b :: t') by (rewrite <- Hperm; apply list_elem_of_here).
      apply elem_of_cons in Ha as [Ha|Ha]; [done|].
      assert (Hbin : b ∈ a :: t) by (rewrite Hperm; apply list_elem_of_here).
      apply elem_of_cons in Hbin as [Hbin|Hbin]; [done|].
      rewrite Forall_forall in Hle. specialize (Hle b Hbin). unfold seq_le in Hle.
      specialize (Hlow a Ha). lia. }
    subst b. f_equal. apply Permutation_cons_inv in Hperm.
    by apply (IH t (Z.succ k)).
Qed.

(** * The service against its specification *)

(** C3, as the code has it: a [logEvent] for a session that is not in
    the registry raises nothing.  It takes sequence number 1 and sends
    the row to the database: the row is stored when the insert succeeds,
    and nothing else changes (no buffer, no socket, no registry entry);
    when the insert fails the state is as before. *)
Theorem logEvent_without_active_session
    (s : State) (id : Z) (ty : AuditEventType) (data : AuditEventData)
    (now : Z) (db_ok : bool) :
  activeAudits s !! id = None →
  logEvent id ty data now db_ok s =
  (Ok tt,
   if db_ok then
     set_db {| auditLogs := auditLogs (db s);
               auditLogEntries := auditLogEntries (db s) ++
                 [{| row_auditLogId := id; row_sequenceNum := 1; row_timestamp := now;
                     row_eventType := ty; row_eventData := data |}];
               nextAuditLogId := nextAuditLogId (db s) |} s
   else s).
Proof.
  intros Hnone. rewrite logEvent_spec, Hnone. done.
Qed.

Lemma logEvent_without_active_session_witness :
  logEvent 7 error (DataError "E" "m" "c" None false) 5 true init_state =
  (Ok tt,
   set_db {| auditLogs := [];
             auditLogEntries :=
               [{| row_auditLogId := 7; row_sequenceNum := 1; row_timestamp := 5;
                   row_eventType := error;
                   row_eventData := DataError "E" "m" "c" None false |}];
             nextAuditLogId := 1 |} init_state).
Proof.
  apply (logEvent_without_active_session init_state 7 error
           (DataError "E" "m" "c" None false) 5 true).
  reflexivity.
Defined.

(** C3 as stated fails: on the empty registry, [logEvent] for session 7
    returns normally instead of raising, and a row has been stored. *)
Lemma logEvent_unknown_session_persists :
  activeAudits init_state !! 7 = None ∧
  result (logEvent 7 error (DataError "E" "m" "c" None false) 5 true) init_state = Ok tt ∧
  auditLogEntries (db (exec (logEvent 7 error (DataError "E" "m" "c" None false) 5 true)
                         init_state)) =
    [{| row_auditLogId := 7; row_sequenceNum := 1; row_timestamp := 5;
        row_eventType := error; row_eventData := DataError "E" "m" "c" None false |}] ∧
  exec (logEvent 7 error (DataError "E" "m" "c" None false) 5 true) init_state ≠ init_state.
Proof.
  split; [reflexivity|]. split; [reflexivity|]. split; [reflexivity|].
  intros H. apply (f_equal (λ s, length (auditLogEntries (db s)))) in H.
  vm_compute in H. discriminate.
Qed.

(** A [logEvent] call on a registered session that is awaited and
    resumed before anything else runs: with a failed insert it returns
    normally, the counter is one higher, the entry is the last of the
    buffer, every subscriber whose socket is open has it as its last
    message, and the whole state is the one of the successful path but
    for the database. *)
Lemma logEvent_awaited_insert_failure
    (s : State) (id : Z) (r : Ref) (ty : AuditEventType) (data : AuditEventData)
    (now : Z) :
  activeAudits s !! id = Some r →
  NoDup (subscribers (heap s r)) →
  let a := heap s r in
  let entry := {| sequenceNum := sequenceCounter a + 1; timestamp := now;
                  eventType := ty; eventData := data |} in
  let s' := exec (logEvent id ty data now false) s in
  result (logEvent id ty data now false) s = Ok tt ∧
  sequenceCounter (heap s' r) = sequenceCounter a + 1 ∧
  entries (heap s' r) = entries a ++ [entry] ∧
  (∀ ws, ws ∈ subscribers a → readyState (sockets s ws) = OPEN →
     outbox (sockets s' ws) = outbox (sockets s ws) ++ [MsgEntry id entry]) ∧
  s' = set_db (db s) (exec (logEvent id ty data now true) s).
Proof.
  intros Hreg Hnd a entry s'. subst s'. unfold exec, result.
  rewrite !logEvent_spec, Hreg. cbn [fst snd].
  unfold publish, push, persist, stamp. cbn. rewrite Hreg, !upd_eq. cbn.
  repeat split; rewrite ?upd_eq; cbn; rewrite ?upd_eq; try done.
  intros ws Hin Hop. by apply deliver_open.
Qed.

(** C4, as the code has it.  In any state the event loop can reach:
    a [logEvent] call on a registered session increments the counter
    before its insert is awaited; and when a suspended [logEvent] call
    that found an [ActiveAudit] is resumed with a failed insert, under
    whatever interleaving, the state is the one a successful insert
    leaves but for the database, which is untouched, and the same calls
    remain suspended.  The counter has counted the call and is not set
    back, and the entry is appended to the buffer of the [ActiveAudit]
    the call found.  [broadcastEntry] looks the session up again: if it
    is still registered, every subscriber whose socket is open is sent
    the entry; if it has been completed in the meantime, nobody is. *)
Theorem logEvent_insert_failure_still_delivers
    (ops : list Op) (i : nat) (fr : LogEventFrame) (k : Caller) (r : Ref) (now : Z) :
  let y := run ops init in
  pool y !! i = Some (AwaitInsertEntry fr k) →
  fr_audit fr = Some r →
  let y0 := step (Resume i false now) y in
  let y1 := step (Resume i true now) y in
  (∀ id r' ty data t,
     activeAudits (st y) !! id = Some r' →
     let yc := step (CallLogEvent id ty data t) y in
     sequenceCounter (heap (st yc) r') = sequenceCounter (heap (st y) r') + 1 ∧
     pool yc = pool y ++
       [AwaitInsertEntry
          (frame_of id (Some r') (sequenceCounter (heap (st y) r') + 1) ty data t)
          FromOutside]) ∧
  st y0 = set_db (db (st y)) (st y1) ∧
  pool y0 = pool y1 ∧
  1 ≤ sequenceNum (fr_entry fr) ≤ sequenceCounter (heap (st y) r) ∧
  sequenceCounter (heap (st y0) r) = sequenceCounter (heap (st y) r) ∧
  entries (heap (st y0) r) = entries (heap (st y) r) ++ [fr_entry fr] ∧
  (∀ r', activeAudits (st y) !! fr_auditLogId fr = Some r' →
     ∀ ws, ws ∈ subscribers (heap (st y) r') →
           readyState (sockets (st y) ws) = OPEN →
           outbox (sockets (st y0) ws) =
           outbox (sockets (st y) ws) ++ [MsgEntry (fr_auditLogId fr) (fr_entry fr)]) ∧
  (activeAudits (st y) !! fr_auditLogId fr = None → sockets (st y0) = sockets (st y)).
Proof.
  intros y Hi Haud y0 y1.
  pose proof (run_wf ops init wf_init) as [Hs Hfp]. fold y in Hs, Hfp.
  pose proof (run_log_inv ops init [] wf_init log_inv_init) as (Hf & _ & Hl).
  pose proof (run_persist_inv ops init [] [] persist_inv_init) as [Hperm _].
  rewrite app_nil_l in Hf, Hl, Hperm. fold y in Hf, Hl, Hperm.
  assert (Hin : fr ∈ frames_of (pool y)).
  { unfold frames_of. apply list_elem_of_omap. exists (AwaitInsertEntry fr k).
    split; [by eapply list_elem_of_lookup_2|done]. }
  destruct (Hfp _ _ Hin Haud) as [Hlt _].
  assert (Hst : ∀ ok, st (step (Resume i ok now) y) =
                      publish (fr_auditLogId fr) (fr_entry fr)
                        (push r (fr_entry fr) (persist (fr_insertData fr) ok (st y)))).
  { intros ok. cbn [step]. rewrite Hi. cbn [resume].
    rewrite logEvent_resume_spec, Haud. by destruct k. }
  assert (Hpool : ∀ ok, pool (step (Resume i ok now) y) =
                        pool (step (Resume i true now) y)).
  { intros ok. cbn [step]. rewrite Hi. cbn [resume].
    rewrite !logEvent_resume_spec. by destruct k. }
  split; [|split; [|split; [|split; [|split; [|split; [|split]]]]]].
  - intros id r' ty data t Hreg yc. unfold yc. cbn [step].
    rewrite logEvent_begin_spec, Hreg. cbn [st pool].
    by rewrite stamp_sequenceCounter, bool_decide_eq_true_2.
  - unfold y0, y1. rewrite !Hst. unfold publish, push, persist. cbn.
    by destruct (activeAudits (st y) !! fr_auditLogId fr).
  - apply Hpool.
  - destruct (Hl r Hlt) as [Hc Hn].
    assert (Hm : sequenceNum (fr_entry fr) ∈
                 numbers (calls_on_object r (assigned_log ops init))).
    { unfold numbers. apply (list_elem_of_fmap_2 (λ fr, sequenceNum (fr_entry fr))).
      apply list_elem_of_filter. split; [done|].
      rewrite Hperm. apply elem_of_app. by right. }
    rewrite Hn in Hm. apply elem_of_seqZ in Hm. lia.
  - unfold y0. rewrite Hst. by frames.
  - unfold y0. rewrite Hst. frames. by rewrite push_entries, bool_decide_eq_true_2.
  - intros r' Hreg ws Hws Hop. unfold y0. rewrite Hst.
    rewrite (publish_outbox_open _ _ _ r'); frames; try done.
    destruct Hs as [_ _ _ _ H5]. apply H5.
  - intros Hnone. unfold y0. rewrite Hst. unfold publish. frames. by rewrite Hnone.
Qed.

Lemma logEvent_insert_failure_still_delivers_witness :
  let y := run [CallStartAudit 7 "reconstruction" None 100; Resume 0 true 101;
                Resume 0 true 102; Connection 5; Message 5 (CSubscribe 1);
                CallLogEvent 1 error (DataError "E" "m" "c" None true) 110] init in
  let fr := frame_of 1 (Some 0%nat) 2 error (DataError "E" "m" "c" None true) 110 in
  let y0 := step (Resume 0 false 111) y in
  st y0 = set_db (db (st y)) (st (step (Resume 0 true 111) y)) ∧
  entries (heap (st y0) 0%nat) = entries (heap (st y) 0%nat) ++ [fr_entry fr] ∧
  outbox (sockets (st y0) 5%nat) =
    outbox (sockets (st y) 5%nat) ++ [MsgEntry 1 (fr_entry fr)].
Proof.
  intros y fr y0.
  destruct (logEvent_insert_failure_still_delivers
              [CallStartAudit 7 "reconstruction" None 100; Resume 0 true 101;
               Resume 0 true 102; Connection 5; Message 5 (CSubscribe 1);
               CallLogEvent 1 error (DataError "E" "m" "c" None true) 110]
              0 fr FromOutside 0%nat 111 eq_refl eq_refl)
    as (_ & H1 & _ & _ & _ & H2 & H3 & _).
  split; [exact H1|]. split; [exact H2|].
  apply (H3 0%nat eq_refl 5%nat); [|reflexivity].
  change (5%nat ∈ [5%nat]). apply list_elem_of_here.
Defined.

(** C4 as stated fails: [logEvent] is called for session 1 while it is
    registered and socket 5 is its open subscriber; the session is
    completed while the call is suspended, and then the insert of the
    call fails.  The entry, number 2, is appended to the buffer, but it
    is never sent to the subscriber, which has been sent the entries 1
    and 3 and whose socket is still open. *)
Lemma logEvent_completed_meanwhile_not_broadcast :
  let y := step (CallLogEvent 1 error (DataError "E" "m" "c" None true) 110) demo_session in
  let y' := run [CallCompleteAudit 1 true None None None 120; Resume 1 true 121;
                 Resume 1 true 122; Resume 0 false 123] y in
  activeAudits (st demo_session) !! 1 = Some 0%nat ∧
  subscribers (heap (st demo_session) 0%nat) = [5%nat] ∧
  sequenceCounter (heap (st y) 0%nat) = 2 ∧
  pool y' = [] ∧
  readyState (sockets (st y') 5%nat) = OPEN ∧
  map sequenceNum (entries (heap (st y') 0%nat)) = [1; 3; 2] ∧
  map sequenceNum (received 1 5 (st y')) = [1; 3].
Proof. repeat split; reflexivity. Qed.

(** C9: [logDbQuery] logs a [db_query] event whose [sql] is the first
    500 characters of its argument, [logLlmCall] an [llm_call] event
    whose two previews are the first 200 characters of theirs; the other
    fields are the arguments.  When the insert succeeds, the row with
    that payload is the last row of the table. *)
Theorem helpers_truncate_previews
    (s : State) (id : Z) (now : Z) (db_ok : bool)
    (sql table : string) (operation : SqlOperation) (rowsReturned durationMs : Z)
    (params : option (list JsValue))
    (model purpose : string) (inputTokens outputTokens : Z)
    (promptPreview responsePreview : string) (llmMs : Z) (chunkIndex : option Z) :
  let sql' := String.substring 0 500 sql in
  let prompt' := String.substring 0 200 promptPreview in
  let response' := String.substring 0 200 responsePreview in
  let query := DataDbQuery sql' params table operation rowsReturned durationMs in
  let call := DataLlmCall model purpose chunkIndex inputTokens outputTokens
                prompt' response' llmMs in
  (String.length sql' ≤ 500)%nat ∧
  (String.length prompt' ≤ 200)%nat ∧
  (String.length response' ≤ 200)%nat ∧
  ((String.length sql ≤ 500)%nat → sql' = sql) ∧
  ((String.length promptPreview ≤ 200)%nat → prompt' = promptPreview) ∧
  ((String.length responsePreview ≤ 200)%nat → response' = responsePreview) ∧
  logDbQuery id sql table operation rowsReturned durationMs params now db_ok =
    logEvent id db_query query now db_ok ∧
  logLlmCall id model purpose inputTokens outputTokens promptPreview responsePreview
      llmMs chunkIndex now db_ok =
    logEvent id llm_call call now db_ok ∧
  (∃ n, last (auditLogEntries (db (exec
           (logDbQuery id sql table operation rowsReturned durationMs params now true) s)))
        = Some {| row_auditLogId := id; row_sequenceNum := n; row_timestamp := now;
                  row_eventType := db_query; row_eventData := query |}) ∧
  (∃ n, last (auditLogEntries (db (exec
           (logLlmCall id model purpose inputTokens outputTokens promptPreview
              responsePreview llmMs chunkIndex now true) s)))
        = Some {| row_auditLogId := id; row_sequenceNum := n; row_timestamp := now;
                  row_eventType := llm_call; row_eventData := call |}).
Proof.
  intros sql' prompt' response' query call.
  assert (Hq : logDbQuery id sql table operation rowsReturned durationMs params now db_ok =
               logEvent id db_query query now db_ok).
  { unfold logDbQuery, query, sql'. by rewrite js_substring_0. }
  assert (Hl : logLlmCall id model purpose inputTokens outputTokens promptPreview
                 responsePreview llmMs chunkIndex now db_ok =
               logEvent id llm_call call now db_ok).
  { unfold logLlmCall, call, prompt', response'. by rewrite !js_substring_0. }
  split; [unfold sql'; rewrite substring_0_length; lia|].
  split; [unfold prompt'; rewrite substring_0_length; lia|].
  split; [unfold response'; rewrite substring_0_length; lia|].
  split; [apply substring_0_all|].
  split; [apply substring_0_all|].
  split; [apply substring_0_all|].
  split; [exact Hq|]. split; [exact Hl|].
  split.
  - unfold logDbQuery. rewrite js_substring_0. fold sql' query.
    unfold exec. rewrite logEvent_spec. cbn [snd].
    destruct (activeAudits s !! id) as [r|]; eexists.
    + unfold publish. cbn.
      destruct (activeAudits _ !! _); cbn; by rewrite last_snoc.
    + cbn. by rewrite last_snoc.
  - unfold logLlmCall. rewrite !js_substring_0. fold prompt' response' call.
    unfold exec. rewrite logEvent_spec. cbn [snd].
    destruct (activeAudits s !! id) as [r|]; eexists.
    + unfold publish. cbn.
      destruct (activeAudits _ !! _); cbn; by rewrite last_snoc.
    + cbn. by rewrite last_snoc.
Qed.

(** C8: for a session that has a row in [auditLogs], the report is that
    row, all rows of the session in [auditLogEntries] (each exactly
    once, in ascending order of sequence number), and a summary that
    counts them: [totalEvents] is their number and every tally is the
    number of the session's rows of that event type. *)
Theorem getFullAuditReport_counts (s : State) (id : Z) (log : AuditLogRow) :
  select_log id (db s) = Some log →
  ∃ rep,
    getFullAuditReport id true true s = (Ok (Some rep), s) ∧
    rep_log rep = log ∧ log_id log = id ∧
    rep_entries rep ≡ₚ rows_of id (db s) ∧
    ascending (rep_entries rep) ∧
    totalEvents (rep_summary rep) = Z.of_nat (length (rows_of id (db s))) ∧
    dbQueries (rep_summary rep) = events_of_type id db_query (db s) ∧
    dbInserts (rep_summary rep) = events_of_type id db_insert (db s) ∧
    dbUpdates (rep_summary rep) = events_of_type id db_update (db s) ∧
    llmCalls (rep_summary rep) = events_of_type id llm_call (db s) ∧
    chunksProcessed (rep_summary rep) = events_of_type id chunk_processed (db s) ∧
    errors (rep_summary rep) = events_of_type id error (db s).
Proof.
  intros Hlog. eexists.
  unfold getFullAuditReport, getAuditLog, getAuditEntries.
  rewrite bind_gets, Hlog, bind_gets. split; [reflexivity|]. cbn.
  split; [done|]. split.
  { unfold select_log in Hlog. apply head_Some_elem_of in Hlog.
    by apply list_elem_of_filter in Hlog as [? _]. }
  split; [apply select_entries_perm|].
  split; [apply order_by_seq_ascending|].
  split; [by rewrite select_entries_perm|].
  unfold events_of_type.
  repeat split; apply count_type_perm, select_entries_perm.
Qed.

Lemma getFullAuditReport_counts_witness :
  ∃ rep,
    getFullAuditReport 1 true true (st demo_session) = (Ok (Some rep), st demo_session) ∧
    log_jobType (rep_log rep) = "reconstruction"%string ∧
    totalEvents (rep_summary rep) = 1 ∧
    errors (rep_summary rep) = 0.
Proof.
  destruct (getFullAuditReport_counts (st demo_session) 1
              {| log_id := 1; log_userId := 7; log_jobType := "reconstruction";
                 log_jobId := None; log_startedAt := 100; log_completedAt := None;
                 log_status := running; log_finalOutputPreview := None |} eq_refl)
    as (rep & Hrun & Hlog & _ & _ & _ & Htotal & _ & _ & _ & _ & _ & Herr).
  exists rep. split; [exact Hrun|]. split; [by rewrite Hlog|].
  split; [exact Htotal | exact Herr].
Defined.

(** C7: once the [close] handler has run for a socket that was
    subscribed to a session, the socket is out of the session's
    subscriber set, and it stays out whatever happens afterwards, as long
    as the closed connection sends no message.  A publish for the session
    then leaves the socket as it is.  And [broadcastEntry] raises nothing
    in any state at all, whatever the [readyState] of the subscribers. *)
Theorem publish_skips_unsubscribed
    (y : Sys) (ws : WebSocket) (id : Z) (ops : list Op) :
  clientConnections (st y) !! ws = Some (Some id) →
  Forall (λ o, ∀ m, o ≠ Message ws m) ops →
  let s1 := st (run ops (step (Close ws) y)) in
  not_subscribed ws id s1 ∧
  (∀ entry, sockets (exec (broadcastEntry id entry) s1) ws = sockets s1 ws) ∧
  (∀ s id' entry, result (broadcastEntry id' entry) s = Ok tt).
Proof.
  intros Hcc Hops s1.
  assert (Hns : not_subscribed ws id s1).
  { apply run_not_subscribed; [done|]. cbn [step st].
    unfold exec, set_readyState. rewrite bind_modify.
    apply (on_close_not_subscribed ws id). done. }
  split; [done|]. split.
  - intros entry. unfold exec. rewrite broadcastEntry_publish. cbn [snd].
    unfold publish. destruct (activeAudits s1 !! id) as [r|] eqn:E; [|done].
    cbn. apply deliver_not_in. by apply Hns.
  - intros s id' entry. unfold result. by rewrite broadcastEntry_publish.
Qed.

Lemma publish_skips_unsubscribed_witness :
  let s1 := st (run [CallLogEvent 1 error (DataError "E" "m" "c" None false) 120;
                     Resume 0 true 121]
                  (step (Close 5) demo_session)) in
  not_subscribed 5 1 s1 ∧
  (∀ entry, sockets (exec (broadcastEntry 1 entry) s1) 5%nat = sockets s1 5%nat) ∧
  (∀ s id' entry, result (broadcastEntry id' entry) s = Ok tt).
Proof.
  apply (publish_skips_unsubscribed demo_session 5 1
           [CallLogEvent 1 error (DataError "E" "m" "c" None false) 120;
            Resume 0 true 121]).
  - reflexivity.
  - repeat constructor; discriminate.
Defined.

(** C5, as the code has it: of two awaited calls of [completeAudit] for
    a registered session, the first sends every open subscriber the
    [job_completed] entry and then one [completed] notification, and
    removes the session from the registry; the second sends nothing and
    leaves the registry, the clients, the objects and the sockets as they
    are.  The second call still writes to the database: it inserts one
    more [job_completed] row, numbered 1 and of job type "unknown", and
    runs the status update again. *)
Theorem completeAudit_twice
    (s : State) (id : Z) (r : Ref)
    (success : bool) (preview : option string) (actualWords targetWords : option Z)
    (now at_ : Z) (db_ok1 db_ok2 : bool)
    (success' : bool) (preview' : option string) (actualWords' targetWords' : option Z)
    (now' at' : Z) (db_ok1' db_ok2' : bool) :
  activeAudits s !! id = Some r →
  NoDup (subscribers (heap s r)) →
  (∀ ws, ws ∈ subscribers (heap s r) → readyState (sockets s ws) ≠ CONNECTING) →
  let first := completeAudit id success preview actualWords targetWords now at_
                 db_ok1 db_ok2 in
  let second := completeAudit id success' preview' actualWords' targetWords' now' at'
                  db_ok1' db_ok2' in
  let s1 := exec first s in
  let s2 := exec second s1 in
  let jt := if bool_decide (jobType (heap s r) = ""%string)
            then "unknown"%string else jobType (heap s r) in
  let entry := {| sequenceNum := sequenceCounter (heap s r) + 1; timestamp := now;
                  eventType := job_completed;
                  eventData := DataJobCompleted jt targetWords actualWords success |} in
  let total := Z.of_nat (length (entries (heap s r))) + 1 in
  result first s = Ok tt ∧
  activeAudits s1 = delete id (activeAudits s) ∧
  (∀ ws, ws ∈ subscribers (heap s r) → readyState (sockets s ws) = OPEN →
     outbox (sockets s1 ws) =
     outbox (sockets s ws) ++ [MsgEntry id entry; MsgCompleted id success total]) ∧
  result second s1 = Ok tt ∧
  activeAudits s2 = activeAudits s1 ∧
  clientConnections s2 = clientConnections s1 ∧
  heap s2 = heap s1 ∧
  sockets s2 = sockets s1 ∧
  auditLogEntries (db s2) =
    auditLogEntries (db s1) ++
    (if db_ok1'
     then [{| row_auditLogId := id; row_sequenceNum := 1; row_timestamp := now';
              row_eventType := job_completed;
              row_eventData :=
                DataJobCompleted "unknown" targetWords' actualWords' success' |}]
     else []) ∧
  auditLogs (db s2) =
    (if db_ok2'
     then map (update_row id at' (if success' then completed else failed)
                 (option_map (λ p, js_substring p 0 500) preview'))
              (auditLogs (db s1))
     else auditLogs (db s1)).
Proof.
  intros Hreg Hnd Hconn first second s1 s2 jt entry total.
  pose proof (completeAudit_registered id r success preview actualWords targetWords
                now at_ db_ok1 db_ok2 s Hreg Hconn) as H1.
  cbn zeta in H1. fold jt in H1.
  assert (Hnone : activeAudits s1 !! id = None).
  { unfold s1, exec, first. rewrite H1. cbn. apply lookup_delete_eq. }
  pose proof (completeAudit_unregistered id success' preview' actualWords' targetWords'
                now' at' db_ok1' db_ok2' s1 Hnone) as H2.
  split; [unfold result, first; by rewrite H1|].
  split; [unfold s1, exec, first; by rewrite H1|].
  split.
  { intros ws Hin Hop. unfold s1, exec, first. rewrite H1. cbn [snd sockets set_activeAudits
      set_sockets].
    rewrite send_all_outbox.
    - unfold notifications. frames. rewrite Hreg. frames.
      rewrite omap_targets by done. rewrite bool_decide_eq_true_2 by done.
      rewrite (publish_outbox_open _ _ _ r) by (by frames). frames.
      rewrite push_entries, bool_decide_eq_true_2 by done. frames.
      rewrite <- app_assoc. cbn [app]. do 3 f_equal. unfold total.
      rewrite length_app. cbn. f_equal. lia.
    - rewrite publish_readyState. by frames.
    - apply send_all_ok. unfold notifications. frames. rewrite Hreg. frames.
      apply Forall_map, Forall_forall. intros w Hw. cbn.
      rewrite publish_readyState. frames. by apply Hconn. }
  split; [unfold result, second; by rewrite H2|].
  unfold s2, exec, second. rewrite H2. cbn [snd].
  repeat split; try done.
  - cbn [db set_db]. by rewrite persist_status_auditLogEntries, persist_auditLogEntries.
  - cbn [db set_db]. unfold persist_status.
    destruct db_ok2'; cbn; by rewrite persist_auditLogs.
Qed.

Lemma completeAudit_twice_witness :
  let first := completeAudit 1 true None None None 200 201 true true in
  let second := completeAudit 1 false None None None 300 301 true true in
  let s1 := exec first (st demo_session) in
  let s2 := exec second s1 in
  result first (st demo_session) = Ok tt ∧
  result second s1 = Ok tt ∧
  activeAudits s2 = activeAudits s1 ∧
  sockets s2 = sockets s1.
Proof.
  intros first second s1 s2.
  assert (Hreg : activeAudits (st demo_session) !! 1 = Some 0%nat) by reflexivity.
  assert (Hnd : NoDup (subscribers (heap (st demo_session) 0%nat))).
  { change (NoDup [5%nat]). apply NoDup_singleton. }
  assert (Hconn : ∀ ws, ws ∈ subscribers (heap (st demo_session) 0%nat) →
                        readyState (sockets (st demo_session) ws) ≠ CONNECTING).
  { intros ws Hin. change (ws ∈ [5%nat]) in Hin.
    apply list_elem_of_singleton in Hin as ->. discriminate. }
  destruct (completeAudit_twice (st demo_session) 1 0%nat
              true None None None 200 201 true true
              false None None None 300 301 true true Hreg Hnd Hconn)
    as (H1 & _ & _ & H2 & H3 & _ & _ & H4 & _).
  split; [exact H1|]. split; [exact H2|]. split; [exact H3 | exact H4].
Defined.

(** C5 as stated fails: the second [completeAudit] is no no-op and
    there are two durable status updates.  After the second call the
    table holds a third row, numbered 1 again, and the session's row has
    gone from [completed] at time 201 to [failed] at time 301. *)
Lemma completeAudit_second_call_writes :
  let first := completeAudit 1 true None None None 200 201 true true in
  let second := completeAudit 1 false None None None 300 301 true true in
  let s1 := exec first (st demo_session) in
  let s2 := exec second s1 in
  map row_sequenceNum (auditLogEntries (db s1)) = [1; 2] ∧
  map row_sequenceNum (auditLogEntries (db s2)) = [1; 2; 1] ∧
  map (λ l, (log_status l, log_completedAt l)) (auditLogs (db s1)) = [(completed, Some 201)] ∧
  map (λ l, (log_status l, log_completedAt l)) (auditLogs (db s2)) = [(failed, Some 301)] ∧
  s2 ≠ s1.
Proof.
  intros first second s1 s2.
  split; [reflexivity|]. split; [reflexivity|]. split; [reflexivity|].
  split; [reflexivity|].
  intros H. apply (f_equal (λ s, length (auditLogEntries (db s)))) in H.
  vm_compute in H. discriminate.
Qed.




(** C6, as the code has it: take any run of the event loop from process
    start, whatever the interleaving, in which every [logEvent] call for
    session [id] was made while an [ActiveAudit] was registered for it,
    every such call has returned, and each of their inserts succeeded.
    Then [getAuditEntries] returns exactly the rows of these calls, in
    the order the calls were made: as many rows as calls, numbered
    1, 2, 3, ... and so ascending. *)
Theorem getAuditEntries_submission_order (ops : list Op) (id : Z) :
  settled id ops init = true →
  let y := run ops init in
  let calls := calls_for id (assigned_log ops init) in
  getAuditEntries id true (st y) = (Ok (map fr_insertData calls), st y) ∧
  length (map fr_insertData calls) = length calls ∧
  map row_sequenceNum (map fr_insertData calls) = seqZ 1 (Z.of_nat (length calls)) ∧
  ascending (map fr_insertData calls).
Proof.
  intros Hset y calls.
  apply andb_true_iff in Hset as [Hset Hpool]. apply andb_true_iff in Hset as [Hreg Hok].
  pose proof (run_wf ops init wf_init) as [Hs _].
  pose proof (run_log_inv ops init [] wf_init log_inv_init) as (Hf & Hw & Hl).
  pose proof (run_persist_inv ops init [] [] persist_inv_init) as [Hperm Hrows].
  rewrite app_nil_l in Hf, Hw, Hl, Hperm, Hrows.
  set (log := assigned_log ops init) in *. set (res := resumed_log ops init) in *.
  fold y in Hs, Hf, Hl, Hperm, Hrows, Hpool.
  assert (Hcalls : calls = calls_on id log).
  { apply filter_agree. intros fr Hin. split; [|by intros [? _]].
    intros Hid. split; [done|].
    pose proof (forallb_elem_of _ _ _ Hreg Hin) as H. cbn in H.
    apply bool_decide_eq_true_1 in H. by apply H. }
  assert (Hnum : map row_sequenceNum (map fr_insertData calls) =
                 seqZ 1 (Z.of_nat (length calls))).
  { transitivity (numbers calls).
    - unfold numbers. rewrite map_map. apply map_ext_Forall.
      apply Forall_forall. intros fr Hin. apply list_elem_of_filter in Hin as [_ Hin].
      rewrite Forall_forall in Hw. by destruct (Hw fr Hin) as (H & _).
    - rewrite Hcalls.
      destruct (calls_on_one_object _ log id Hs Hf) as [-> | (r & Hr & ->)]; [done|].
      by apply Hl. }
  assert (Hsel : select_entries id (db (st y)) ≡ₚ map fr_insertData calls).
  { rewrite select_entries_perm. unfold rows_of. rewrite Hrows. unfold persisted.
    assert (Hwres : Forall frame_wf (map fst res)).
    { apply Forall_forall. intros fr Hin. rewrite Forall_forall in Hw. apply Hw.
      rewrite Hperm. apply elem_of_app. by left. }
    rewrite rows_of_frames.
    2:{ apply Forall_forall. intros fr Hin. rewrite Forall_forall in Hwres. apply Hwres.
        apply list_elem_of_fmap in Hin as (p & -> & Hp).
        apply list_elem_of_filter in Hp as [_ Hp]. apply list_elem_of_fmap. eauto. }
    rewrite calls_for_succeeded.
    2:{ intros p Hp Hid. pose proof (forallb_elem_of _ _ _ Hok Hp) as H. cbn in H.
        apply bool_decide_eq_true_1 in H. by apply H. }
    apply fmap_Permutation. unfold calls, calls_for. rewrite Hperm, filter_app.
    rewrite (filter_none _ (frames_of (pool y))), app_nil_r; [done|].
    intros fr Hin. pose proof (forallb_elem_of _ _ _ Hpool Hin) as H. cbn in H.
    by apply bool_decide_eq_true_1 in H. }
  assert (Heq : select_entries id (db (st y)) = map fr_insertData calls).
  { apply (ascending_perm_consecutive _ _ 1); [done|apply order_by_seq_ascending|].
    by rewrite Hnum, !length_map. }
  split; [|split; [|split]].
  - unfold getAuditEntries, gets. by rewrite Heq.
  - apply length_map.
  - exact Hnum.
  - rewrite <- Heq. apply order_by_seq_ascending.
Qed.

Lemma getAuditEntries_submission_order_witness :
  ∃ rows, getAuditEntries 1 true (st (run two_sessions init)) =
            (Ok rows, st (run two_sessions init)) ∧
          map (λ r, (row_eventType r, row_sequenceNum r)) rows =
            [(job_started, 1); (chunk_processed, 2); (chunk_processed, 3)].
Proof.
  destruct (getAuditEntries_submission_order two_sessions 1 eq_refl) as [H _].
  eexists. split; [exact H|reflexivity].
Defined.

(** C6 as stated fails: session 1 is started, completed, and logged to
    once more; all three inserts succeed.  The table holds the three
    events in the order of submission, but the late event has number 1
    again, so that order is not ascending, and the ordered select puts
    the late event before [job_completed]. *)
Lemma getAuditEntries_after_completion_out_of_order :
  map (λ r, (row_eventType r, row_sequenceNum r)) (rows_of 1 (db logged_after_completion)) =
    [(job_started, 1); (job_completed, 2); (error, 1)] ∧
  ¬ ascending (rows_of 1 (db logged_after_completion)) ∧
  getAuditEntries 1 true logged_after_completion =
    (Ok (select_entries 1 (db logged_after_completion)), logged_after_completion) ∧
  map (λ r, (row_eventType r, row_sequenceNum r))
      (select_entries 1 (db logged_after_completion)) =
    [(job_started, 1); (error, 1); (job_completed, 2)].
Proof.
  split; [reflexivity|]. split; [|split; reflexivity].
  intros Hs. remember (rows_of 1 (db logged_after_completion)) as l eqn:E.
  vm_compute in E. subst l.
  apply StronglySorted_inv in Hs as [Hs _].
  apply StronglySorted_inv in Hs as [_ Hs].
  apply Forall_cons in Hs as [Hs _]. unfold seq_le in Hs. cbn in Hs. lia.
Qed.

(** C2, as the code has it: along any run of the event loop from process
    start, whatever the interleaving, the [logEvent] calls made for a
    session while an [ActiveAudit] is registered for it take the numbers
    1, 2, 3, ... in the order of the calls; a call that finds no
    [ActiveAudit] takes number 1; and the row of a call carries the
    number of its entry. *)
Theorem sequence_numbers_while_registered (ops : list Op) (id : Z) :
  let log := assigned_log ops init in
  numbers (calls_on id log) = seqZ 1 (Z.of_nat (length (calls_on id log))) ∧
  Forall (λ fr, fr_audit fr = None → sequenceNum (fr_entry fr) = 1) log ∧
  Forall (λ fr, row_sequenceNum (fr_insertData fr) = sequenceNum (fr_entry fr)) log.
Proof.
  intros log.
  pose proof (run_wf ops init wf_init) as [Hs _].
  pose proof (run_log_inv ops init [] wf_init log_inv_init) as (Hf & Hw & Hl).
  rewrite app_nil_l in Hf, Hw, Hl. fold log in Hf, Hw, Hl.
  split; [|split].
  - destruct (calls_on_one_object _ log id Hs Hf) as [-> | (r & Hr & ->)]; [done|].
    by apply Hl.
  - eapply Forall_impl; [exact Hw|]. by intros fr (_ & _ & H).
  - eapply Forall_impl; [exact Hw|]. by intros fr (H & _).
Qed.

(** C2 as stated fails: session 1 is started and completed, and
    [logEvent] is called for it once more.  The three calls for session
    1 take the numbers 1, 2 and 1 again. *)
Lemma sequence_number_repeats_after_completion :
  numbers (calls_for 1 (assigned_log completed_then_logged init)) = [1; 2; 1] ∧
  map (λ r, (row_auditLogId r, row_sequenceNum r))
      (auditLogEntries (db (st (run (completed_then_logged ++ [Resume 0 true 301]) init)))) =
    [(1, 1); (1, 2); (1, 1)].
Proof. split; reflexivity. Qed.

(** C1, as the code has it.  In any state the event loop can reach, let
    an open socket subscribe to a registered session.  In that one step
    and before anything else can run, the socket is sent the buffered
    entries in buffer order and then [subscribed], and it becomes a
    subscriber.  From then on, under any interleaving in which the
    socket stays open and does not subscribe to the session again, and
    for as long as the session is registered, the buffer only grows and
    the entries the socket has been sent for the session since it
    subscribed are exactly the buffer: the entries buffered at
    subscription followed by every entry published later, each once and
    in the order of publication.  The buffer order is ascending sequence
    number 1, 2, 3, ... when the buffer invariant holds at subscription,
    that is when no [logEvent] calls of the session have overlapped. *)
Theorem subscriber_receives_buffer_then_live
    (ops0 : list Op) (ws : WebSocket) (id : Z) (r : Ref) (ops : list Op) :
  let y := run ops0 init in
  activeAudits (st y) !! id = Some r →
  readyState (sockets (st y) ws) = OPEN →
  Forall (quiet ws id) ops →
  let y1 := step (Message ws (CSubscribe id)) y in
  let y2 := run ops y1 in
  let buffered := entries (heap (st y) r) in
  outbox (sockets (st y1) ws) =
    outbox (sockets (st y) ws) ++ map (MsgEntry id) buffered ++ [MsgSubscribed id] ∧
  ws ∈ subscribers (heap (st y1) r) ∧
  (activeAudits (st y2) !! id = Some r →
   ∃ live, entries (heap (st y2) r) = buffered ++ live ∧
           received id ws (st y2) = received id ws (st y) ++ buffered ++ live) ∧
  (audit_inv (heap (st y) r) →
   map sequenceNum buffered = seqZ 1 (Z.of_nat (length buffered))).
Proof.
  intros y Hreg Hop Hq y1 y2 buffered.
  assert (Hwf : wf y) by apply run_wf, wf_init.
  destruct (subscribe_step ws id r y Hwf Hreg Hop) as [Hst Hout].
  assert (Hwf1 : wf y1) by (eapply trans_wf; [apply step_trans|done]).
  assert (Hr : (r < nextRef (st y))%nat).
  { destruct Hwf as [[H1 _ _ _ _] _]. by destruct (H1 _ _ Hreg). }
  assert (Hin : ws ∈ subscribers (heap (st y1) r)).
  { unfold y1. rewrite Hst. frames. rewrite subscribed_heap, bool_decide_eq_true_2 by done.
    cbn. apply elem_of_Set_add. by left. }
  assert (Hinv1 : sub_inv ws id r (received id ws (st y)) buffered (st y1)).
  { intros _. split; [done|]. split; [|split].
    - unfold y1. rewrite Hst. frames. by rewrite send_all_readyState.
    - unfold received, y1. rewrite Hout, !entries_for_app, entries_for_map_entry.
      rewrite Hst. frames. cbn. by rewrite app_nil_r.
    - unfold y1. rewrite Hst. by frames. }
  split; [done|]. split; [done|]. split.
  - intros Hreg2.
    assert (Hr1 : (r < nextRef (st y1))%nat).
    { unfold y1. rewrite Hst. by frames. }
    destruct (run_sub_inv ws id r _ buffered ops y1 Hq Hwf1 Hr1 Hinv1 Hreg2)
      as (_ & _ & Hrec & [live Hlive]).
    fold y2 in Hrec, Hlive. exists live. split; [done|]. by rewrite Hrec, Hlive.
  - intros [_ Hi]. by apply numbered_entries_ascend.
Qed.

Lemma subscriber_receives_buffer_then_live_witness :
  let y := run before_join init in
  let y2 := run after_join (step (Message 5 (CSubscribe 1)) y) in
  ∃ live, entries (heap (st y2) 0%nat) = entries (heap (st y) 0%nat) ++ live ∧
          received 1 5 (st y2) =
            received 1 5 (st y) ++ entries (heap (st y) 0%nat) ++ live.
Proof.
  intros y y2.
  assert (Hq : Forall (quiet 5 1) after_join) by (repeat constructor).
  destruct (subscriber_receives_buffer_then_live before_join 5 1 0%nat after_join
              eq_refl eq_refl Hq) as (_ & _ & H & _).
  exact (H eq_refl).
Defined.

(** The late join of the scenario: the subscriber is sent the entries 1,
    2, 3 of the buffer, then [subscribed], then entry 4 live. *)
Example late_join_stream :
  let y2 := run after_join (step (Message 5 (CSubscribe 1)) (run before_join init)) in
  map (λ m, match m with
            | MsgEntry _ e => Some (sequenceNum e, eventType e)
            | _ => None
            end) (outbox (sockets (st y2) 5%nat)) =
  [Some (1, job_started); Some (2, chunk_processed); Some (3, chunk_processed); None;
   Some (4, chunk_processed)].
Proof. reflexivity. Qed.

(** C1 as stated fails: after two overlapping [logEvent] calls whose
    inserts settled in the opposite order, a socket that connects and
    subscribes is sent the buffered entries in buffer order, numbered 1,
    3, 2, which is not ascending. *)
Lemma replay_after_overlap_not_ascending :
  let y := run [Connection 5] overlapped in
  let y1 := step (Message 5 (CSubscribe 1)) y in
  activeAudits (st y) !! 1 = Some 0%nat ∧
  readyState (sockets (st y) 5%nat) = OPEN ∧
  map sequenceNum (entries (heap (st y) 0%nat)) = [1; 3; 2] ∧
  map sequenceNum (received 1 5 (st y1)) = [1; 3; 2] ∧
  map sequenceNum (received 1 5 (st y1)) ≠ seqZ 1 3.
Proof. repeat split; try reflexivity. discriminate. Qed.

(** * Further properties of the service *)

(** ** The [auditLogs] table and the registry *)

Lemma stamp_identity r' s r : identity_of (heap (stamp r' s) r) = identity_of (heap s r).
Proof.
  cbn. destruct (decide (r = r')) as [->|Hne]; [by rewrite upd_eq | by rewrite upd_ne].
Qed.

Lemma push_identity r' e s r : identity_of (heap (push r' e s) r) = identity_of (heap s r).
Proof.
  cbn. destruct (decide (r = r')) as [->|Hne]; [by rewrite upd_eq | by rewrite upd_ne].
Qed.

Lemma subscribed_identity ws id s r :
  identity_of (heap (subscribed ws id s) r) = identity_of (heap s r).
Proof. rewrite subscribed_heap. by case_bool_decide. Qed.

Lemma unsubscribed_identity ws s r :
  identity_of (heap (unsubscribed ws s) r) = identity_of (heap s r).
Proof. by destruct (unsubscribed_heap ws s r) as [-> | ->]. Qed.

#[local] Hint Rewrite stamp_identity push_identity subscribed_identity
  unsubscribed_identity : frames.

Lemma update_row_identity id at_ status preview row :
  row_identity (update_row id at_ status preview row) = row_identity row.
Proof. unfold update_row. by case_bool_decide. Qed.

Lemma table_inv_same s s' :
  auditLogs (db s') = auditLogs (db s) →
  nextAuditLogId (db s') = nextAuditLogId (db s) →
  nextRef s' = nextRef s →
  (∀ r, identity_of (heap s' r) = identity_of (heap s r)) →
  table_inv s → table_inv s'.
Proof.
  intros Hl Hn Hr Hid [Hser Hrow]. split.
  - by rewrite Hl, Hn.
  - intros r. rewrite Hr, Hl, Hid. apply Hrow.
Qed.

Lemma table_inv_updated s s' id at_ status preview :
  auditLogs (db s') = map (update_row id at_ status preview) (auditLogs (db s)) →
  nextAuditLogId (db s') = nextAuditLogId (db s) →
  nextRef s' = nextRef s →
  (∀ r, identity_of (heap s' r) = identity_of (heap s r)) →
  table_inv s → table_inv s'.
Proof.
  intros Hl Hn Hr Hid [Hser Hrow]. split.
  - rewrite Hl, Hn, <- Hser, map_map. apply map_ext. intros row.
    pose proof (update_row_identity id at_ status preview row) as H.
    by injection H.
  - intros r. rewrite Hr, Hl, Hid. intros Hlt.
    destruct (Hrow r Hlt) as (row & Hin & Hrid).
    exists (update_row id at_ status preview row). split.
    + apply list_elem_of_fmap. eauto.
    + by rewrite update_row_identity.
Qed.

Lemma trans_table_inv o y y' frs res :
  trans o y y' frs res → wf y → table_inv (st y) → table_inv (st y').
Proof.
  intros T [Hs Hf] Hinv.
  destruct T as [o y ts Hsub|ws y|ws id y Htr|ws y|ws rs y|o y id r ty d now k Hreg
                |o y id ty d now k Hreg|i now y u jt j t0 Hi|i ok now y fr k ts Hi Hts
                |i ok now y id sc pv at_ unreg Hi|i ok now y ws id Hi]; cbn [st].
  - done.
  - eapply table_inv_same; [..|exact Hinv]; by sframes.
  - eapply table_inv_same; [..|exact Hinv]; by sframes.
  - cbn zeta. eapply table_inv_same; [..|exact Hinv]; by sframes.
  - eapply table_inv_same; [..|exact Hinv]; by sframes.
  - eapply table_inv_same; [..|exact Hinv]; by sframes.
  - done.
  - destruct Hinv as [Hser Hrow]. destruct Hs as [_ _ _ H4 _].
    set (s := st y) in *. split.
    + frames. cbn [auditLogs nextAuditLogId]. rewrite map_app, Hser. cbn [map log_id].
      replace (nextAuditLogId (db s) + 1 - 1) with ((nextAuditLogId (db s) - 1) + 1) by lia.
      rewrite seqZ_app by lia. f_equal.
      rewrite seqZ_cons, seqZ_nil by lia. f_equal. lia.
    + intros r. frames. cbn [auditLogs]. intros Hr.
      destruct (decide (r = nextRef s)) as [->|Hne].
      * eexists. split; [apply elem_of_app; right; apply list_elem_of_here|].
        by rewrite upd_eq.
      * rewrite upd_ne by done. destruct (Hrow r) as (row & Hin & Hrid); [lia|].
        exists row. split; [|done]. apply elem_of_app. by left.
  - destruct (fr_audit fr) as [r|];
      (eapply table_inv_same; [..|exact Hinv]; by sframes).
  - subst s1. destruct ok.
    + eapply table_inv_updated; [..|exact Hinv]; destruct unreg; by sframes.
    + eapply table_inv_same; [..|exact Hinv]; destruct unreg; by sframes.
  - eapply table_inv_same; [..|exact Hinv]; by sframes.
Qed.

Lemma run_table_inv ops y : wf y → table_inv (st y) → table_inv (st (run ops y)).
Proof.
  revert y. induction ops as [|o ops IH]; intros y Hwf Hinv; [done|].
  rewrite run_cons. pose proof (step_trans o y) as T. apply IH.
  - by eapply trans_wf.
  - by eapply trans_table_inv.
Qed.

Lemma table_inv_init : table_inv init_state.
Proof. split; [done|]. intros r Hr. cbn in Hr. lia. Qed.

(** In a list with distinct keys, the first element with the key of an
    element is that element. *)
Lemma head_filter_key {A} (f : A → Z) (l : list A) (x : A) :
  NoDup (map f l) → x ∈ l → head (filter (λ y, f y = f x) l) = Some x.
Proof.
  induction l as [|a l IH]; intros Hnd Hin; [by apply elem_of_nil in Hin|].
  cbn [map] in Hnd. apply NoDup_cons in Hnd as [Hna Hnd].
  rewrite filter_cons. apply elem_of_cons in Hin as [->|Hin].
  - by rewrite decide_True.
  - destruct (decide (f a = f x)) as [Heq|Hne]; [|by apply IH].
    destruct Hna. rewrite Heq. by apply (list_elem_of_fmap_2 f).
Qed.

Lemma select_log_row s row :
  table_inv s → row ∈ auditLogs (db s) → select_log (log_id row) (db s) = Some row.
Proof.
  intros [Hser _] Hin. unfold select_log. apply head_filter_key; [|done].
  rewrite Hser. apply NoDup_seqZ.
Qed.

Lemma select_log_Some s id row :
  select_log id (db s) = Some row → row ∈ auditLogs (db s) ∧ log_id row = id.
Proof.
  unfold select_log. intros H. apply head_Some_elem_of in H.
  by apply list_elem_of_filter in H as [? ?].
Qed.

Lemma select_log_issued s id :
  table_inv s → is_Some (select_log id (db s)) ↔ 1 ≤ id < nextAuditLogId (db s).
Proof.
  intros Hinv. pose proof Hinv as [Hser _]. split.
  - intros [row Hrow]. apply select_log_Some in Hrow as [Hin <-].
    assert (Hid : log_id row ∈ map log_id (auditLogs (db s)))
      by (by apply (list_elem_of_fmap_2 log_id)).
    rewrite Hser in Hid. apply elem_of_seqZ in Hid. lia.
  - intros Hid. assert (Hin : id ∈ map log_id (auditLogs (db s))).
    { rewrite Hser. apply elem_of_seqZ. lia. }
    apply list_elem_of_fmap in Hin as (row & -> & Hin).
    exists row. by apply select_log_row.
Qed.

(** X2: along any run of the event loop from process start, every
    session in the registry has its row in [auditLogs]: [getAuditLog]
    returns a row with the id of the session and with the user, the job
    type and the job of the registered [ActiveAudit], whose [auditLogId]
    is the key it is registered under. *)
Theorem registered_session_has_row (ops : list Op) (id : Z) (r : Ref) :
  let s := st (run ops init) in
  activeAudits s !! id = Some r →
  auditLogId (heap s r) = id ∧
  ∃ row, getAuditLog id true s = (Ok (Some row), s) ∧
         log_id row = id ∧
         log_userId row = userId (heap s r) ∧
         log_jobType row = jobType (heap s r) ∧
         log_jobId row = jobId (heap s r).
Proof.
  intros s Hreg.
  pose proof (run_wf ops init wf_init) as [[H1 _ _ _ _] _]. fold s in H1.
  pose proof (run_table_inv ops init wf_init table_inv_init) as Hinv. fold s in Hinv.
  destruct (H1 _ _ Hreg) as [Hlt Hid]. split; [done|].
  destruct Hinv as [Hser Hrow]. destruct (Hrow r Hlt) as (row & Hin & Hrid).
  injection Hrid as Hi Hu Ht Hj. exists row.
  split; [|by rewrite Hi, Hid].
  unfold getAuditLog, gets. rewrite <- Hid, <- Hi. by rewrite select_log_row.
Qed.

Lemma registered_session_has_row_witness :
  ∃ row, getAuditLog 2 true (st (run two_sessions init)) =
           (Ok (Some row), st (run two_sessions init)) ∧
         log_userId row = 8 ∧ log_jobType row = "coherence"%string ∧
         log_jobId row = Some 3.
Proof.
  destruct (registered_session_has_row two_sessions 2 1%nat eq_refl)
    as (_ & row & Hget & _ & Hu & Ht & Hj).
  exists row. split; [exact Hget|]. split; [exact Hu|]. split; [exact Ht | exact Hj].
Defined.

(** X3: [getFullAuditReport] has no report for an id that has no row in
    [auditLogs], whatever rows the [auditLogEntries] table holds under
    that id, and it does not run its second query then.  It rejects
    when the query for the session row fails, and, for a session that
    has its row, when the query for the entries fails. *)
Theorem getFullAuditReport_without_session (s : State) (id : Z) (db_ok2 : bool) :
  select_log id (db s) = None →
  getFullAuditReport id true db_ok2 s = (Ok None, s) ∧
  (∀ id', getFullAuditReport id' false db_ok2 s = (Throw, s)) ∧
  (∀ id', is_Some (select_log id' (db s)) →
          getFullAuditReport id' true false s = (Throw, s)).
Proof.
  intros Hnone. split; [|split].
  - unfold getFullAuditReport, getAuditLog. by rewrite bind_gets, Hnone.
  - intros id'. done.
  - intros id' [row Hrow].
    unfold getFullAuditReport, getAuditLog. by rewrite bind_gets, Hrow.
Qed.

Lemma getFullAuditReport_without_session_witness :
  let s := st (run (completed_then_logged ++
                      [CallLogEvent 9 error (DataError "E" "m" "c" None false) 400;
                       Resume 0 true 401; Resume 0 true 402]) init) in
  map row_sequenceNum (rows_of 9 (db s)) = [1] ∧
  getFullAuditReport 9 true true s = (Ok None, s).
Proof.
  intros s. split; [reflexivity|].
  assert (H : select_log 9 (db s) = None) by (vm_compute; reflexivity).
  exact (proj1 (getFullAuditReport_without_session s 9 true H)).
Defined.

(** ** The status update of [completeAudit] *)

Lemma logEvent_auditLogs id ty data now ok s :
  auditLogs (db (exec (logEvent id ty data now ok) s)) = auditLogs (db s).
Proof.
  unfold exec. rewrite logEvent_spec. cbn [snd].
  destruct (activeAudits s !! id); by frames.
Qed.

Lemma completeAudit_auditLogs id success preview aw tw now at_ ok1 ok2 s :
  auditLogs (db (exec (completeAudit id success preview aw tw now at_ ok1 ok2) s)) =
  if ok2
  then map (update_row id at_ (if success then completed else failed)
              (option_map (λ p, js_substring p 0 500) preview)) (auditLogs (db s))
  else auditLogs (db s).
Proof.
  destruct (completeAudit_split id success preview aw tw now at_ ok1 ok2 s) as [jt ->].
  unfold exec at 1. rewrite completeAudit_finish_spec. cbn zeta.
  pose proof (logEvent_auditLogs id job_completed (DataJobCompleted jt tw aw success)
                now ok1 s) as Hl.
  destruct (fst (send_all _ _)); cbn [snd]; frames; unfold persist_status;
    destruct ok2; cbn; by rewrite ?Hl.
Qed.

Lemma update_row_log_id id at_ status preview row :
  log_id (update_row id at_ status preview row) = log_id row.
Proof. unfold update_row. by case_bool_decide. Qed.

Lemma select_log_updated id' id at_ status preview (l : list AuditLogRow) :
  head (filter (λ r, log_id r = id') (map (update_row id at_ status preview) l)) =
  update_row id at_ status preview <$> head (filter (λ r, log_id r = id') l).
Proof.
  induction l as [|a l IH]; [done|]. cbn [map].
  rewrite !filter_cons, update_row_log_id.
  by destruct (decide (log_id a = id')).
Qed.

(** X4: when the status update of [completeAudit] succeeds, the row of
    the session records the outcome: the status is [completed] or
    [failed] as [success] says, the completion time is set, and the
    preview is the first 500 characters of the one given, or stays as it
    was when none is given.  The other columns of the row and the rows
    of the other sessions stay as they are.  This holds whether or not
    the session is in the registry. *)
Theorem completeAudit_records_outcome
    (s : State) (id : Z) (row : AuditLogRow)
    (success : bool) (preview : option string) (actualWords targetWords : option Z)
    (now at_ : Z) (db_ok1 : bool) :
  select_log id (db s) = Some row →
  let s' := exec (completeAudit id success preview actualWords targetWords now at_
                    db_ok1 true) s in
  select_log id (db s') =
    Some {| log_id := log_id row; log_userId := log_userId row;
            log_jobType := log_jobType row; log_jobId := log_jobId row;
            log_startedAt := log_startedAt row;
            log_completedAt := Some at_;
            log_status := if success then completed else failed;
            log_finalOutputPreview :=
              match preview with
              | Some p => Some (String.substring 0 500 p)
              | None => log_finalOutputPreview row
              end |} ∧
  (∀ p, preview = Some p → (String.length (String.substring 0 500 p) ≤ 500)%nat) ∧
  (∀ id', id' ≠ id → select_log id' (db s') = select_log id' (db s)).
Proof.
  intros Hrow s'. split; [|split].
  - unfold select_log, s'. rewrite completeAudit_auditLogs, select_log_updated.
    unfold select_log in Hrow. rewrite Hrow. cbn [fmap option_fmap option_map].
    apply select_log_Some in Hrow as [_ Hid]. unfold update_row.
    rewrite bool_decide_eq_true_2 by done. do 2 f_equal.
    destruct preview as [p|]; [|done]. cbn. by rewrite js_substring_0.
  - intros p _. rewrite substring_0_length. lia.
  - intros id' Hne. unfold select_log, s'.
    rewrite completeAudit_auditLogs, select_log_updated.
    destruct (head (filter _ (auditLogs (db s)))) as [row'|] eqn:E; [|done].
    cbn. f_equal. apply head_Some_elem_of in E.
    apply list_elem_of_filter in E as [Hid' _]. unfold update_row.
    rewrite bool_decide_eq_false_2; [done|congruence].
Qed.

Lemma completeAudit_records_outcome_witness :
  let s' := exec (completeAudit 1 false (Some "partial output"%string) None None 200 201
                    true true) (st demo_session) in
  option_map (λ row, (log_status row, log_completedAt row, log_finalOutputPreview row))
             (select_log 1 (db s')) =
    Some (failed, Some 201, Some "partial output"%string).
Proof.
  intros s'.
  destruct (completeAudit_records_outcome (st demo_session) 1
              {| log_id := 1; log_userId := 7; log_jobType := "reconstruction";
                 log_jobId := None; log_startedAt := 100; log_completedAt := None;
                 log_status := running; log_finalOutputPreview := None |}
              false (Some "partial output"%string) None None 200 201 true eq_refl)
    as [H _].
  unfold s'. rewrite H. reflexivity.
Defined.

(** X5: a failing status update does not stop the completion of a
    registered session.  [completeAudit] returns normally, the session
    leaves the registry and every subscriber with an open socket has the
    [completed] notification as its last message, but the [auditLogs]
    table is as before: the row of the session keeps the status it had. *)
Theorem completeAudit_update_failure
    (s : State) (id : Z) (r : Ref)
    (success : bool) (preview : option string) (actualWords targetWords : option Z)
    (now at_ : Z) (db_ok1 : bool) :
  activeAudits s !! id = Some r →
  NoDup (subscribers (heap s r)) →
  (∀ ws, ws ∈ subscribers (heap s r) → readyState (sockets s ws) ≠ CONNECTING) →
  let call := completeAudit id success preview actualWords targetWords now at_
                db_ok1 false in
  let s' := exec call s in
  result call s = Ok tt ∧
  activeAudits s' = delete id (activeAudits s) ∧
  auditLogs (db s') = auditLogs (db s) ∧
  ∀ ws, ws ∈ subscribers (heap s r) → readyState (sockets s ws) = OPEN →
        last (outbox (sockets s' ws)) =
          Some (MsgCompleted id success (Z.of_nat (length (entries (heap s r))) + 1)).
Proof.
  intros Hreg Hnd Hconn call s'.
  pose proof (completeAudit_registered id r success preview actualWords targetWords
                now at_ db_ok1 false s Hreg Hconn) as H1.
  cbn zeta in H1.
  split; [unfold result, call; by rewrite H1|].
  split; [unfold s', exec, call; by rewrite H1|].
  split; [unfold s', call; by rewrite completeAudit_auditLogs|].
  intros ws Hin Hop. unfold s', exec, call. rewrite H1.
  cbn [snd sockets set_activeAudits set_sockets].
  rewrite send_all_outbox.
  - unfold notifications. frames. rewrite Hreg. frames.
    rewrite (omap_targets ws _ (subscribers (heap s r)) Hnd).
    rewrite (bool_decide_eq_true_2 (ws ∈ subscribers (heap s r))) by done.
    rewrite last_snoc. do 2 f_equal.
    rewrite push_entries, bool_decide_eq_true_2 by done. frames.
    rewrite length_app. cbn. lia.
  - rewrite publish_readyState. by frames.
  - apply send_all_ok. unfold notifications. frames. rewrite Hreg. frames.
    apply Forall_map, Forall_forall. intros w Hw. cbn.
    rewrite publish_readyState. frames. by apply Hconn.
Qed.

Lemma completeAudit_update_failure_witness :
  let call := completeAudit 1 true None None None 200 201 true false in
  let s' := exec call (st demo_session) in
  result call (st demo_session) = Ok tt ∧
  activeAudits s' !! 1 = None ∧
  map log_status (auditLogs (db s')) = [running] ∧
  last (outbox (sockets s' 5%nat)) = Some (MsgCompleted 1 true 2).
Proof.
  intros call s'.
  assert (Hreg : activeAudits (st demo_session) !! 1 = Some 0%nat) by reflexivity.
  assert (Hnd : NoDup (subscribers (heap (st demo_session) 0%nat))).
  { change (NoDup [5%nat]). apply NoDup_singleton. }
  assert (Hconn : ∀ ws, ws ∈ subscribers (heap (st demo_session) 0%nat) →
                        readyState (sockets (st demo_session) ws) ≠ CONNECTING).
  { intros ws Hin. change (ws ∈ [5%nat]) in Hin.
    apply list_elem_of_singleton in Hin as ->. discriminate. }
  destruct (completeAudit_update_failure (st demo_session) 1 0%nat true None None None
              200 201 true Hreg Hnd Hconn) as (H1 & H2 & H3 & H4).
  split; [exact H1|]. split; [unfold s', call; rewrite H2; apply lookup_delete_eq|].
  split; [unfold s', call; by rewrite H3|].
  apply H4; [|reflexivity]. change (5%nat ∈ [5%nat]). apply list_elem_of_here.
Defined.

(** ** The lookup of a job's session *)

Lemma first_for_job_Some job (listing : list (Z * Ref)) (h : Ref → ActiveAudit) id :
  first_for_job job (map (λ p, (p.1, h p.2)) listing) = Some id →
  ∃ r, (id, r) ∈ listing ∧ jobId (h r) = Some job.
Proof.
  induction listing as [|[id' r'] listing IH]; [done|]. cbn [map first_for_job fst snd].
  case_bool_decide as Hj.
  - intros [= <-]. exists r'. split; [apply list_elem_of_here|done].
  - intros H. destruct (IH H) as (r & Hin & Hr). exists r.
    split; [by apply list_elem_of_further|done].
Qed.

Lemma first_for_job_None job (listing : list (Z * Ref)) (h : Ref → ActiveAudit) :
  first_for_job job (map (λ p, (p.1, h p.2)) listing) = None ↔
  ∀ id r, (id, r) ∈ listing → jobId (h r) ≠ Some job.
Proof.
  induction listing as [|[id' r'] listing IH]; cbn [map first_for_job fst snd].
  - split; [|done]. intros _ id r Hin. by apply elem_of_nil in Hin.
  - case_bool_decide as Hj.
    + split; [done|]. intros H. destruct (H id' r'); [apply list_elem_of_here|done].
    + rewrite IH. split.
      * intros H id r Hin. apply elem_of_cons in Hin as [[= -> ->]|Hin]; [done|].
        by apply (H id).
      * intros H id r Hin. apply (H id). by apply list_elem_of_further.
Qed.

Lemma lists_registry_elem_of listing s id r :
  lists_registry listing s → (id, r) ∈ listing ↔ activeAudits s !! id = Some r.
Proof.
  unfold lists_registry. intros ->. apply elem_of_map_to_list.
Qed.

(** X6: [getActiveAuditForJob] returns a session only if that session is
    in the registry and its [ActiveAudit] carries the job, and it returns
    [null] exactly when no session in the registry carries the job; it
    changes nothing.  This holds for every order in which the registry
    may be listed. *)
Theorem getActiveAuditForJob_finds_registered
    (s : State) (listing : list (Z * Ref)) (job : Z) :
  lists_registry listing s →
  ∃ res, getActiveAuditForJob listing job s = (Ok res, s) ∧
         (∀ id, res = Some id →
                ∃ r, activeAudits s !! id = Some r ∧ jobId (heap s r) = Some job) ∧
         (res = None ↔
          ∀ id r, activeAudits s !! id = Some r → jobId (heap s r) ≠ Some job).
Proof.
  intros Hl. eexists. split; [reflexivity|]. split.
  - intros id Hres. apply first_for_job_Some in Hres as (r & Hin & Hj).
    exists r. split; [|done]. by apply (lists_registry_elem_of listing).
  - rewrite first_for_job_None. split.
    + intros H id r Hreg. apply (H id). by apply (lists_registry_elem_of listing s).
    + intros H id r Hin. apply (H id). by apply (lists_registry_elem_of listing).
Qed.

Lemma getActiveAuditForJob_finds_registered_witness :
  let s := st (run two_sessions init) in
  ∃ res, getActiveAuditForJob (map_to_list (activeAudits s)) 3 s = (Ok res, s) ∧
         (∀ id, res = Some id →
                ∃ r, activeAudits s !! id = Some r ∧ jobId (heap s r) = Some 3) ∧
         (res = None ↔
          ∀ id r, activeAudits s !! id = Some r → jobId (heap s r) ≠ Some 3).
Proof.
  intros s.
  apply (getActiveAuditForJob_finds_registered s (map_to_list (activeAudits s)) 3).
  unfold lists_registry. reflexivity.
Defined.

(** X7: in any state the event loop can reach, when no session in the
    registry carries a job, a [startAudit] for that job whose first
    insert succeeds returns the id the serial key hands out, and from
    then on [getActiveAuditForJob] returns that id for the job, in
    whatever order the registry is listed. *)
Theorem getActiveAuditForJob_after_startAudit
    (ops : list Op) (userId : Z) (jobType : string) (job : Z) (startedAt now : Z)
    (db_ok2 : bool) :
  let s := st (run ops init) in
  (∀ id r, activeAudits s !! id = Some r → jobId (heap s r) ≠ Some job) →
  let call := startAudit userId jobType (Some job) startedAt now true db_ok2 in
  let s' := exec call s in
  result call s = Ok (nextAuditLogId (db s)) ∧
  ∀ listing, lists_registry listing s' →
             getActiveAuditForJob listing job s' = (Ok (Some (nextAuditLogId (db s))), s').
Proof.
  intros s Hnone call s'.
  pose proof (run_wf ops init wf_init) as [[H1 _ _ _ _] _]. fold s in H1.
  pose proof (startAudit_spec userId jobType (Some job) startedAt now true db_ok2 s) as Hsp.
  cbn zeta in Hsp. cbn [negb] in Hsp.
  split; [unfold result, call; by rewrite Hsp|].
  assert (Hreg' : activeAudits s' = <[nextAuditLogId (db s) := nextRef s]> (activeAudits s)).
  { unfold s', exec, call. rewrite Hsp. cbn [snd]. by frames. }
  assert (Hnew : jobId (heap s' (nextRef s)) = Some job).
  { unfold s', exec, call. rewrite Hsp. cbn [snd]. frames.
    unfold push, stamp. frames. by rewrite !upd_eq. }
  assert (Hold : ∀ r, (r < nextRef s)%nat → jobId (heap s' r) = jobId (heap s r)).
  { intros r Hr. unfold s', exec, call. rewrite Hsp. cbn [snd]. frames.
    unfold push, stamp. frames. by rewrite !upd_ne by lia. }
  intros listing Hl. unfold getActiveAuditForJob, gets. do 2 f_equal.
  destruct (first_for_job job _) as [id|] eqn:E.
  - apply first_for_job_Some in E as (r & Hin & Hj). f_equal.
    apply (lists_registry_elem_of listing s') in Hin; [|done].
    rewrite Hreg' in Hin. apply lookup_insert_Some in Hin as [[Hid _]|[_ Hin]]; [done|].
    destruct (H1 _ _ Hin) as [Hlt _]. rewrite Hold in Hj by done.
    by destruct (Hnone _ _ Hin).
  - destruct (proj1 (first_for_job_None job listing (heap s')) E
                (nextAuditLogId (db s)) (nextRef s)); [|done].
    apply (lists_registry_elem_of listing s'); [done|].
    rewrite Hreg'. apply lookup_insert_eq.
Qed.

Lemma getActiveAuditForJob_after_startAudit_witness :
  let s := st (run two_sessions init) in
  let s' := exec (startAudit 9 "coherence" (Some 4) 300 301 true true) s in
  getActiveAuditForJob (map_to_list (activeAudits s')) 4 s' = (Ok (Some 3), s').
Proof.
  intros s s'.
  assert (Hnone : ∀ id r, activeAudits s !! id = Some r → jobId (heap s r) ≠ Some 4).
  { intros id r Hreg.
    pose proof (run_wf two_sessions init wf_init) as [[H1 _ _ _ _] _].
    destruct (H1 _ _ Hreg) as [Hlt _].
    change (nextRef (st (run two_sessions init))) with 2%nat in Hlt.
    intros Hj. destruct r as [|[|r]]; [| |lia]; vm_compute in Hj; discriminate Hj. }
  destruct (getActiveAuditForJob_after_startAudit two_sessions 9 "coherence" 4 300 301
              true Hnone) as [_ H].
  apply (H (map_to_list (activeAudits s'))). unfold lists_registry. reflexivity.
Defined.

(** ** The logs of a user *)

Lemma insert_by_startedAt_perm r l : insert_by_startedAt r l ≡ₚ r :: l.
Proof.
  induction l as [|x l IH]; [done|]. cbn.
  destruct (log_startedAt x <? log_startedAt r); [done|].
  rewrite IH. apply Permutation_swap.
Qed.

Lemma insert_by_startedAt_sorted r l :
  latest_first l → latest_first (insert_by_startedAt r l).
Proof.
  unfold latest_first. induction l as [|x l IH]; intros Hs.
  - cbn. by repeat constructor.
  - apply StronglySorted_inv in Hs as [Hl Hx]. cbn.
    destruct (Z.ltb_spec (log_startedAt x) (log_startedAt r)) as [Hlt|Hge].
    + constructor; [by constructor|]. constructor; [unfold started_ge; lia|].
      eapply Forall_impl; [exact Hx|]. unfold started_ge. intros z Hz. lia.
    + constructor; [by apply IH|].
      rewrite insert_by_startedAt_perm. constructor; [unfold started_ge; lia | done].
Qed.

Lemma order_by_startedAt_desc_fold l acc :
  fold_left (λ acc r, insert_by_startedAt r acc) l acc ≡ₚ l ++ acc ∧
  (latest_first acc → latest_first (fold_left (λ acc r, insert_by_startedAt r acc) l acc)).
Proof.
  revert acc. induction l as [|x l IH]; intros acc; [done|].
  cbn [fold_left]. destruct (IH (insert_by_startedAt x acc)) as [Hp Hs]. split.
  - rewrite Hp, insert_by_startedAt_perm. cbn [app]. by rewrite Permutation_middle.
  - intros Hacc. by apply Hs, insert_by_startedAt_sorted.
Qed.

(** X8: [getUserAuditLogs] returns logs of the user only, the latest
    start first, and as many as the limit allows (50 when no limit is
    given): the rows returned and the user's rows left out are together
    the user's rows of the table, each once, and no row left out started
    later than a row returned.  When the query fails the call rejects. *)
Theorem getUserAuditLogs_latest (s : State) (user : Z) (limit : option nat) :
  let n := default 50%nat limit in
  let mine := filter (λ r, log_userId r = user) (auditLogs (db s)) in
  getUserAuditLogs user limit false s = (Throw, s) ∧
  ∃ rows rest,
    getUserAuditLogs user limit true s = (Ok rows, s) ∧
    rows ++ rest ≡ₚ mine ∧
    length rows = Nat.min n (length mine) ∧
    Forall (λ r, log_userId r = user) rows ∧
    latest_first rows ∧
    ∀ x y, x ∈ rows → y ∈ rest → log_startedAt y ≤ log_startedAt x.
Proof.
  intros n mine. split; [done|].
  destruct (order_by_startedAt_desc_fold mine []) as [Hp Hs].
  rewrite app_nil_r in Hp. specialize (Hs (SSorted_nil _)).
  change (fold_left _ mine []) with (order_by_startedAt_desc mine) in Hp, Hs.
  exists (take n (order_by_startedAt_desc mine)), (drop n (order_by_startedAt_desc mine)).
  split; [reflexivity|]. split; [by rewrite take_drop|].
  split; [by rewrite length_take, Hp|].
  rewrite <- (take_drop n (order_by_startedAt_desc mine)) in Hs.
  split; [|split].
  - apply Forall_forall. intros r Hr.
    assert (Hin : r ∈ mine).
    { rewrite <- Hp. eapply elem_of_submseteq; [exact Hr|apply submseteq_take]. }
    by apply list_elem_of_filter in Hin as [? _].
  - by apply StronglySorted_app_1_l in Hs.
  - intros x y Hx Hy. by apply (StronglySorted_app_1_elem_of _ _ _ x y) in Hs.
Qed.

(** ** Sockets that have not subscribed *)

Lemma unsubscribed_same ws id s s' :
  (∀ r, activeAudits s' !! id = Some r → activeAudits s !! id = Some r) →
  (∀ r, subscribers (heap s' r) = subscribers (heap s r)) →
  received id ws s' = received id ws s →
  not_subscribed ws id s →
  not_subscribed ws id s' ∧ received id ws s' = received id ws s.
Proof.
  intros Hreg Hsub Hrec Hinv. split; [|done].
  intros r Hr. rewrite Hsub. by apply Hinv, Hreg.
Qed.

Lemma notifications_entries_for ws id id' success s :
  Forall (λ p : WebSocket * ServerMessage, p.1 = ws → entries_for id [p.2] = [])
         (notifications id' success s).
Proof.
  unfold notifications. destruct (activeAudits s !! id'); [|constructor].
  by apply Forall_map, Forall_forall.
Qed.

Ltac unsubscribed_same :=
  apply unsubscribed_same;
  [try by sframes | try by sframes | unfold received; frames; try done | done].

Lemma trans_unsubscribed ws id o y y' frs res :
  trans o y y' frs res → no_subscribe ws id o → wf y →
  not_subscribed ws id (st y) →
  not_subscribed ws id (st y') ∧ received id ws (st y') = received id ws (st y).
Proof.
  intros T Hq [Hs Hf] Hinv.
  destruct T as [o y ts Hsub|ws' y|ws' id' y Htr|ws' y|ws' rs y|o y id' r' ty d now k Hreg
                |o y id' ty d now k Hreg|i now y u jt j t0 Hi|i ok now y fr k ts Hi Hts
                |i ok now y id' sc pv at_ unreg Hi|i ok now y ws' id' Hi];
    cbn [st pool no_subscribe] in *.
  - done.
  - unsubscribed_same. by rewrite upd_ne.
  - split.
    + intros r. frames. intros Hreg. rewrite subscribed_heap.
      case_bool_decide as Hr'; [|by apply Hinv].
      cbn. rewrite elem_of_Set_add. intros [->|Hin]; [|by eapply Hinv].
      apply Hq. split; [done|]. destruct Hs as [H1 _ _ _ _].
      destruct (H1 _ _ Hreg) as [_ <-]. by destruct (H1 _ _ Hr') as [_ <-].
    + rewrite received_set_sockets. frames.
      by apply send_all_entries_for, replay_entries_for_other.
  - cbn zeta. split.
    + intros r. frames. intros Hreg.
      destruct (unsubscribed_heap ws'
                  (set_sockets (upd (sockets (st y)) ws'
                     {| readyState := CLOSED; outbox := outbox (sockets (st y) ws') |})
                     (st y)) r) as [-> | ->]; cbn.
      * by apply Hinv.
      * rewrite elem_of_Set_delete. intros [_ Hin]. by eapply Hinv.
    + unfold received. frames.
      destruct (decide (ws = ws')) as [->|Hne]; [by rewrite upd_eq | by rewrite upd_ne].
  - unsubscribed_same.
    destruct (decide (ws = ws')) as [->|Hne]; [by rewrite upd_eq | by rewrite upd_ne].
  - unsubscribed_same.
  - done.
  - split.
    + intros r. rewrite stamp_subscribers. frames.
      destruct (decide (r = nextRef (st y))) as [->|Hne].
      { rewrite upd_eq. cbn. intros _. apply not_elem_of_nil. }
      rewrite upd_ne by done. intros Hreg.
      apply lookup_insert_Some in Hreg as [[_ Heq]|[_ Hreg]]; [by subst|by apply Hinv].
    + unfold received. by frames.
  - destruct (fr_audit fr) as [rf|] eqn:Haud; [|unsubscribed_same].
    split.
    + intros r. frames. apply Hinv.
    + destruct (decide (fr_auditLogId fr = id)) as [Heq|Hne].
      * unfold received. rewrite publish_sockets_other; [by frames|].
        intros r. frames. rewrite Heq. apply Hinv.
      * rewrite publish_received_other by done. unfold received. by frames.
  - subst s1. split.
    + intros r. destruct unreg; frames; [|apply Hinv].
      intros Hreg. apply lookup_delete_Some in Hreg as [_ Hreg]. by apply Hinv.
    + destruct unreg; unfold received; frames;
        apply send_all_entries_for, notifications_entries_for.
  - unsubscribed_same. apply send_all_entries_for. by repeat constructor.
Qed.

Lemma run_unsubscribed ws id ops y :
  Forall (no_subscribe ws id) ops → wf y →
  not_subscribed ws id (st y) →
  not_subscribed ws id (st (run ops y)) ∧
  received id ws (st (run ops y)) = received id ws (st y).
Proof.
  revert y. induction ops as [|o ops IH]; intros y Hq Hwf Hinv; [done|].
  apply Forall_cons in Hq as [Ho Hq]. rewrite run_cons.
  pose proof (step_trans o y) as T.
  destruct (trans_unsubscribed ws id _ _ _ _ _ T Ho Hwf Hinv) as [Hinv' Hrec].
  destruct (IH (step o y) Hq) as [Hinv'' Hrec'']; [by eapply trans_wf|done|].
  split; [done|]. by rewrite Hrec'', Hrec.
Qed.

(** X9: a socket is sent the entries of a session only through a
    subscription to that session.  From any state the event loop can
    reach in which the socket is not among the subscribers of the
    session, and under any interleaving in which the socket does not
    subscribe to the session, the socket is sent no entry of the session
    and stays out of its subscriber set, whatever is logged, whoever
    else subscribes, and whether or not the session is started or
    completed in between. *)
Theorem entries_only_to_subscribers (ops0 ops : list Op) (ws : WebSocket) (id : Z) :
  let y := run ops0 init in
  not_subscribed ws id (st y) →
  Forall (no_subscribe ws id) ops →
  received id ws (st (run ops y)) = received id ws (st y) ∧
  not_subscribed ws id (st (run ops y)).
Proof.
  intros y Hinv Hq.
  destruct (run_unsubscribed ws id ops y Hq) as [H1 H2]; [|done|done].
  apply run_wf, wf_init.
Qed.

Lemma entries_only_to_subscribers_witness :
  let y := run (take 7 two_sessions) init in
  received 2 5 (st (run (drop 7 two_sessions) y)) = received 2 5 (st y) ∧
  not_subscribed 5 2 (st (run (drop 7 two_sessions) y)).
Proof.
  intros y.
  apply (entries_only_to_subscribers (take 7 two_sessions) (drop 7 two_sessions) 5 2).
  - intros r Hr. vm_compute in Hr. injection Hr as <-.
    vm_compute. apply not_elem_of_nil.
  - repeat constructor. intros [_ H]. discriminate H.
Defined.

Lemma truthy_nonzero id : id ≠ 0 → truthy id = true.
Proof. intros H. unfold truthy. by apply negb_true_iff, Z.eqb_neq. Qed.

(** X10: subscribing to a session that is not in the registry (unknown,
    not yet started, or already completed) is acknowledged and nothing
    else: the open socket is sent [subscribed] alone, the client table
    records the session, and no [ActiveAudit] is touched.  The socket
    is not a subscriber: under any later interleaving in which it does
    not subscribe to the session again, it is sent no entry of the
    session, even when the session is started and logged to. *)
Theorem subscribe_without_session (ops0 ops : list Op) (ws : WebSocket) (id : Z) :
  let y := run ops0 init in
  activeAudits (st y) !! id = None →
  id ≠ 0 →
  readyState (sockets (st y) ws) = OPEN →
  Forall (no_subscribe ws id) ops →
  let y1 := step (Message ws (CSubscribe id)) y in
  outbox (sockets (st y1) ws) = outbox (sockets (st y) ws) ++ [MsgSubscribed id] ∧
  clientConnections (st y1) !! ws = Some (Some id) ∧
  activeAudits (st y1) = activeAudits (st y) ∧
  heap (st y1) = heap (st y) ∧
  received id ws (st (run ops y1)) = received id ws (st y).
Proof.
  intros y Hnone Hid Hop Hq y1.
  assert (Hwf : wf y) by apply run_wf, wf_init.
  assert (Hwf1 : wf y1) by (eapply trans_wf; [apply step_trans|done]).
  assert (Hst : st y1 =
                set_sockets (upd (sockets (st y)) ws
                               {| readyState := OPEN;
                                  outbox := outbox (sockets (st y) ws) ++ [MsgSubscribed id] |})
                  (set_clientConnections (<[ws := Some id]> (clientConnections (st y)))
                     (st y))).
  { unfold y1. cbn [step]. rewrite on_message_spec, truthy_nonzero by done. cbn [st].
    unfold replay, subscribed. rewrite Hnone. cbn [app send_all]. by rewrite Hop. }
  rewrite Hst. frames. rewrite upd_eq. cbn [outbox].
  split; [done|]. split; [apply lookup_insert_eq|]. split; [done|]. split; [done|].
  destruct (run_unsubscribed ws id ops y1 Hq Hwf1) as [_ Hrec].
  - intros r. rewrite Hst. frames. by rewrite Hnone.
  - rewrite Hrec, Hst. unfold received. frames. rewrite upd_eq. cbn [outbox].
    rewrite entries_for_app. cbn. by rewrite app_nil_r.
Qed.

Lemma subscribe_without_session_witness :
  let y := run (completed_then_logged ++ [Connection 5]) init in
  let y1 := step (Message 5 (CSubscribe 1)) y in
  outbox (sockets (st y1) 5%nat) = [MsgSubscribed 1] ∧
  received 1 5 (st (run [Resume 0 true 301] y1)) = [].
Proof.
  intros y y1.
  assert (Hq : Forall (no_subscribe 5 1) [Resume 0 true 301]) by (by repeat constructor).
  destruct (subscribe_without_session (completed_then_logged ++ [Connection 5])
              [Resume 0 true 301] 5 1 eq_refl) as (H1 & _ & _ & _ & H2);
    [discriminate|reflexivity|exact Hq|].
  split; [exact H1 | exact H2].
Defined.

(** X11: a subscription to another session does not end the earlier
    one.  In any state the event loop can reach, let a subscriber of
    session [a] subscribe to session [b], both registered.  The socket
    is then a subscriber of both, while the client table records [b]
    alone; and when the socket closes, the [close] handler takes it out
    of the subscriber set of [b] and drops it from the client table,
    but it stays in the subscriber set of [a]. *)
Theorem subscription_switch_keeps_old
    (ops0 : list Op) (ws : WebSocket) (a b : Z) (ra rb : Ref) :
  let y := run ops0 init in
  activeAudits (st y) !! a = Some ra →
  activeAudits (st y) !! b = Some rb →
  a ≠ b →
  ws ∈ subscribers (heap (st y) ra) →
  let y1 := step (Message ws (CSubscribe b)) y in
  let y2 := step (Close ws) y1 in
  (ws ∈ subscribers (heap (st y1) ra) ∧
   ws ∈ subscribers (heap (st y1) rb) ∧
   clientConnections (st y1) !! ws = Some (Some b)) ∧
  (ws ∈ subscribers (heap (st y2) ra) ∧
   (ws ∉ subscribers (heap (st y2) rb)) ∧
   clientConnections (st y2) !! ws = None ∧
   activeAudits (st y2) = activeAudits (st y)).
Proof.
  intros y Ha Hb Hab Hin y1 y2.
  pose proof (run_wf ops0 init wf_init) as [[H1 _ H3 _ _] _]. fold y in H1, H3.
  destruct (H1 _ _ Ha) as [Hla Hida]. destruct (H1 _ _ Hb) as [Hlb Hidb].
  assert (Hr : ra ≠ rb) by (intros ->; congruence).
  assert (Hb0 : b ≠ 0) by (specialize (H3 rb Hlb); lia).
  assert (Hst1 : st y1 =
                 set_sockets (snd (send_all (replay ws b (st y)) (sockets (st y))))
                   (subscribed ws b (st y))).
  { unfold y1. cbn [step]. by rewrite on_message_spec, truthy_nonzero. }
  assert (Hh1 : ∀ r, heap (st y1) r =
                     if bool_decide (r = rb)
                     then set_subscribers (Set_add ws (subscribers (heap (st y) rb)))
                            (heap (st y) rb)
                     else heap (st y) r).
  { intros r. rewrite Hst1. frames. rewrite subscribed_heap.
    case_bool_decide as E1; case_bool_decide as E2; try done.
    - congruence.
    - congruence.
    - subst. by destruct E1. }
  assert (Hc1 : clientConnections (st y1) !! ws = Some (Some b)).
  { rewrite Hst1. unfold subscribed. destruct (activeAudits (st y) !! b); cbn;
      apply lookup_insert_eq. }
  assert (Hr1 : activeAudits (st y1) = activeAudits (st y)) by (rewrite Hst1; by frames).
  split.
  { split; [|split; [|done]].
    - rewrite Hh1. by rewrite bool_decide_eq_false_2.
    - rewrite Hh1, bool_decide_eq_true_2 by done. cbn. apply elem_of_Set_add. by left. }
  assert (Hst2 : st y2 =
                 let s1 := set_sockets (upd (sockets (st y1)) ws
                             {| readyState := CLOSED;
                                outbox := outbox (sockets (st y1) ws) |}) (st y1) in
                 set_clientConnections (delete ws (clientConnections s1))
                   (unsubscribed ws s1)).
  { unfold y2. cbn [step st]. unfold exec, set_readyState.
    by rewrite bind_modify, on_close_spec. }
  assert (Hh2 : ∀ r, heap (st y2) r =
                     if bool_decide (r = rb)
                     then set_subscribers (Set_delete ws (subscribers (heap (st y1) rb)))
                            (heap (st y1) rb)
                     else heap (st y1) r).
  { intros r. rewrite Hst2. cbn zeta. frames. unfold unsubscribed. frames.
    rewrite Hc1, Hr1, Hb. frames.
    case_bool_decide as E; [subst; by rewrite upd_eq | by rewrite upd_ne]. }
  split; [|split; [|split]].
  - rewrite Hh2, bool_decide_eq_false_2, Hh1, bool_decide_eq_false_2 by done. done.
  - rewrite Hh2, bool_decide_eq_true_2 by done. cbn. rewrite elem_of_Set_delete.
    by intros [? _].
  - rewrite Hst2. cbn zeta. frames. apply lookup_delete_eq.
  - rewrite Hst2. cbn zeta. by frames.
Qed.

Lemma subscription_switch_keeps_old_witness :
  let y := run two_sessions init in
  let y2 := step (Close 5) (step (Message 5 (CSubscribe 2)) y) in
  5%nat ∈ subscribers (heap (st y2) 0%nat) ∧
  (5%nat ∉ subscribers (heap (st y2) 1%nat)) ∧
  clientConnections (st y2) !! 5%nat = None.
Proof.
  intros y y2.
  assert (Hin : 5%nat ∈ subscribers (heap (st y) 0%nat)).
  { change (5%nat ∈ [5%nat]). apply list_elem_of_here. }
  destruct (subscription_switch_keeps_old two_sessions 5 1 2 0%nat 1%nat
              eq_refl eq_refl) as (_ & H1 & H2 & H3 & _); [discriminate|exact Hin|].
  split; [exact H1|]. split; [exact H2 | exact H3].
Defined.

(** ** The typed helpers and the tallies of the report *)

Lemma logEvent_auditLogEntries id ty data now ok s :
  ∃ n, auditLogEntries (db (exec (logEvent id ty data now ok) s)) =
       auditLogEntries (db s) ++
       (if ok then [{| row_auditLogId := id; row_sequenceNum := n; row_timestamp := now;
                       row_eventType := ty; row_eventData := data |}] else []).
Proof.
  unfold exec. rewrite logEvent_spec. cbn [snd].
  destruct (activeAudits s !! id) as [r|]; eexists; frames;
    by rewrite persist_auditLogEntries.
Qed.

Lemma count_type_snoc t l row :
  count_type t (l ++ [row]) =
  count_type t l + (if bool_decide (row_eventType row = t) then 1 else 0).
Proof.
  unfold count_type. rewrite filter_app, length_app, filter_cons, filter_nil.
  case_bool_decide; [rewrite decide_True by done|rewrite decide_False by done]; cbn; lia.
Qed.

Lemma report_summary_Some id s log :
  select_log id (db s) = Some log →
  report_summary id s =
  Some {| totalEvents := Z.of_nat (length (rows_of id (db s)));
          dbQueries := count_type db_query (rows_of id (db s));
          dbInserts := count_type db_insert (rows_of id (db s));
          dbUpdates := count_type db_update (rows_of id (db s));
          llmCalls := count_type llm_call (rows_of id (db s));
          chunksProcessed := count_type chunk_processed (rows_of id (db s));
          errors := count_type error (rows_of id (db s)) |}.
Proof.
  intros Hlog. unfold report_summary, result, getFullAuditReport, getAuditLog, getAuditEntries.
  rewrite bind_gets, Hlog, bind_gets. unfold ret. cbn [fst rep_summary]. f_equal.
  f_equal; try apply count_type_perm, select_entries_perm.
  f_equal. apply Permutation_length, select_entries_perm.
Qed.

Lemma report_summary_logEvent id ty data now (ok : bool) s log :
  select_log id (db s) = Some log →
  ∃ m, report_summary id s = Some m ∧
       report_summary id (exec (logEvent id ty data now ok) s) =
       Some (if ok then counted ty m else m).
Proof.
  intros Hlog. eexists. split; [by eapply report_summary_Some|].
  destruct (logEvent_auditLogEntries id ty data now ok s) as [n Hrows].
  assert (Hlog' : select_log id (db (exec (logEvent id ty data now ok) s)) = Some log).
  { unfold select_log. by rewrite logEvent_auditLogs. }
  rewrite (report_summary_Some _ _ _ Hlog'). unfold rows_of. rewrite Hrows.
  destruct ok; [|by rewrite app_nil_r].
  rewrite filter_app, filter_cons, filter_nil. cbn [row_auditLogId].
  rewrite decide_True by done. unfold counted. f_equal.
  rewrite !count_type_snoc, length_app. cbn [row_eventType length]. cbv zeta beta.
  f_equal; try done. cbn [totalEvents]. lia.
Qed.

(** X12: each typed helper whose event type has a tally adds one event
    to the report of a session that has its row, when its insert
    succeeds: [totalEvents] goes up by one, and so does the tally of the
    helper's type and no other.  When the insert fails the report does
    not change. *)
Theorem helpers_counted_in_report
    (s : State) (id : Z) (log : AuditLogRow) (now : Z)
    (sql table : string) (operation : SqlOperation) (rowsReturned durationMs : Z)
    (params : option (list JsValue))
    (rowId : Z) (keyFields newValues : list (string * JsValue)) (fieldsUpdated : list string)
    (model purpose promptPreview responsePreview : string) (inputTokens outputTokens : Z)
    (chunkIndex' : option Z)
    (chunkIndex inputWords outputWords targetWords : Z) (withinTolerance : bool)
    (claimsAddressed violations : option (list string))
    (errorType message context : string) (willRetry : bool) :
  select_log id (db s) = Some log →
  ∃ m, report_summary id s = Some m ∧
    let after (call : bool → M unit) := report_summary id (exec (call true) s) in
    let failed (call : bool → M unit) := report_summary id (exec (call false) s) in
    after (logDbQuery id sql table operation rowsReturned durationMs params now)
      = Some (counted db_query m) ∧
    after (logDbInsert id table rowId keyFields durationMs now)
      = Some (counted db_insert m) ∧
    after (logDbUpdate id table rowId fieldsUpdated newValues durationMs now)
      = Some (counted db_update m) ∧
    after (logLlmCall id model purpose inputTokens outputTokens promptPreview
             responsePreview durationMs chunkIndex' now)
      = Some (counted llm_call m) ∧
    after (logChunkProcessed id chunkIndex inputWords outputWords targetWords
             withinTolerance claimsAddressed violations now)
      = Some (counted chunk_processed m) ∧
    after (logError id errorType message context willRetry chunkIndex' now)
      = Some (counted error m) ∧
    (∀ ty, totalEvents (counted ty m) = totalEvents m + 1) ∧
    tallies (counted db_query m) =
      [dbQueries m + 1; dbInserts m; dbUpdates m; llmCalls m; chunksProcessed m; errors m] ∧
    tallies (counted db_insert m) =
      [dbQueries m; dbInserts m + 1; dbUpdates m; llmCalls m; chunksProcessed m; errors m] ∧
    tallies (counted db_update m) =
      [dbQueries m; dbInserts m; dbUpdates m + 1; llmCalls m; chunksProcessed m; errors m] ∧
    tallies (counted llm_call m) =
      [dbQueries m; dbInserts m; dbUpdates m; llmCalls m + 1; chunksProcessed m; errors m] ∧
    tallies (counted chunk_processed m) =
      [dbQueries m; dbInserts m; dbUpdates m; llmCalls m; chunksProcessed m + 1; errors m] ∧
    tallies (counted error m) =
      [dbQueries m; dbInserts m; dbUpdates m; llmCalls m; chunksProcessed m; errors m + 1] ∧
    failed (logDbQuery id sql table operation rowsReturned durationMs params now)
      = Some m ∧
    failed (logDbInsert id table rowId keyFields durationMs now) = Some m ∧
    failed (logDbUpdate id table rowId fieldsUpdated newValues durationMs now)
      = Some m ∧
    failed (logLlmCall id model purpose inputTokens outputTokens promptPreview
              responsePreview durationMs chunkIndex' now)
      = Some m ∧
    failed (logChunkProcessed id chunkIndex inputWords outputWords targetWords
              withinTolerance claimsAddressed violations now)
      = Some m ∧
    failed (logError id errorType message context willRetry chunkIndex' now) = Some m.
Proof.
  intros Hlog.
  destruct (report_summary_logEvent id error (DataError "" "" "" None false) now false
              s log Hlog) as (m & Hm & _).
  exists m. split; [done|]. cbn zeta.
  assert (H : ∀ ty data (ok : bool),
            report_summary id (exec (logEvent id ty data now ok) s) =
            Some (if ok then counted ty m else m)).
  { intros ty data ok.
    destruct (report_summary_logEvent id ty data now ok s log Hlog) as (m' & Hm' & Hr).
    rewrite Hr. rewrite Hm in Hm'. by injection Hm' as <-. }
  unfold logDbQuery, logDbInsert, logDbUpdate, logLlmCall, logChunkProcessed, logError.
  rewrite !H. unfold tallies, counted. cbn.
  repeat split; repeat f_equal; repeat case_bool_decide; try done; lia.
Qed.

Lemma helpers_counted_in_report_witness :
  let s := st demo_session in
  report_summary 1 s =
    Some {| totalEvents := 1; dbQueries := 0; dbInserts := 0; dbUpdates := 0;
            llmCalls := 0; chunksProcessed := 0; errors := 0 |} ∧
  report_summary 1 (exec (logError 1 "E" "m" "c" true None 120 true) s) =
    Some {| totalEvents := 2; dbQueries := 0; dbInserts := 0; dbUpdates := 0;
            llmCalls := 0; chunksProcessed := 0; errors := 1 |}.
Proof.
  intros s.
  destruct (helpers_counted_in_report s 1
              {| log_id := 1; log_userId := 7; log_jobType := "reconstruction";
                 log_jobId := None; log_startedAt := 100; log_completedAt := None;
                 log_status := running; log_finalOutputPreview := None |} 120
              "" "" SELECT 0 0 None 0 [] [] [] "" "" "" "" 0 0 None 0 0 0 0 true None None
              "E" "m" "c" true eq_refl)
    as (m & Hm & _ & _ & _ & _ & _ & He & _).
  assert (Em : m = {| totalEvents := 1; dbQueries := 0; dbInserts := 0; dbUpdates := 0;
                      llmCalls := 0; chunksProcessed := 0; errors := 0 |}).
  { assert (H0 : report_summary 1 s = Some {| totalEvents := 1; dbQueries := 0;
                   dbInserts := 0; dbUpdates := 0; llmCalls := 0; chunksProcessed := 0;
                   errors := 0 |}) by (vm_compute; reflexivity).
    rewrite H0 in Hm. by injection Hm. }
  subst m. split; [exact Hm | exact He].
Defined.

(** X13: [logSkeletonExtracted] and [logStitchPass] log events that the
    report counts in [totalEvents] alone: for a session that has its
    row, after either helper with a successful insert [totalEvents] is
    one higher and the six tallies are as before, so the tallies of a
    report need not add up to its total. *)
Theorem helpers_without_tally
    (s : State) (id : Z) (log : AuditLogRow) (now : Z)
    (claimsCount termsCount structuralRequirements totalTargetWords : Z)
    (coherenceScore : string)
    (claimsCovered claimsMissing topicViolations repairsNeeded : Z) :
  select_log id (db s) = Some log →
  ∃ m, report_summary id s = Some m ∧
    let more := {| totalEvents := totalEvents m + 1;
                   dbQueries := dbQueries m; dbInserts := dbInserts m;
                   dbUpdates := dbUpdates m; llmCalls := llmCalls m;
                   chunksProcessed := chunksProcessed m; errors := errors m |} in
    report_summary id
      (exec (logSkeletonExtracted id claimsCount termsCount structuralRequirements
               totalTargetWords now true) s) = Some more ∧
    report_summary id
      (exec (logStitchPass id coherenceScore claimsCovered claimsMissing topicViolations
               repairsNeeded now true) s) = Some more.
Proof.
  intros Hlog.
  destruct (report_summary_logEvent id skeleton_extracted
              (DataSkeletonExtracted claimsCount termsCount structuralRequirements
                 totalTargetWords) now true s log Hlog) as (m & Hm & H1).
  destruct (report_summary_logEvent id stitch_pass
              (DataStitchPass coherenceScore claimsCovered claimsMissing topicViolations
                 repairsNeeded) now true s log Hlog) as (m' & Hm' & H2).
  rewrite Hm in Hm'. injection Hm' as <-.
  exists m. split; [done|]. cbn zeta.
  unfold logSkeletonExtracted, logStitchPass. rewrite H1, H2. unfold counted. cbn.
  split; do 2 f_equal; repeat case_bool_decide; try done; lia.
Qed.

Lemma helpers_without_tally_witness :
  let s := st demo_session in
  report_summary 1 (exec (logStitchPass 1 "high" 3 0 0 0 120 true) s) =
    Some {| totalEvents := 2; dbQueries := 0; dbInserts := 0; dbUpdates := 0;
            llmCalls := 0; chunksProcessed := 0; errors := 0 |}.
Proof.
  intros s.
  destruct (helpers_without_tally s 1
              {| log_id := 1; log_userId := 7; log_jobType := "reconstruction";
                 log_jobId := None; log_startedAt := 100; log_completedAt := None;
                 log_status := running; log_finalOutputPreview := None |} 120
              0 0 0 0 "high" 3 0 0 0 eq_refl)
    as (m & Hm & _ & Hs).
  assert (Em : m = {| totalEvents := 1; dbQueries := 0; dbInserts := 0; dbUpdates := 0;
                      llmCalls := 0; chunksProcessed := 0; errors := 0 |}).
  { assert (H0 : report_summary 1 s = Some {| totalEvents := 1; dbQueries := 0;
                   dbInserts := 0; dbUpdates := 0; llmCalls := 0; chunksProcessed := 0;
                   errors := 0 |}) by (vm_compute; reflexivity).
    rewrite H0 in Hm. by injection Hm. }
  subst m. exact Hs.
Defined.

(** ** The durable log only grows *)

Lemma resumed_log_app ops ops' y :
  resumed_log (ops ++ ops') y = resumed_log ops y ++ resumed_log ops' (run ops y).
Proof.
  revert y. induction ops as [|o ops IH]; intros y; [done|].
  cbn [app resumed_log]. by rewrite IH, run_cons, app_assoc.
Qed.

Lemma persisted_app res res' : persisted (res ++ res') = persisted res ++ persisted res'.
Proof. unfold persisted. by rewrite filter_app, !map_app. Qed.

Lemma trans_auditLogEntries o y y' frs res :
  trans o y y' frs res →
  auditLogEntries (db (st y')) = auditLogEntries (db (st y)) ++ persisted res.
Proof.
  intros T.
  destruct T as [o y ts Hsub|ws y|ws id y Htr|ws y|ws rs' y|o y id r ty d now k Hreg
                |o y id ty d now k Hreg|i now y u jt j t0 Hi|i ok now y fr k ts Hi Hts
                |i ok now y id sc pv at_ unreg Hi|i ok now y ws id Hi];
    cbn [st]; try (cbn [persisted filter map]; rewrite app_nil_r).
  - done.
  - by frames.
  - by frames.
  - cbn zeta. by frames.
  - by frames.
  - by frames.
  - done.
  - by frames.
  - change (persisted [(fr, ok)]) with (persisted ([] ++ [(fr, ok)])).
    rewrite persisted_snoc. cbn [persisted filter map app].
    destruct (fr_audit fr); frames; by rewrite persist_auditLogEntries.
  - subst s1. by destruct unreg; frames.
  - by frames.
Qed.

Lemma run_auditLogEntries ops y :
  auditLogEntries (db (st (run ops y))) =
  auditLogEntries (db (st y)) ++ persisted (resumed_log ops y).
Proof.
  revert y. induction ops as [|o ops IH]; intros y.
  - cbn. by rewrite app_nil_r.
  - rewrite run_cons. cbn [resumed_log]. rewrite IH.
    rewrite (trans_auditLogEntries _ _ _ _ _ (step_trans o y)), persisted_app.
    by rewrite app_assoc.
Qed.

(** X14: the [auditLogEntries] table is append-only.  From any state
    and under any interleaving, no row of the table is removed or
    altered: the table of now is a prefix of every later table, and the
    rows of each session are a prefix of the later rows of that
    session. *)
Theorem auditLogEntries_append_only (y : Sys) (ops : list Op) (id : Z) :
  let d := db (st y) in
  let d' := db (st (run ops y)) in
  auditLogEntries d `prefix_of` auditLogEntries d' ∧
  rows_of id d `prefix_of` rows_of id d'.
Proof.
  intros d d'. pose proof (run_auditLogEntries ops y) as H. fold d d' in H. split.
  - rewrite H. by apply prefix_app_r.
  - unfold rows_of. rewrite H, filter_app. by apply prefix_app_r.
Qed.

(** ** The buffer and the calls in flight *)

Lemma flight_inv_same y y' res :
  nextRef (st y') = nextRef (st y) →
  (∀ r, entries (heap (st y') r) = entries (heap (st y) r)) →
  flight_inv y res → flight_inv y' (res ++ []).
Proof.
  intros Hn He Hinv r. rewrite Hn, He, app_nil_r. apply Hinv.
Qed.

Lemma trans_flight_inv o y y' frs rs log res :
  trans o y y' frs rs → wf y → log_inv (st y) log → persist_inv y log res →
  flight_inv y res → flight_inv y' (res ++ rs).
Proof.
  intros T [Hs Hf] (Hfl & _ & _) [Hperm _] Hinv.
  destruct T as [o y ts Hsub|ws y|ws id y Htr|ws y|ws rs' y|o y id r ty d now k Hreg
                |o y id ty d now k Hreg|i now y u jt j t0 Hi|i ok now y fr k ts Hi Hts
                |i ok now y id sc pv at_ unreg Hi|i ok now y ws id Hi].
  - eapply flight_inv_same; [..|exact Hinv]; by sframes.
  - eapply flight_inv_same; [..|exact Hinv]; by sframes.
  - eapply flight_inv_same; [..|exact Hinv]; by sframes.
  - cbn zeta. eapply flight_inv_same; [..|exact Hinv]; by sframes.
  - eapply flight_inv_same; [..|exact Hinv]; by sframes.
  - eapply flight_inv_same; [..|exact Hinv]; by sframes.
  - eapply flight_inv_same; [..|exact Hinv]; by sframes.
  - set (s := st y) in *. intros r. rewrite app_nil_r. cbn [st]. frames. intros Hr.
    destruct (decide (r = nextRef s)) as [->|Hne].
    + rewrite upd_eq. cbn [entries]. symmetry.
      unfold calls_on_object. rewrite filter_none; [done|].
      intros fr' Hin Hr'.
      assert (Hlog : fr' ∈ log) by (rewrite Hperm; apply elem_of_app; by left).
      destruct (Hfl _ _ Hlog Hr') as [Hlt _]. unfold s in *. lia.
    + rewrite upd_ne by done. apply Hinv. unfold s in *. lia.
  - intros r. cbn [st].
    assert (Hn : nextRef (match fr_audit fr with
                          | Some r => publish (fr_auditLogId fr) (fr_entry fr)
                                        (push r (fr_entry fr)
                                           (persist (fr_insertData fr) ok (st y)))
                          | None => persist (fr_insertData fr) ok (st y)
                          end) = nextRef (st y)).
    { destruct (fr_audit fr); by frames. }
    rewrite Hn. intros Hr. rewrite map_app. cbn [map fst].
    rewrite calls_on_object_snoc, map_app, <- (Hinv r Hr).
    destruct (fr_audit fr) as [rf|] eqn:Haud.
    + frames. rewrite push_entries. frames.
      destruct (decide (r = rf)) as [->|Hne].
      * by rewrite !bool_decide_eq_true_2.
      * rewrite !bool_decide_eq_false_2 by congruence. by rewrite app_nil_r.
    + frames. rewrite bool_decide_eq_false_2 by done. by rewrite app_nil_r.
  - subst s1. eapply flight_inv_same; [..|exact Hinv]; cbn [st].
    + by destruct unreg; frames.
    + intros r. by destruct unreg; frames.
  - eapply flight_inv_same; [..|exact Hinv]; by sframes.
Qed.

Lemma run_flight_inv ops y log res :
  wf y → log_inv (st y) log → persist_inv y log res → flight_inv y res →
  flight_inv (run ops y) (res ++ resumed_log ops y).
Proof.
  revert y log res. induction ops as [|o ops IH]; intros y log res Hwf Hlog Hper Hinv.
  - cbn. by rewrite app_nil_r.
  - rewrite run_cons. cbn [resumed_log]. rewrite app_assoc.
    pose proof (step_trans o y) as T.
    apply (IH _ (log ++ assigned o y)).
    + by eapply trans_wf.
    + by eapply trans_log_inv.
    + by eapply trans_persist_inv.
    + by eapply trans_flight_inv.
Qed.

Lemma flight_inv_init : flight_inv init [].
Proof. intros r Hr. cbn in Hr. lia. Qed.

(** What the three invariants give for an object: the calls on it are,
    up to their order, those that have returned followed by those in
    flight. *)
Lemma calls_on_object_split ops r :
  let y := run ops init in
  calls_on_object r (assigned_log ops init) ≡ₚ
  calls_on_object r (map fst (resumed_log ops init)) ++ pending_on r (pool y).
Proof.
  intros y.
  pose proof (run_persist_inv ops init [] [] persist_inv_init) as [Hperm _].
  rewrite !app_nil_l in Hperm. fold y in Hperm.
  unfold calls_on_object, pending_on, calls_on_object. by rewrite Hperm, filter_app.
Qed.

(** X15: under any interleaving, the counter of a registered session
    counts the entries in its buffer and the [logEvent] calls on it that
    are suspended at their insert; the numbers of these entries and
    calls are, up to their order, 1, 2, 3, ... up to the counter.  So no
    two entries of the buffer share a number and none is above the
    counter, even when calls overlap. *)
Theorem counter_counts_buffer_and_flight (ops : list Op) (id : Z) (r : Ref) :
  let y := run ops init in
  activeAudits (st y) !! id = Some r →
  let a := heap (st y) r in
  sequenceCounter a = Z.of_nat (length (entries a) + length (pending_on r (pool y))) ∧
  map sequenceNum (entries a) ++ numbers (pending_on r (pool y)) ≡ₚ
    seqZ 1 (sequenceCounter a) ∧
  NoDup (map sequenceNum (entries a)) ∧
  Forall (λ e, 1 ≤ sequenceNum e ≤ sequenceCounter a) (entries a).
Proof.
  intros y Hreg a.
  pose proof (run_wf ops init wf_init) as [[H1 _ _ _ _] _]. fold y in H1.
  destruct (H1 _ _ Hreg) as [Hlt _].
  pose proof (run_log_inv ops init [] wf_init log_inv_init) as (_ & _ & Hl).
  rewrite app_nil_l in Hl. fold y in Hl. destruct (Hl r Hlt) as [Hc Hn].
  pose proof (run_flight_inv ops init [] [] wf_init log_inv_init persist_inv_init
                flight_inv_init r Hlt) as He.
  rewrite app_nil_l in He. fold y in He. fold a in He, Hc.
  pose proof (calls_on_object_split ops r) as Hsplit. cbn zeta in Hsplit. fold y in Hsplit.
  assert (Hnum : map sequenceNum (entries a) ++ numbers (pending_on r (pool y)) ≡ₚ
                 seqZ 1 (sequenceCounter a)).
  { rewrite Hc, <- Hn, He, map_map. unfold numbers. rewrite <- map_app.
    apply Permutation_map. by symmetry. }
  split; [|split; [done|split]].
  - rewrite Hc. f_equal. rewrite Hsplit, length_app. f_equal.
    by rewrite He, length_map.
  - assert (Hnd : NoDup (map sequenceNum (entries a) ++ numbers (pending_on r (pool y))))
      by (rewrite Hnum; apply NoDup_seqZ).
    by apply NoDup_app in Hnd as [? _].
  - apply Forall_forall. intros e Hin.
    assert (Hm : sequenceNum e ∈ seqZ 1 (sequenceCounter a)).
    { rewrite <- Hnum. apply elem_of_app. left. by apply (list_elem_of_fmap_2 sequenceNum). }
    apply elem_of_seqZ in Hm. lia.
Qed.

Lemma counter_counts_buffer_and_flight_witness :
  let y := run overlapping init in
  let a := heap (st y) 0%nat in
  sequenceCounter a = Z.of_nat (length (entries a) + length (pending_on 0 (pool y))) ∧
  NoDup (map sequenceNum (entries a)) ∧
  map sequenceNum (entries a) = [1; 3; 2].
Proof.
  intros y a.
  destruct (counter_counts_buffer_and_flight overlapping 1 0%nat eq_refl)
    as (H1 & _ & H3 & _).
  split; [exact H1|]. split; [exact H3 | reflexivity].
Defined.

(** ** The history and the buffer *)

Lemma settled_inv id ops y :
  settled id ops y = true →
  (∀ fr, fr ∈ assigned_log ops y → fr_auditLogId fr = id → is_Some (fr_audit fr)) ∧
  (∀ p, p ∈ resumed_log ops y → fr_auditLogId p.1 = id → p.2 = true) ∧
  (∀ fr, fr ∈ frames_of (pool (run ops y)) → fr_auditLogId fr ≠ id).
Proof.
  intros Hset.
  apply andb_true_iff in Hset as [Hset Hpool]. apply andb_true_iff in Hset as [Hreg Hok].
  split; [|split].
  - intros fr Hin. pose proof (forallb_elem_of _ _ _ Hreg Hin) as H. cbn in H.
    by apply bool_decide_eq_true_1 in H.
  - intros p Hin. pose proof (forallb_elem_of _ _ _ Hok Hin) as H. cbn in H.
    by apply bool_decide_eq_true_1 in H.
  - intros fr Hin. pose proof (forallb_elem_of _ _ _ Hpool Hin) as H. cbn in H.
    by apply bool_decide_eq_true_1 in H.
Qed.

(** The rows of a settled session, as the ordered select returns them,
    are the rows of the calls made for it, in the order of the calls. *)
Lemma select_entries_settled ops id :
  settled id ops init = true →
  select_entries id (db (st (run ops init))) =
  map fr_insertData (calls_for id (assigned_log ops init)).
Proof.
  intros Hset. destruct (settled_inv _ _ _ Hset) as (Hreg & Hok & Hpool).
  set (y := run ops init) in *.
  pose proof (run_wf ops init wf_init) as [Hs _].
  pose proof (run_log_inv ops init [] wf_init log_inv_init) as (Hf & Hw & Hl).
  pose proof (run_persist_inv ops init [] [] persist_inv_init) as [Hperm Hrows].
  rewrite app_nil_l in Hf, Hw, Hl, Hperm, Hrows.
  set (log := assigned_log ops init) in *. set (res := resumed_log ops init) in *.
  fold y in Hs, Hf, Hl, Hperm, Hrows.
  set (calls := calls_for id log).
  assert (Hnum : map row_sequenceNum (map fr_insertData calls) =
                 seqZ 1 (Z.of_nat (length calls))).
  { transitivity (numbers (calls_on id log)).
    - unfold numbers. rewrite map_map.
      replace (calls_on id log) with calls.
      2:{ apply filter_agree. intros fr Hin. split; [|by intros [? _]].
          intros Hid. split; [done|]. by apply Hreg. }
      apply map_ext_Forall, Forall_forall. intros fr Hin.
      apply list_elem_of_filter in Hin as [_ Hin].
      rewrite Forall_forall in Hw. by destruct (Hw fr Hin) as (H & _).
    - replace (length calls) with (length (calls_on id log)).
      2:{ f_equal. symmetry. apply filter_agree. intros fr Hin. split; [|by intros [? _]].
          intros Hid. split; [done|]. by apply Hreg. }
      destruct (calls_on_one_object _ log id Hs Hf) as [-> | (r & Hr & ->)]; [done|].
      by apply Hl. }
  apply (ascending_perm_consecutive _ _ 1); [|apply order_by_seq_ascending|].
  2:{ by rewrite Hnum, !length_map. }
  rewrite select_entries_perm. unfold rows_of. rewrite Hrows. unfold persisted.
  assert (Hwres : Forall frame_wf (map fst res)).
  { apply Forall_forall. intros fr Hin. rewrite Forall_forall in Hw. apply Hw.
    rewrite Hperm. apply elem_of_app. by left. }
  rewrite rows_of_frames.
  2:{ apply Forall_forall. intros fr Hin. rewrite Forall_forall in Hwres. apply Hwres.
      apply list_elem_of_fmap in Hin as (p & -> & Hp).
      apply list_elem_of_filter in Hp as [_ Hp]. apply list_elem_of_fmap. eauto. }
  rewrite calls_for_succeeded by done.
  apply fmap_Permutation. unfold calls, calls_for. rewrite Hperm, filter_app.
  rewrite (filter_none _ (frames_of (pool y))), app_nil_r; [done|].
  intros fr Hin. by apply Hpool.
Qed.

Lemma trans_frame_row o y y' frs res : trans o y y' frs res → Forall frame_row frs.
Proof. intros T. destruct T; by repeat constructor. Qed.

Lemma assigned_log_frame_row ops y : Forall frame_row (assigned_log ops y).
Proof.
  revert y. induction ops as [|o ops IH]; intros y; [constructor|].
  cbn [assigned_log]. apply Forall_app. split; [|apply IH].
  eapply trans_frame_row, step_trans.
Qed.

Lemma buffer_state_kept r y y' :
  nextRef (st y') = nextRef (st y) →
  frames_of (pool y') = frames_of (pool y) →
  sequenceCounter (heap (st y') r) = sequenceCounter (heap (st y) r) →
  entries (heap (st y') r) = entries (heap (st y) r) →
  ((r < nextRef (st y))%nat → buffer_state y r) →
  (r < nextRef (st y'))%nat → buffer_state y' r.
Proof.
  intros Hn Hp Hc He Hinv Hr. rewrite Hn in Hr.
  eapply buffer_state_same; [by apply pending_on_eq|done|done|by apply Hinv].
Qed.

(** The buffer of one object through a step, when no call starts on
    that object while another call on it is suspended. *)
Lemma trans_buffer_state r0 o y y' frs res :
  trans o y y' frs res → wf y →
  (∀ fr, fr ∈ frs → fr_audit fr = Some r0 → pending_on r0 (pool y) = []) →
  ((r0 < nextRef (st y))%nat → buffer_state y r0) →
  (r0 < nextRef (st y'))%nat → buffer_state y' r0.
Proof.
  intros T [Hs Hf] Hno Hinv.
  destruct T as [o y ts Hsub|ws y|ws id y Htr|ws y|ws rs y|o y id r ty d now k Hreg
                |o y id ty d now k Hreg|i now y u jt j t0 Hi|i ok now y fr k ts Hi Hts
                |i ok now y id sc pv at_ unreg Hi|i ok now y ws id Hi].
  - eapply buffer_state_kept; [..|exact Hinv]; by sframes.
  - eapply buffer_state_kept; [..|exact Hinv]; by sframes.
  - eapply buffer_state_kept; [..|exact Hinv]; by sframes.
  - cbn zeta. eapply buffer_state_kept; [..|exact Hinv]; by sframes.
  - eapply buffer_state_kept; [..|exact Hinv]; by sframes.
  - cbn [st pool]. frames. intros Hr0. specialize (Hinv Hr0).
    destruct (decide (r0 = r)) as [->|Hne].
    + unfold buffer_state in *. cbn [st pool].
      rewrite pending_on_app, pending_on_frame. subst fr. cbn [fr_audit frame_of fr_entry].
      rewrite bool_decide_eq_true_2 by done.
      rewrite (Hno _ (list_elem_of_here _ _) eq_refl) in *. cbn [app sequenceNum].
      rewrite stamp_sequenceCounter, bool_decide_eq_true_2 by done. frames.
      destruct Hinv as [Hc Hnum]. split; [reflexivity|]. split; [lia|exact Hnum].
    + eapply buffer_state_same; [| | |exact Hinv]; cbn [st pool].
      * rewrite pending_on_app, pending_on_frame. subst fr. cbn [fr_audit frame_of].
        rewrite bool_decide_eq_false_2 by congruence. by rewrite app_nil_r.
      * rewrite stamp_sequenceCounter. by rewrite bool_decide_eq_false_2.
      * by frames.
  - intros Hr0. specialize (Hinv Hr0).
    eapply buffer_state_same; [| | |exact Hinv]; cbn [st pool]; try done.
    rewrite pending_on_app, pending_on_frame. subst fr. cbn [fr_audit frame_of].
    rewrite bool_decide_eq_false_2 by done. by rewrite app_nil_r.
  - set (s := st y) in *.
    set (s' := stamp (nextRef s) (registered u jt j t0 s)).
    assert (Hold : ∀ r, (r < nextRef s)%nat → heap s' r = heap s r).
    { intros r Hr. unfold s', stamp. frames. rewrite !upd_ne by lia. done. }
    assert (Hnone : pending_on (nextRef s) (pool y) = []).
    { unfold pending_on, calls_on_object. apply filter_none.
      intros fr' Hin Hr'. destruct (Hf _ _ Hin Hr') as [Hlt _]. unfold s in *. lia. }
    assert (Hdel : ∀ r', pending_on r' (delete i (pool y)) = pending_on r' (pool y)).
    { intros r'. apply pending_on_eq. by eapply frames_of_delete_other. }
    cbn [st pool]. fold s'. change (nextRef s') with (S (nextRef s)). intros Hr0.
    destruct (decide (r0 = nextRef s)) as [->|Hne].
    + unfold buffer_state. cbn [st pool]. fold s'.
      rewrite pending_on_app, pending_on_frame, Hdel, Hnone. subst fr.
      cbn [fr_audit frame_of fr_entry]. rewrite bool_decide_eq_true_2 by done.
      cbn [app sequenceNum].
      unfold s'. rewrite stamp_sequenceCounter, bool_decide_eq_true_2 by done.
      frames. rewrite upd_eq. cbn. by repeat split.
    + assert (Hr1 : (r0 < nextRef s)%nat) by lia.
      eapply buffer_state_same; [| | |exact (Hinv Hr1)]; cbn [st pool]; fold s'.
      * rewrite pending_on_app, pending_on_frame, Hdel. subst fr. cbn [fr_audit frame_of].
        rewrite bool_decide_eq_false_2 by congruence. by rewrite app_nil_r.
      * by rewrite Hold.
      * by rewrite Hold.
  - destruct (frames_of_delete_frame _ _ _ _ Hi) as (l1 & l2 & Hp & Hp').
    assert (Hpend : ∀ r', pending_on r' (delete i (pool y) ++ ts) =
                          calls_on_object r' l1 ++ calls_on_object r' l2).
    { intros r'. unfold pending_on. rewrite frames_of_app, Hts, app_nil_r, Hp'.
      unfold calls_on_object. by rewrite filter_app. }
    assert (Hpend0 : ∀ r', pending_on r' (pool y) =
                           calls_on_object r' l1 ++
                           (if bool_decide (fr_audit fr = Some r') then [fr] else []) ++
                           calls_on_object r' l2).
    { intros r'. unfold pending_on. rewrite Hp. unfold calls_on_object.
      rewrite filter_app.
      by case_bool_decide; [rewrite filter_cons_True|rewrite filter_cons_False]. }
    cbn [st pool].
    assert (Hn : nextRef (match fr_audit fr with
                          | Some r => publish (fr_auditLogId fr) (fr_entry fr)
                                        (push r (fr_entry fr)
                                           (persist (fr_insertData fr) ok (st y)))
                          | None => persist (fr_insertData fr) ok (st y)
                          end) = nextRef (st y)).
    { destruct (fr_audit fr); by frames. }
    rewrite Hn. intros Hr0. specialize (Hinv Hr0).
    destruct (fr_audit fr) as [rf|] eqn:Haud.
    + destruct (decide (r0 = rf)) as [->|Hne].
      * unfold buffer_state in *. cbn [st pool]. rewrite Hpend. rewrite Hpend0 in Hinv.
        rewrite bool_decide_eq_true_2 in Hinv by done.
        destruct (calls_on_object rf l1) as [|a l1'];
          [|by destruct l1', (calls_on_object rf l2)].
        destruct (calls_on_object rf l2) as [|b l2']; [|done].
        cbn [app] in *. destruct Hinv as (Hseq & Hc & Hnum).
        unfold audit_inv. frames.
        rewrite push_entries, bool_decide_eq_true_2 by done. frames. split.
        -- rewrite length_app. cbn. lia.
        -- apply entries_numbered_snoc; [done|]. lia.
      * eapply buffer_state_same; [| | |exact Hinv]; cbn [st pool].
        -- rewrite Hpend, Hpend0. rewrite bool_decide_eq_false_2 by congruence. done.
        -- by frames.
        -- frames. rewrite push_entries. rewrite bool_decide_eq_false_2 by done. by frames.
    + eapply buffer_state_same; [| | |exact Hinv]; cbn [st pool].
      * rewrite Hpend, Hpend0. rewrite bool_decide_eq_false_2 by done. done.
      * by frames.
      * by frames.
  - subst s1. eapply buffer_state_kept; [..|exact Hinv]; cbn [st pool].
    + by destruct unreg; frames.
    + by eapply frames_of_delete_other.
    + by destruct unreg; frames.
    + by destruct unreg; frames.
  - eapply buffer_state_kept; [..|exact Hinv]; cbn [st pool]; try by sframes.
    by eapply frames_of_delete_other.
Qed.

Lemma run_buffer_state r ops y :
  no_overlap_on r ops y = true → wf y →
  ((r < nextRef (st y))%nat → buffer_state y r) →
  (r < nextRef (st (run ops y)))%nat → buffer_state (run ops y) r.
Proof.
  revert y. induction ops as [|o ops IH]; intros y Hno Hwf Hinv; [done|].
  cbn [no_overlap_on] in Hno. apply andb_true_iff in Hno as [Ho Hno].
  rewrite run_cons. pose proof (step_trans o y) as T. apply IH; [done|..].
  - by eapply trans_wf.
  - eapply trans_buffer_state; [exact T|done| |done].
    intros fr Hin Haud. pose proof (forallb_elem_of _ _ _ Ho Hin) as Hfr.
    cbn in Hfr. rewrite bool_decide_eq_true_2 in Hfr by done.
    by destruct (pending_on r (pool y)).
Qed.

(** X16: the history of a session agrees with its buffer.  Take any run
    of the event loop from process start after which session [id] is
    registered, every [logEvent] call for it was made while it was
    registered and has returned, and each of their inserts succeeded.
    Then the rows [getAuditEntries] returns are the rows of the entries
    in the buffer of the session, each once; and when no two calls on
    the session overlapped, whatever the calls on other sessions did,
    they are these rows in the order of the buffer, so that a
    [get_history] request and a [subscribe] request are answered with
    the same events in the same order. *)
Theorem history_agrees_with_buffer (ops : list Op) (id : Z) (r : Ref) :
  let y := run ops init in
  settled id ops init = true →
  activeAudits (st y) !! id = Some r →
  ∃ rows,
    getAuditEntries id true (st y) = (Ok rows, st y) ∧
    rows ≡ₚ map (row_of_entry id) (entries (heap (st y) r)) ∧
    (no_overlap_on r ops init = true →
     rows = map (row_of_entry id) (entries (heap (st y) r))).
Proof.
  intros y Hset Hreg. exists (select_entries id (db (st y))). split; [done|].
  pose proof (select_entries_settled ops id Hset) as Hsel. fold y in Hsel.
  destruct (settled_inv _ _ _ Hset) as (Hregd & _ & Hpool). fold y in Hpool.
  pose proof (run_wf ops init wf_init) as [Hs Hfp]. fold y in Hs, Hfp.
  pose proof Hs as [H1 H2 _ _ _]. destruct (H1 _ _ Hreg) as [Hlt Hid].
  pose proof (run_log_inv ops init [] wf_init log_inv_init) as (Hf & _ & _).
  rewrite app_nil_l in Hf. fold y in Hf.
  pose proof (run_flight_inv ops init [] [] wf_init log_inv_init persist_inv_init
                flight_inv_init r Hlt) as He.
  rewrite app_nil_l in He. fold y in He.
  pose proof (calls_on_object_split ops r) as Hsplit. cbn zeta in Hsplit. fold y in Hsplit.
  set (log := assigned_log ops init) in *.
  assert (Hcalls : calls_for id log = calls_on_object r log).
  { apply filter_agree. intros fr Hin. split.
    - intros Hfid. destruct (Hregd fr Hin Hfid) as [r' Hr'].
      destruct (Hf _ _ Hin Hr') as [Hlt' Hid']. rewrite Hr'. f_equal.
      apply H2; [done|done|congruence].
    - intros Hr'. destruct (Hf _ _ Hin Hr') as [_ Hid']. congruence. }
  assert (Hpend : pending_on r (pool y) = []).
  { unfold pending_on, calls_on_object. apply filter_none. intros fr Hin Hr'.
    destruct (Hfp _ _ Hin Hr') as [_ Hid']. apply (Hpool fr Hin). congruence. }
  rewrite Hpend, app_nil_r in Hsplit.
  assert (Hrows : map fr_insertData (calls_on_object r log) =
                  map (row_of_entry id) (map fr_entry (calls_on_object r log))).
  { rewrite map_map. apply map_ext_Forall, Forall_forall. intros fr Hin.
    apply list_elem_of_filter in Hin as [Hr' Hin].
    pose proof (assigned_log_frame_row ops init) as Hfr. rewrite Forall_forall in Hfr.
    rewrite (Hfr fr Hin). f_equal. destruct (Hf _ _ Hin Hr') as [_ Hid']. congruence. }
  assert (Hperm : select_entries id (db (st y)) ≡ₚ
                  map (row_of_entry id) (entries (heap (st y) r))).
  { rewrite Hsel, Hcalls, Hrows, He. by rewrite Hsplit. }
  split; [done|]. intros Hno.
  assert (Hb : buffer_state y r).
  { apply (run_buffer_state r ops init Hno wf_init); [|done].
    intros H0. cbn in H0. lia. }
  unfold buffer_state in Hb. rewrite Hpend in Hb. destruct Hb as [_ Hb].
  apply (ascending_perm_consecutive _ _ 1); [done|apply order_by_seq_ascending|].
  rewrite map_map, length_map. cbn [row_of_entry row_sequenceNum].
  by apply numbered_entries_ascend.
Qed.

Lemma history_agrees_with_buffer_witness :
  let y := run mixed init in
  no_overlap mixed init = false ∧
  ∃ rows,
    getAuditEntries 1 true (st y) = (Ok rows, st y) ∧
    rows = map (row_of_entry 1) (entries (heap (st y) 0%nat)).
Proof.
  intros y. split; [reflexivity|].
  destruct (history_agrees_with_buffer mixed 1 0%nat eq_refl eq_refl)
    as (rows & Hget & _ & Heq).
  exists rows. split; [exact Hget|]. exact (Heq eq_refl).
Defined.

(** ** A history request *)

(** X17: a [get_history] request for a session id other than 0 that is
    resumed as soon as its query has settled is answered with one
    [history] message, which carries the rows of the session in
    ascending order of sequence number, each once; the request needs no
    subscription and no registered session, and it changes nothing but
    the outbox of the socket.  When the query fails, nothing is sent and
    nothing changes.  A request for id 0 is ignored. *)
Theorem get_history_request
    (y : Sys) (ws : WebSocket) (id : Z) (db_ok : bool) (now : Z) :
  id ≠ 0 →
  readyState (sockets (st y) ws) = OPEN →
  let y' := run [Message ws (CGetHistory id); Resume (length (pool y)) db_ok now] y in
  pool y' = pool y ∧
  st y' =
    (if db_ok
     then set_sockets (upd (sockets (st y)) ws
            {| readyState := OPEN;
               outbox := outbox (sockets (st y) ws) ++
                           [MsgHistory id (select_entries id (db (st y)))] |}) (st y)
     else st y) ∧
  select_entries id (db (st y)) ≡ₚ rows_of id (db (st y)) ∧
  ascending (select_entries id (db (st y))) ∧
  st (step (Message ws (CGetHistory 0)) y) = st y ∧
  pool (step (Message ws (CGetHistory 0)) y) = pool y.
Proof.
  intros Hid Hop y'.
  assert (Hy' : y' = {| st := exec (on_message_history ws id db_ok) (st y);
                        pool := pool y |}).
  { unfold y'. cbn [run fold_left step]. rewrite on_message_spec, truthy_nonzero by done.
    cbn [st pool]. rewrite lookup_pool_last. cbn [resume].
    by rewrite delete_pool_last, app_nil_r. }
  rewrite Hy'. cbn [st pool]. split; [done|]. split.
  - unfold exec. rewrite on_message_history_spec. cbn [snd].
    destruct db_ok; [|done]. cbn [send_all]. by rewrite Hop.
  - split; [apply select_entries_perm|]. split; [apply order_by_seq_ascending|].
    cbn [step]. by rewrite on_message_spec.
Qed.

Lemma get_history_request_witness :
  let y := run (completed_then_logged ++ [Resume 0 true 301; Connection 5]) init in
  let y' := run [Message 5 (CGetHistory 1); Resume (length (pool y)) true 302] y in
  map (λ m, match m with
            | MsgHistory i rows => Some (i, map row_sequenceNum rows)
            | _ => None
            end) (outbox (sockets (st y') 5%nat)) = [Some (1, [1; 1; 2])].
Proof.
  intros y y'.
  destruct (get_history_request y 5 1 true 302) as (_ & H & _);
    [discriminate|reflexivity|].
  unfold y'. rewrite H. reflexivity.
Defined.

(** ** The start of a session *)

Lemma state_ok_key s d :
  state_ok s → nextAuditLogId (db s) ≤ nextAuditLogId d → state_ok (set_db d s).
Proof.
  intros [H1 H2 H3 H4 H5] Hle. split; cbn [set_db activeAudits nextRef heap db]; try done.
  - intros r Hr. specialize (H3 r Hr). lia.
  - lia.
Qed.

(** X18: take any state in which the sessions in memory are well formed
    and the serial key of [auditLogs] is above the ids of the rows of
    the table and of the sessions in memory, whatever values of the key
    earlier failed inserts consumed and whatever rows earlier processes
    left.  When the insert of the session row fails [startAudit]
    rejects, registers nothing and writes no row: the registry, the
    [ActiveAudit] objects, the client table, the sockets and the rows of
    both tables are as before.  When it succeeds, [startAudit] returns
    the id the serial key hands out, which no registered session has; it
    registers a new [ActiveAudit] under that id, with the given user,
    job type and job, whose buffer holds the [job_started] entry with
    number 1 alone and which has no subscriber; [getAuditLog] returns
    the new row, with status [running]; and the other [ActiveAudit]
    objects, the client table and the sockets stay as they are.  This
    holds also when the insert of the [job_started] event fails. *)
Theorem startAudit_establishes_session
    (s : State) (userId : Z) (jobType : string) (jobId : option Z)
    (startedAt now : Z) (db_ok2 : bool) :
  state_ok s →
  key_above_rows (db s) →
  let id := nextAuditLogId (db s) in
  let r := nextRef s in
  let rejected := startAudit userId jobType jobId startedAt now false db_ok2 in
  let s' := exec (startAudit userId jobType jobId startedAt now true db_ok2) s in
  (result rejected s = Throw ∧
   activeAudits (exec rejected s) = activeAudits s ∧
   heap (exec rejected s) = heap s ∧
   clientConnections (exec rejected s) = clientConnections s ∧
   sockets (exec rejected s) = sockets s ∧
   auditLogs (db (exec rejected s)) = auditLogs (db s) ∧
   auditLogEntries (db (exec rejected s)) = auditLogEntries (db s)) ∧
  result (startAudit userId jobType jobId startedAt now true db_ok2) s = Ok id ∧
  activeAudits s !! id = None ∧
  activeAudits s' = <[id := r]> (activeAudits s) ∧
  heap s' r =
    {| auditLogId := id; userId := userId; jobType := jobType; jobId := jobId;
       sequenceCounter := 1; subscribers := [];
       entries := [{| sequenceNum := 1; timestamp := now; eventType := job_started;
                      eventData := DataJobStarted jobType None None |}] |} ∧
  (∀ r', r' ≠ r → heap s' r' = heap s r') ∧
  getAuditLog id true s' =
    (Ok (Some {| log_id := id; log_userId := userId; log_jobType := jobType;
                 log_jobId := jobId; log_startedAt := startedAt;
                 log_completedAt := None; log_status := running;
                 log_finalOutputPreview := None |}), s') ∧
  clientConnections s' = clientConnections s ∧
  sockets s' = sockets s.
Proof.
  intros [H1 _ H3 _ _] Hkey id r rejected s'.
  pose proof (startAudit_spec userId jobType jobId startedAt now true db_ok2 s) as Hsp.
  cbn zeta in Hsp.
  assert (Hnone : activeAudits s !! id = None).
  { destruct (activeAudits s !! id) as [r0|] eqn:E; [|done].
    destruct (H1 _ _ E) as [Hlt Hid]. specialize (H3 r0 Hlt). unfold id in *. lia. }
  assert (Hreg' : activeAudits s' = <[id := r]> (activeAudits s)).
  { unfold s', exec. rewrite Hsp. cbn [snd]. by frames. }
  assert (Hheap : ∀ r', heap s' r' =
            if bool_decide (r' = r)
            then {| auditLogId := id; userId := userId; jobType := jobType; jobId := jobId;
                    sequenceCounter := 1; subscribers := [];
                    entries := [{| sequenceNum := 1; timestamp := now;
                                   eventType := job_started;
                                   eventData := DataJobStarted jobType None None |}] |}
            else heap s r').
  { intros r'. unfold s', exec. rewrite Hsp. cbn [snd]. frames.
    unfold push, stamp. frames.
    case_bool_decide as E; [subst r'; by rewrite !upd_eq | by rewrite !upd_ne]. }
  split.
  { unfold rejected, result, exec. by rewrite startAudit_spec. }
  split; [unfold result; by rewrite Hsp|].
  split; [done|]. split; [done|].
  split; [by rewrite Hheap, bool_decide_eq_true_2|].
  split; [intros r' Hne; by rewrite Hheap, bool_decide_eq_false_2|].
  split; [|split].
  - unfold getAuditLog, gets, select_log. do 3 f_equal.
    unfold s', exec. rewrite Hsp. cbn [snd]. frames. cbn [auditLogs].
    rewrite filter_app, filter_none.
    + cbn [app]. rewrite filter_cons, decide_True by done. done.
    + intros row Hin Hid.
      specialize (Hkey row Hin). unfold id in *. lia.
  - unfold s', exec. rewrite Hsp. cbn [snd]. by frames.
  - unfold s', exec. rewrite Hsp. cbn [snd]. unfold publish. frames.
    rewrite lookup_insert_eq. frames. unfold push, stamp. frames.
    rewrite !upd_eq. done.
Qed.
Lemma startAudit_establishes_session_witness :
  let s0 := st demo_session in
  let s := set_db {| auditLogs := auditLogs (db s0);
                     auditLogEntries := auditLogEntries (db s0);
                     nextAuditLogId := nextAuditLogId (db s0) + 3 |} s0 in
  nextAuditLogId (db s0) = 2 ∧
  result (startAudit 8 "coherence" (Some 3) 200 201 true false) s = Ok 5 ∧
  map log_id (auditLogs (db (exec (startAudit 8 "coherence" (Some 3) 200 201 true false) s))) =
    [1; 5] ∧
  activeAudits (exec (startAudit 8 "coherence" (Some 3) 200 201 true false) s) =
    <[5 := nextRef s]> (activeAudits s).
Proof.
  intros s0 s.
  assert (Hok : state_ok s).
  { apply state_ok_key; [|cbn [nextAuditLogId]; lia].
    unfold s0, demo_session. apply run_wf, wf_init. }
  assert (Hkey : key_above_rows (db s)).
  { intros row Hin. vm_compute in Hin.
    inversion Hin as [|? ? ? Hin']; subst; [reflexivity|inversion Hin']. }
  pose proof (startAudit_establishes_session s 8 "coherence" (Some 3) 200 201 false Hok Hkey)
    as (_ & Hres & _ & Hreg & _).
  split; [reflexivity|]. split; [exact Hres|]. split; [reflexivity|exact Hreg].
Defined.

(** ** Closed sockets *)

Lemma socket_eta (k : Socket) rs :
  readyState k = rs → {| readyState := rs; outbox := outbox k |} = k.
Proof. intros <-. by destruct k. Qed.

Lemma trans_closed_socket ws o y y' frs res :
  trans o y y' frs res → keeps_socket ws o →
  readyState (sockets (st y) ws) = CLOSED →
  sockets (st y') ws = sockets (st y) ws.
Proof.
  intros T Hq Hcl.
  assert (Hno : readyState (sockets (st y) ws) ≠ OPEN) by (by rewrite Hcl).
  destruct T as [o y ts Hsub|ws' y|ws' id' y Htr|ws' y|ws' rs y|o y id' r' ty d now k Hreg
                |o y id' ty d now k Hreg|i now y u jt j t0 Hi|i ok now y fr k ts Hi Hts
                |i ok now y id' sc pv at_ unreg Hi|i ok now y ws' id' Hi];
    cbn [st pool keeps_socket] in *.
  - done.
  - frames. by rewrite upd_ne.
  - frames. by apply send_all_not_open.
  - cbn zeta. frames.
    destruct (decide (ws = ws')) as [->|Hne]; [|by rewrite upd_ne].
    rewrite upd_eq. by apply socket_eta.
  - frames. by rewrite upd_ne.
  - by frames.
  - done.
  - by frames.
  - destruct (fr_audit fr) as [rf|]; [|by frames].
    unfold publish. frames. destruct (activeAudits (st y) !! fr_auditLogId fr); frames; [|done].
    by apply deliver_not_open.
  - subst s1. destruct unreg; frames; by apply send_all_not_open.
  - frames. by apply send_all_not_open.
Qed.

(** X19: a closed socket is sent nothing.  From any state in which the
    socket is closed, and under any interleaving in which it is not
    replaced by a new connection, no message is added to its outbox:
    not an entry, though the socket may still be in a subscriber set,
    not a [completed] notification, and not the answer to a request it
    made before it closed. *)
Theorem closed_socket_receives_nothing (y : Sys) (ws : WebSocket) (ops : list Op) :
  readyState (sockets (st y) ws) = CLOSED →
  Forall (keeps_socket ws) ops →
  sockets (st (run ops y)) ws = sockets (st y) ws.
Proof.
  revert y. induction ops as [|o ops IH]; intros y Hcl Hq; [done|].
  apply Forall_cons in Hq as [Ho Hq]. rewrite run_cons.
  pose proof (trans_closed_socket ws _ _ _ _ _ (step_trans o y) Ho Hcl) as Hs.
  rewrite IH; [done| |done]. by rewrite Hs.
Qed.

Lemma closed_socket_receives_nothing_witness :
  let y := step (Close 5) (step (Message 5 (CSubscribe 2)) (run two_sessions init)) in
  let ops := [CallLogEvent 1 error (DataError "E" "m" "c" None false) 120;
              Resume 0 true 121;
              CallCompleteAudit 1 true None None None 130;
              Resume 0 true 131; Resume 0 true 132] in
  5%nat ∈ subscribers (heap (st y) 0%nat) ∧
  sockets (st (run ops y)) 5%nat = sockets (st y) 5%nat.
Proof.
  intros y ops. split.
  - change (5%nat ∈ [5%nat]). apply list_elem_of_here.
  - apply (closed_socket_receives_nothing y 5 ops); [reflexivity|].
    by repeat constructor.
Defined.

(** ** The mode labels of the job history page *)

Lemma is_word_to_upper c : is_word (to_upper c) = is_word c.
Proof. by destruct c as [[] [] [] [] [] [] [] []]. Qed.

Lemma to_upper_to_upper c : to_upper (to_upper c) = to_upper c.
Proof. by destruct c as [[] [] [] [] [] [] [] []]. Qed.

Lemma to_upper_hyphen c : Ascii.eqb (to_upper c) "-" = Ascii.eqb c "-".
Proof. by destruct c as [[] [] [] [] [] [] [] []]. Qed.

Lemma capitalize_words_length b s :
  String.length (capitalize_words b s) = String.length s.
Proof.
  revert b. induction s as [|c s IH]; intros b; [done|]. cbn. by rewrite IH.
Qed.

Lemma replace_hyphens_length s : String.length (replace_hyphens s) = String.length s.
Proof. induction s as [|c s IH]; [done|]. cbn. by rewrite IH. Qed.

Lemma capitalize_words_get b s i c :
  String.get i (capitalize_words b s) = Some c →
  ∃ c0, String.get i s = Some c0 ∧ (c = c0 ∨ c = to_upper c0).
Proof.
  revert b i. induction s as [|c0 s IH]; intros b i H; [done|].
  destruct i as [|i]; cbn in *.
  - injection H as <-. exists c0. split; [done|].
    destruct (b && is_word c0); [by right | by left].
  - by eapply IH.
Qed.

Lemma replace_hyphens_get s i c :
  String.get i (replace_hyphens s) = Some c →
  Ascii.eqb c "-" = false ∧
  ∃ c0, String.get i s = Some c0 ∧
        c = (if Ascii.eqb c0 "-" then " "%char else c0).
Proof.
  revert i. induction s as [|c0 s IH]; intros i H; [done|].
  destruct i as [|i]; cbn in *.
  - injection H as <-. split; [|by exists c0].
    destruct (Ascii.eqb c0 "-") eqn:E; [done|exact E].
  - by apply IH.
Qed.

(** X20: [formatMode] keeps the length of the mode.  Every character of
    the label is the character of the mode at that place, with a space
    for a hyphen and possibly in upper case; so the label has no
    hyphen. *)
Theorem formatMode_shape (mode : string) :
  String.length (formatMode mode) = String.length mode ∧
  ∀ i c, String.get i (formatMode mode) = Some c →
         c ≠ "-"%char ∧
         ∃ c0, String.get i mode = Some c0 ∧
               let c1 := if Ascii.eqb c0 "-" then " "%char else c0 in
               c = c1 ∨ c = to_upper c1.
Proof.
  unfold formatMode. split.
  - by rewrite capitalize_words_length, replace_hyphens_length.
  - intros i c H. apply capitalize_words_get in H as (c1 & H1 & Hc).
    apply replace_hyphens_get in H1 as (Hh & c0 & H0 & ->). split.
    + intros ->. destruct Hc as [Hc|Hc].
      * rewrite <- Hc in Hh. discriminate Hh.
      * rewrite <- to_upper_hyphen, <- Hc in Hh. discriminate Hh.
    + by exists c0.
Qed.

Lemma replace_hyphens_capitalized b s :
  replace_hyphens (capitalize_words b (replace_hyphens s)) =
  capitalize_words b (replace_hyphens s).
Proof.
  revert b. induction s as [|c s IH]; intros b; [done|].
  cbn. rewrite IH. f_equal.
  destruct (Ascii.eqb c "-") eqn:E.
  - cbn. by destruct b.
  - replace (is_word c) with (is_word c) by done.
    destruct (b && is_word c); [|by rewrite E].
    by rewrite to_upper_hyphen, E.
Qed.

Lemma capitalize_words_twice b s :
  capitalize_words b (capitalize_words b s) = capitalize_words b s.
Proof.
  revert b. induction s as [|c s IH]; intros b; [done|]. cbn.
  destruct (b && is_word c) eqn:E.
  - apply andb_true_iff in E as [-> Hw]. cbn [andb].
    rewrite is_word_to_upper, Hw, to_upper_to_upper. by rewrite IH.
  - rewrite E. by rewrite IH.
Qed.

(** X21: [formatMode] is idempotent: formatting a label again gives the
    same label. *)
Theorem formatMode_idempotent (mode : string) :
  formatMode (formatMode mode) = formatMode mode.
Proof.
  unfold formatMode. by rewrite replace_hyphens_capitalized, capitalize_words_twice.
Qed.

(** The labels of two modes. *)
Example formatMode_labels :
  formatMode "logical-consistency" = "Logical Consistency"%string ∧
  formatMode "max_coherence-2x" = "Max_coherence 2x"%string.
Proof. split; reflexivity. Qed.
